(** * Embedded-document formatting (language-service/documentFeatures/format.ts)

    A shallow embedding of [register], [getEmbeddedFilesByLevel], [tryFormat]
    and [patchInterpolationIndent], together with the collaborators they call,
    and the properties of the format operation stated over that embedding.

    Conventions.  A JavaScript string is a [string] whose characters stand for
    code units below 256; offsets, line numbers and lengths are [nat].  The
    texts of the documents and of the edits stay within the longest string of
    the engine; the base indent, built by [repeat] from a number of the
    request, is checked against it.
    Suspension points ([await]) are sequential calls: the operation is the only
    writer of its working document and of the overlay during a request.  A
    formatting provider is a function of the arguments it is called with.
    The text-document library is modelled after its code: offsets are clamped
    to the text, and applying overlapping edits throws. *)

From Stdlib Require Import Ascii String ZArith Lia.
From Stdlib Require Import Sorting.Sorted Sorting.Permutation.
From stdpp Require Import base option list gmap strings.

Set Default Proof Using "Type".

(* ================================================================== *)
(** * 1. JavaScript primitives used by the source *)
(* ================================================================== *)

(** How a call ends: with a value, or by throwing. *)
Inductive Completion (A : Type) : Type :=
| Normal (a : A)
| Throw (err : string).
Arguments Normal {A} a.
Arguments Throw {A} err.

Module Js.

Definition LF : ascii := "010"%char.
Definition CR : ascii := "013"%char.

(** The one-character string ['\n']. *)
Definition nl : string := String LF "".
(** ['\t'] *)
Definition tab : string := String "009"%char "".

(** [s.substring(start, end)]: both indices are clamped to the length and
    swapped when [start > end]. *)
Definition substring (s : string) (start end_ : nat) : string :=
  let len := String.length s in
  let a := Nat.min start len in
  let b := Nat.min end_ len in
  String.substring (Nat.min a b) (Nat.max a b - Nat.min a b) s.

(** [s.substr(start)] *)
Definition substr (s : string) (start : nat) : string :=
  String.substring start (String.length s - start) s.

(** [s.indexOf(pat)]: the first index of [pat], or [-1]. *)
Definition indexOf (s pat : string) : Z :=
  match String.index 0 pat s with
  | Some i => Z.of_nat i
  | None => (-1)%Z
  end.

(** [s.startsWith(pat)] *)
Definition startsWith (s pat : string) : bool := String.prefix pat s.

(** [s.endsWith(pat)] *)
Definition endsWith (s pat : string) : bool :=
  let n := String.length s in
  let k := String.length pat in
  if k <=? n then bool_decide (String.substring (n - k) k s = pat) else false.

(** [s.split(sep)] for a one-character separator: never empty. *)
Fixpoint split (s : string) (sep : ascii) : list string :=
  match s with
  | EmptyString => [EmptyString]
  | String c r =>
      if bool_decide (c = sep) then EmptyString :: split r sep
      else match split r sep with
           | h :: t => String c h :: t
           | [] => [String c EmptyString]
           end
  end.

(** [lines.join(sep)] *)
Definition join (lines : list string) (sep : string) : string :=
  String.concat sep lines.

(** White space and line terminators below 256, as [trimStart] sees them. *)
Definition isWhiteSpace (c : ascii) : bool :=
  match c with
  | "009" | "010" | "011" | "012" | "013" | " " | "160" => true
  | _ => false
  end%char.

(** [s.trimStart()] *)
Fixpoint trimStart (s : string) : string :=
  match s with
  | EmptyString => EmptyString
  | String c r => if isWhiteSpace c then trimStart r else s
  end.

(** [n] copies of [s] appended together. *)
Fixpoint copies (s : string) (n : nat) : string :=
  match n with
  | O => EmptyString
  | S k => s +:+ copies s k
  end.

(** A number as [repeat] reads its count (ToIntegerOrInfinity): an integer,
    the fraction of the number being dropped and NaN counting as [0], or an
    infinity. *)
Inductive IntegerOrInfinity :=
| Integer (n : Z)
| PlusInfinity
| MinusInfinity.

(** The error thrown for a count that is not valid and for a string that is
    too long, named by its class: the message depends on the engine. *)
Definition RangeError : string := "RangeError".

(** [s.repeat(count)]: a RangeError for a negative or infinite count, and for
    a result longer than [maxLength], the longest string the engine builds
    (implementation-defined); otherwise [count] copies of [s]. *)
Definition repeat (maxLength : Z) (s : string) (count : IntegerOrInfinity) :
    Completion string :=
  match count with
  | Integer n =>
      if (n <? 0)%Z then Throw RangeError
      else if (maxLength <? Z.of_nat (String.length s) * n)%Z then Throw RangeError
      else Normal (copies s (Z.to_nat n))
  | PlusInfinity | MinusInfinity => Throw RangeError
  end.

(** The names of the properties every plain object inherits from
    [Object.prototype]; their values are functions, and the prototype itself
    for [__proto__]: all truthy. *)
Definition objectPrototypeKeys : list string :=
  [ "constructor"; "__defineGetter__"; "__defineSetter__"; "hasOwnProperty";
    "__lookupGetter__"; "__lookupSetter__"; "isPrototypeOf";
    "propertyIsEnumerable"; "toString"; "valueOf"; "__proto__";
    "toLocaleString" ].

(** The truthiness of [object[key]] for a plain object with the own
    properties [own]: an own property by its value, an inherited one as
    truthy, any other key as [undefined]. *)
Definition truthyProperty (own : gmap string bool) (key : string) : bool :=
  match own !! key with
  | Some b => b
  | None => bool_decide (key ∈ objectPrototypeKeys)
  end.

(** The largest [uinteger] of the language-server protocol. *)
Definition uintegerMax : Z := 2147483647.

End Js.

(* ================================================================== *)
(** * 2. Positions, ranges, edits and text documents *)
(* ================================================================== *)

Record Position := { line : nat; character : nat }.
Record Range := { start : Position; end_ : Position }.
Record TextEdit := { range : Range; newText : string }.

Global Instance Position_eq_dec : EqDecision Position.
Proof. solve_decision. Defined.
Global Instance Range_eq_dec : EqDecision Range.
Proof. solve_decision. Defined.
Global Instance TextEdit_eq_dec : EqDecision TextEdit.
Proof. solve_decision. Defined.

(** [vscode.Position.is(value)] for a value with the two fields: each is a
    [uinteger] of the protocol, a number from [0] to [2147483647]. *)
Definition Position_is (p : Position) : bool :=
  (Z.of_nat (line p) <=? Js.uintegerMax)%Z && (Z.of_nat (character p) <=? Js.uintegerMax)%Z.

(** [vscode.Range.is(value)] for a value with the two fields. *)
Definition Range_is (r : Range) : bool :=
  Position_is (start r) && Position_is (end_ r).

(** [vscode.Range.create(start, end)] *)
Definition Range_create (s e : Position) : Range := {| start := s; end_ := e |}.

(** [vscode.TextEdit.replace(range, newText)] *)
Definition TextEdit_replace (r : Range) (t : string) : TextEdit :=
  {| range := r; newText := t |}.

(** A text document of the [vscode-languageserver-textdocument] library:
    an immutable text with its URI, language id and version. *)
Record TextDocument := {
  uri : string;
  languageId : string;
  version : nat;
  content : string;
}.

Global Instance TextDocument_eq_dec : EqDecision TextDocument.
Proof. solve_decision. Defined.

Module TextDoc.

(** [TextDocument.create(uri, languageId, version, content)] *)
Definition create (u l : string) (v : nat) (c : string) : TextDocument :=
  {| uri := u; languageId := l; version := v; content := c |}.

(** [document.getText()] *)
Definition getText (d : TextDocument) : string := content d.

(** The offsets that follow a line break ([\n], [\r] or [\r\n]) in a text
    whose first character sits at offset [i]. *)
Fixpoint lineBreaks (i : nat) (s : string) : list nat :=
  match s with
  | EmptyString => []
  | String c r =>
      if bool_decide (c = Js.CR) then
        match r with
        | String c' r' =>
            if bool_decide (c' = Js.LF) then (i + 2) :: lineBreaks (i + 2) r'
            else (i + 1) :: lineBreaks (i + 1) r
        | EmptyString => [i + 1]
        end
      else if bool_decide (c = Js.LF) then (i + 1) :: lineBreaks (i + 1) r
      else lineBreaks (i + 1) r
  end.

(** [document.getLineOffsets()]: the offset at which each line starts. *)
Definition getLineOffsets (d : TextDocument) : list nat :=
  0 :: lineBreaks 0 (content d).

(** The number of leading line offsets that are at most [offset]: the value
    of [low] when the library's binary search stops. *)
Fixpoint searchLow (lineOffsets : list nat) (offset : nat) : nat :=
  match lineOffsets with
  | [] => 0
  | o :: rest => if o <=? offset then S (searchLow rest offset) else 0
  end.

(** [document.positionAt(offset)] *)
Definition positionAt (d : TextDocument) (offset : nat) : Position :=
  let offset := Nat.min offset (String.length (content d)) in
  let lineOffsets := getLineOffsets d in
  let low := searchLow lineOffsets offset in
  let line := low - 1 in
  {| line := line; character := offset - nth line lineOffsets 0 |}.

(** [document.offsetAt(position)] *)
Definition offsetAt (d : TextDocument) (p : Position) : nat :=
  let lineOffsets := getLineOffsets d in
  if length lineOffsets <=? line p then String.length (content d)
  else
    let lineOffset := nth (line p) lineOffsets 0 in
    let nextLineOffset :=
      if line p + 1 <? length lineOffsets
      then nth (line p + 1) lineOffsets 0
      else String.length (content d) in
    Nat.max (Nat.min (lineOffset + character p) nextLineOffset) lineOffset.

(** [document.getText(range)] *)
Definition getTextIn (d : TextDocument) (r : Range) : string :=
  Js.substring (content d) (offsetAt d (start r)) (offsetAt d (end_ r)).

End TextDoc.

(* ================================================================== *)
(** * 3. Completions, stable sorting and [TextDocument.applyEdits] *)
(* ================================================================== *)

(** A stable sort driven by a JavaScript comparator ([cmp a b < 0] puts [a]
    first): what [Array.prototype.sort] and the library's merge sort compute. *)
Section StableSort.
Context {A : Type} (cmp : A → A → Z).

Fixpoint insertSorted (x : A) (l : list A) : list A :=
  match l with
  | [] => [x]
  | y :: l' => if (cmp x y <=? 0)%Z then x :: l else y :: insertSorted x l'
  end.

Fixpoint stableSort (l : list A) : list A :=
  match l with
  | [] => []
  | x :: l' => insertSorted x (stableSort l')
  end.
End StableSort.

Module TextEdits.

Definition getWellformedRange (r : Range) : Range :=
  let s := start r in
  let e := end_ r in
  if (line e <? line s) || ((line s =? line e) && (character e <? character s))
  then {| start := e; end_ := s |}
  else r.

Definition getWellformedEdit (e : TextEdit) : TextEdit :=
  {| range := getWellformedRange (range e); newText := newText e |}.

(** The comparator of the library's merge sort: by start line, then by
    start character. *)
Definition compareStart (a b : TextEdit) : Z :=
  let diff := (Z.of_nat (line (start (range a))) - Z.of_nat (line (start (range b))))%Z in
  if (diff =? 0)%Z
  then (Z.of_nat (character (start (range a))) - Z.of_nat (character (start (range b))))%Z
  else diff.

(** The loop over the sorted edits; [spans] collects the pieces of the new
    text.  An edit that starts before the end of the previous one throws. *)
Fixpoint applySorted (d : TextDocument) (sortedEdits : list TextEdit)
    (lastModifiedOffset : nat) (spans : list string) : Completion string :=
  match sortedEdits with
  | [] => Normal (Js.join (spans ++ [Js.substr (content d) lastModifiedOffset]) "")
  | e :: rest =>
      let startOffset := TextDoc.offsetAt d (start (range e)) in
      if startOffset <? lastModifiedOffset then Throw "Overlapping edit"
      else
        let spans :=
          if lastModifiedOffset <? startOffset
          then spans ++ [Js.substring (content d) lastModifiedOffset startOffset]
          else spans in
        let spans :=
          if 0 <? String.length (newText e) then spans ++ [newText e] else spans in
        applySorted d rest (TextDoc.offsetAt d (end_ (range e))) spans
  end.

(** [TextDocument.applyEdits(document, edits)] *)
Definition applyEdits (d : TextDocument) (edits : list TextEdit) : Completion string :=
  applySorted d (stableSort compareStart (getWellformedEdit <$> edits)) 0 [].

End TextEdits.

(* ================================================================== *)
(** * 4. Mappings, capabilities and the indentation reflow *)
(* ================================================================== *)

(** One mapping of a source map: a range of the outer (source) document and
    the range of the embedded (generated) document it corresponds to. *)
Record Mapping := {
  sourceRange : nat * nat;
  generatedRange : nat * nat;
}.

Global Instance Mapping_eq_dec : EqDecision Mapping.
Proof. solve_decision. Defined.

(** [FileCapabilities['documentFormatting']]: a boolean (absent counts as
    [false]) or an object with the two newline flags. *)
Inductive DocumentFormatting :=
| FormattingFlag (enabled : bool)
| FormattingObject (insertFirstNewline insertFinalNewline : bool).

(** JavaScript truthiness of the capability. *)
Definition truthy (data : DocumentFormatting) : bool :=
  match data with
  | FormattingFlag b => b
  | FormattingObject _ _ => true
  end.

(** [SourceMap]: the array of mappings ([map.mappings]). *)
Record SourceMap := { mappings : list Mapping }.

Section PatchInterpolationIndent.
Variable document : TextDocument.
Variable map_ : SourceMap.
Variable initialIndent : string.
Variable data : DocumentFormatting.

Definition insertFirstNewline : bool :=
  match data with FormattingObject f _ => f | FormattingFlag _ => false end.
Definition insertFinalNewline : bool :=
  match data with FormattingObject _ l => l | FormattingFlag _ => false end.

(** The inner function [getBaseIndent(pos)]: the leading white space of the
    line of [pos], up to [pos]. *)
Definition getBaseIndent (pos : nat) : string :=
  let startPos := TextDoc.positionAt document pos in
  let startLineText :=
    TextDoc.getTextIn document
      {| start := {| line := line startPos; character := 0 |}; end_ := startPos |} in
  Js.substring startLineText 0
    (String.length startLineText - String.length (Js.trimStart startLineText)).

(** [for (let i = 1; i < lines.length - 1; i++)
       if (lines[i] !== '') lines[i] = prefix + lines[i]] *)
Definition indentInterior (prefix : string) (lines : list string) : list string :=
  foldl (fun ls i =>
           match ls !! i with
           | Some l => if bool_decide (l = "") then ls else <[i := prefix +:+ l]> ls
           | None => ls
           end)
        lines (seq 1 (length lines - 2)).

(** [lines[lines.length - 1] = firstLineIndent + lines[lines.length - 1]] *)
Definition indentLast (firstLineIndent : string) (lines : list string) : list string :=
  match lines !! (length lines - 1) with
  | Some l => <[length lines - 1 := firstLineIndent +:+ l]> lines
  | None => lines
  end.

(** The text after the two optional newline insertions, for the mapping
    at index [i]. *)
Definition withNewlines (i : nat) (oldText : string) : string :=
  let newText := oldText in
  let newText :=
    if insertFirstNewline && bool_decide (i = 0) && negb (Js.startsWith newText Js.nl)
    then Js.nl +:+ newText else newText in
  let newText :=
    if insertFinalNewline && bool_decide (i = length (mappings map_) - 1)
       && negb (Js.endsWith newText Js.nl)
    then newText +:+ Js.nl else newText in
  newText.

(** The re-indented text of a mapping whose text has a line break. *)
Definition reflowText (firstLineIndent : string) (i : nat) (oldText : string) : string :=
  let lines := Js.split (withNewlines i oldText) Js.LF in
  let lines := indentInterior (firstLineIndent +:+ initialIndent) lines in
  let lines := indentLast firstLineIndent lines in
  Js.join lines Js.nl.

(** One turn of the loop over the mappings: the edit it pushes, if any
    ([None] for [continue] and for an unchanged text). *)
Definition patchMapping (i : nat) (mapping : Mapping) : option TextEdit :=
  let firstLineIndent := getBaseIndent (sourceRange mapping).1 in
  let oldText :=
    Js.substring (TextDoc.getText document)
      (sourceRange mapping).1 (sourceRange mapping).2 in
  if bool_decide (Js.indexOf oldText Js.nl = (-1)%Z) then None
  else
    let newText := reflowText firstLineIndent i oldText in
    if bool_decide (newText ≠ oldText) then
      Some {| newText := newText;
              range := {| start := TextDoc.positionAt document (sourceRange mapping).1;
                          end_ := TextDoc.positionAt document (sourceRange mapping).2 |} |}
    else None.

(** [patchInterpolationIndent(document, map, initialIndent, data)] *)
Definition patchInterpolationIndent : list TextEdit :=
  foldl (fun indentTextEdits i =>
           match mappings map_ !! i with
           | Some mapping =>
               match patchMapping i mapping with
               | Some e => indentTextEdits ++ [e]
               | None => indentTextEdits
               end
           | None => indentTextEdits
           end)
        [] (seq 0 (length (mappings map_))).
End PatchInterpolationIndent.

(* ================================================================== *)
(** * 5. The embedding tree and its levels *)
(* ================================================================== *)

Record FileCapabilities := { documentFormatting : DocumentFormatting }.

(** A virtual file: a node of the embedding tree. *)
#[warnings="-register-all"]
Inductive VirtualFile := {
  fileName : string;
  capabilities : FileCapabilities;
  embeddedFiles : list VirtualFile;
}.

(** The body of the inner [for]: [nextLevel = nextLevel.concat(file.embeddedFiles)]. *)
Definition nextLevelOf (files : list VirtualFile) : list VirtualFile :=
  foldl (fun nextLevel file => nextLevel ++ embeddedFiles file) [] files.

(** The [while (true)] of [getEmbeddedFilesByLevel], unrolled at most [fuel]
    times; [None] when the unrolling is exhausted. *)
Fixpoint levelsLoop (fuel : nat) (level : nat)
    (embeddedFilesByLevel : list (list VirtualFile)) : option (list VirtualFile) :=
  match fuel with
  | O => None
  | S fuel' =>
      if level <? length embeddedFilesByLevel then embeddedFilesByLevel !! level
      else
        let nextLevel :=
          nextLevelOf
            (default [] (embeddedFilesByLevel !! (length embeddedFilesByLevel - 1))) in
        levelsLoop fuel' level (embeddedFilesByLevel ++ [nextLevel])
  end.

(** [getEmbeddedFilesByLevel(rootFile, level)]; [level + 1] unrollings are
    always enough (lemma [levelsLoop_total]). *)
Definition getEmbeddedFilesByLevel (rootFile : VirtualFile) (level : nat) : list VirtualFile :=
  default [] (levelsLoop (S level) level [[rootFile]]).

(** The regions at breadth-first depth [l], following the words of the
    specification of the level query rather than the code. *)
Fixpoint regionsAtDepth (l : nat) (f : VirtualFile) : list VirtualFile :=
  match l with
  | O => [f]
  | S l' => flat_map (regionsAtDepth l') (embeddedFiles f)
  end.

(** The depth of a tree: the number of edges of its longest branch. *)
Fixpoint depth (f : VirtualFile) : nat :=
  foldr (fun c acc => Nat.max (S (depth c)) acc) 0 (embeddedFiles f).

(* ================================================================== *)
(** * 6. The registry, the plugins and the state of a request *)
(* ================================================================== *)

(** A map between an outer document and the document of a virtual file;
    [map_] is the field [map] of the source. *)
Record SourceMapWithDocuments := {
  sourceFileDocument : TextDocument;
  virtualFileDocument : TextDocument;
  map_ : SourceMap;
}.

(** A source of the registry: the live snapshot (the overlay) and the root of
    the embedding tree.  A snapshot is identified with the text it holds, so
    [stringToSnapshot] is the identity.  A request walks the tree it read
    from the source when it started ([rootVirtualFile]). *)
Record Source := { snapshot : string; root : VirtualFile }.

Definition stringToSnapshot (text : string) : string := text.

(** A map object of the registry with the virtual file it belongs to. *)
Abbreviation MapEntry := (VirtualFile * SourceMapWithDocuments)%type.

(** The mutable state a request works on.  [sourceFiles] is keyed by file
    name.  [maps] holds the registry's map objects: the index of an entry is
    its identity, so that sorting [map.map.mappings] in place is a write at
    that index.  [console] is what [console.warn] printed.  [levelQueries] is
    a ghost log of the levels asked of [getEmbeddedFilesByLevel]. *)
Record World := {
  sourceFiles : gmap string Source;
  maps : list MapEntry;
  console : list string;
  levelQueries : list nat;
}.

(** [vscode.FormattingOptions]; [tabSize] is a number, here as [repeat], the
    only reader of it in this file, converts it. *)
Record FormattingOptions := { tabSize : Js.IntegerOrInfinity; insertSpaces : bool }.

(** What a provider call yields: an edit list, or [None] for [null] and
    [undefined]; it may throw. *)
Definition ProviderResult : Type := Completion (option (list TextEdit)).

(** A plugin; each of the two methods is optional. *)
Record LanguageServicePlugin := {
  format : option (TextDocument → Range → FormattingOptions → ProviderResult);
  formatOnType :
    option (TextDocument → Position → string → FormattingOptions → ProviderResult);
}.

(** The collaborators reached through [context] whose code is outside this
    file, taken as parameters: the host's documents, the configuration, the
    plugins in the order of [Object.values], the three translations of a map, the
    conversion of a URI to a file name, what an update of a source does
    to the registry's map objects, and the longest string the JavaScript
    engine of the host builds.  The configuration is a plain object, given by
    its own properties. *)
Record LanguageServicePluginContext := {
  getTextDocument : string → option TextDocument;
  getConfiguration : option (gmap string bool);
  plugins : list LanguageServicePlugin;
  uriToFileName : string → string;
  toGeneratedPosition : SourceMapWithDocuments → Position → option Position;
  toGeneratedRange : SourceMapWithDocuments → Range → option Range;
  toSourceRange : SourceMapWithDocuments → Range → option Range;
  regenerateMaps : string → string → list MapEntry → list MapEntry;
  maxStringLength : Z;
}.

(** ** A state monad with exceptions *)

(** The third way a computation of the model can end: the bounded unrolling
    of the level loop was exhausted. *)
Inductive Outcome (A : Type) : Type :=
| Returns (a : A)
| Throws (err : string)
| OutOfFuel.
Arguments Returns {A} a.
Arguments Throws {A} err.
Arguments OutOfFuel {A}.

Definition M (A : Type) : Type := World → Outcome A * World.

Definition ret {A} (a : A) : M A := fun w => (Returns a, w).

Definition bind {A B} (m : M A) (k : A → M B) : M B :=
  fun w =>
    match m w with
    | (Returns a, w') => k a w'
    | (Throws e, w') => (Throws e, w')
    | (OutOfFuel, w') => (OutOfFuel, w')
    end.

Notation "'let*' x ':=' m 'in' k" := (bind m (fun x => k))
  (at level 10, x pattern, m at level 200, k at level 200).

(** A [for ... of] loop whose body updates the local variables [acc]. *)
Fixpoint forOf {A L} (xs : list A) (body : L → A → M L) (acc : L) : M L :=
  match xs with
  | [] => ret acc
  | x :: rest => let* acc' := body acc x in forOf rest body acc'
  end.

(** A library call that may throw. *)
Definition liftCompletion {A} (c : Completion A) : M A :=
  fun w => match c with Normal a => (Returns a, w) | Throw e => (Throws e, w) end.

(** [console.warn(err)] *)
Definition warn (err : string) : M unit :=
  fun w => (Returns (),
            {| sourceFiles := sourceFiles w; maps := maps w;
               console := console w ++ [err]; levelQueries := levelQueries w |}).

(** [context.documents.getSourceByUri(uri)] *)
Definition getSourceByUri (ctx : LanguageServicePluginContext) (u : string) : M (option Source) :=
  fun w => (Returns (sourceFiles w !! uriToFileName ctx u), w).

(** The source with its snapshot replaced. *)
Definition withSnapshot (snap : string) (s : Source) : Source :=
  {| snapshot := snap; root := root s |}.

(** Modelled from the spec: the registry operation [updateSource(uri, snapshot)]
    of language-core, which is not in this file, "to push/restore overlay
    state".  It replaces the snapshot of the source stored under the file
    name; the registry's map objects become what [regenerateMaps] makes of
    them. *)
Definition updateSource (ctx : LanguageServicePluginContext)
    (file : string) (snap : string) : M unit :=
  fun w => (Returns (),
            {| sourceFiles :=
                 alter (withSnapshot snap) file (sourceFiles w);
               maps := regenerateMaps ctx file snap (maps w);
               console := console w; levelQueries := levelQueries w |}).

(** Modelled from the spec: [getMappingsByRegionName(name)] of the document
    registry, which is not in this file: the map objects of the virtual file
    of that name, each with its identity.  The iterable is read in full when
    the call is made. *)
Definition getMapsByVirtualFileName (name : string) : M (list (nat * MapEntry)) :=
  fun w => (Returns (filter (fun e => fileName (e.2.1) = name) (imap (fun i e => (i, e)) (maps w))), w).

(** Modelled from the spec: [getMappingsByRegionUri(uri)], the same lookup
    for the file name of a URI. *)
Definition getMapsByVirtualFileUri (ctx : LanguageServicePluginContext) (u : string) :
    M (list (nat * MapEntry)) :=
  getMapsByVirtualFileName (uriToFileName ctx u).

(** [map.map.mappings.sort(cmp)]: sorts the array of the map object [ref] in
    place and returns it. *)
Definition sortMappings (ref : nat) (cmp : Mapping → Mapping → Z) : M (list Mapping) :=
  fun w =>
    match maps w !! ref with
    | Some (file, m) =>
        let sorted := stableSort cmp (mappings (map_ m)) in
        (Returns sorted,
         {| sourceFiles := sourceFiles w;
            maps := <[ref := (file, {| sourceFileDocument := sourceFileDocument m;
                                       virtualFileDocument := virtualFileDocument m;
                                       map_ := {| mappings := sorted |} |})]> (maps w);
            console := console w; levelQueries := levelQueries w |})
    | None => (Returns [], w)
    end.

(** The map object [ref] as it is now. *)
Definition readMap (ref : nat) (m : SourceMapWithDocuments) : M SourceMapWithDocuments :=
  fun w => (Returns (match maps w !! ref with Some (_, m') => m' | None => m end), w).

(** The level query of the loop, with its ghost log. *)
Definition queryLevel (rootFile : VirtualFile) (level : nat) : M (list VirtualFile) :=
  fun w => (Returns (getEmbeddedFilesByLevel rootFile level),
            {| sourceFiles := sourceFiles w; maps := maps w; console := console w;
               levelQueries := levelQueries w ++ [level] |}).

(* ================================================================== *)
(** * 7. [tryFormat]: dispatch over the plugins *)
(* ================================================================== *)

(** The second argument of [tryFormat]: a range or a position, told apart by
    the fields [vscode.Range.is] and [vscode.Position.is] look for. *)
Inductive RangeOrPosition :=
| IsRange (r : Range)
| IsPosition (p : Position).

Section TryFormat.
Variable ctx : LanguageServicePluginContext.
Variable options : FormattingOptions.

(** The body of the [try] block for one plugin. *)
Definition callPlugin (plugin : LanguageServicePlugin) (document : TextDocument)
    (formatRange : RangeOrPosition) (ch : option string) : ProviderResult :=
  match ch, formatRange with
  | Some c, IsPosition p =>
      if Position_is p then
        match formatOnType plugin with
        | Some f => f document p c options
        | None => Normal None
        end
      else Normal None
  | None, IsRange r =>
      if Range_is r then
        match format plugin with
        | Some f => f document r options
        | None => Normal None
        end
      else Normal None
  | _, _ => Normal None
  end.

(** The loop of [tryFormat] over the plugins that remain. *)
Fixpoint tryFormatFrom (remaining : list LanguageServicePlugin) (document : TextDocument)
    (formatRange : RangeOrPosition) (ch : option string) : M (option (list TextEdit)) :=
  match remaining with
  | [] => ret None
  | plugin :: rest =>
      let* edits :=
        match callPlugin plugin document formatRange ch with
        | Normal e => ret e
        | Throw err => let* _ := warn err in ret None
        end in
      match edits with
      | None => tryFormatFrom rest document formatRange ch
      | Some es => ret (Some es)
      end
  end.

(** [tryFormat(document, range, ch)] *)
Definition tryFormat (document : TextDocument) (range : RangeOrPosition)
    (ch : option string) : M (option (list TextEdit)) :=
  tryFormatFrom (plugins ctx) document range ch.
End TryFormat.

(* ================================================================== *)
(** * 8. [register]: the format operation *)
(* ================================================================== *)

Record OnTypeParams := { ch : string; position : Position }.

(** The local variables of one turn of the loop over the embedded files. *)
Record LevelLocals := {
  edits : list TextEdit;
  toPatchIndentUris : list string;
}.

(** The local variables the level loop carries from turn to turn. *)
Record LoopLocals := {
  document : TextDocument;
  edited : bool;
}.

Section Register.
Variable ctx : LanguageServicePluginContext.
Variable options : FormattingOptions.
(** The parameter [range], after [range ??= ...]. *)
Variable range_ : Range.
Variable onTypeParams : option OnTypeParams.

Definition bySourceStart (a b : Mapping) : Z :=
  (Z.of_nat (sourceRange a).1 - Z.of_nat (sourceRange b).1)%Z.
Definition bySourceStartDesc (a b : Mapping) : Z :=
  (Z.of_nat (sourceRange b).1 - Z.of_nat (sourceRange a).1)%Z.

(** The condition and the range of the fallback, once the two extremities
    have been looked up. *)
Definition fallbackRange (document : TextDocument) (virtualDocument : TextDocument)
    (firstMapping lastMapping : option Mapping) : option Range :=
  match firstMapping, lastMapping with
  | Some first, Some last =>
      if (TextDoc.offsetAt document (start range_) <? (sourceRange first).1)
         && ((sourceRange last).2 <? TextDoc.offsetAt document (end_ range_))
      then Some {| start := TextDoc.positionAt virtualDocument (generatedRange first).1;
                   end_ := TextDoc.positionAt virtualDocument (generatedRange last).2 |}
      else None
  | _, _ => None
  end.

(** Lines 76 to 90: the range to format in the virtual file, and the map
    object as the lookup leaves it. *)
Definition virtualCodeRangeOf (document : TextDocument) (ref : nat)
    (m : SourceMapWithDocuments) : M (option Range * SourceMapWithDocuments) :=
  match toGeneratedRange ctx m range_ with
  | Some r => ret (Some r, m)
  | None =>
      let* ascending := sortMappings ref bySourceStart in
      let firstMapping := ascending !! 0 in
      let* descending := sortMappings ref bySourceStartDesc in
      let lastMapping := descending !! 0 in
      let* m' := readMap ref m in
      ret (fallbackRange document (virtualFileDocument m') firstMapping lastMapping, m')
  end.

(** Lines 104 to 112: the edits of a virtual file pushed onto [edits], each
    with its range translated to the outer document. *)
Definition pushTranslated (m : SourceMapWithDocuments)
    (virtualCodeEdits : list TextEdit) (edits : list TextEdit) : list TextEdit :=
  foldl (fun edits textEdit =>
           match toSourceRange ctx m (range textEdit) with
           | Some r => edits ++ [{| newText := newText textEdit; range := r |}]
           | None => edits
           end)
        edits virtualCodeEdits.

(** One turn of [for (const embedded of embeddedFiles)]. *)
Definition formatEmbedded (document : TextDocument) (locals : LevelLocals)
    (embedded : VirtualFile) : M LevelLocals :=
  if negb (truthy (documentFormatting (capabilities embedded))) then ret locals
  else
    let* found := getMapsByVirtualFileName (fileName embedded) in
    match List.find (fun e => bool_decide (uri (sourceFileDocument e.2.2) = uri document)) found with
    | None => ret locals
    | Some (ref, (_, m)) =>
        let* (virtualCodeEdits, m, touched) :=
          match onTypeParams with
          | Some params =>
              match toGeneratedPosition ctx m (position params) with
              | Some embeddedPosition =>
                  let* es := tryFormat ctx options (virtualFileDocument m)
                               (IsPosition embeddedPosition) (Some (ch params)) in
                  ret (es, m, [])
              | None => ret (None, m, [])
              end
          | None =>
              let* (virtualCodeRange, m) := virtualCodeRangeOf document ref m in
              let* es :=
                match virtualCodeRange with
                | Some r => tryFormat ctx options (virtualFileDocument m) (IsRange r) None
                | None => ret None
                end in
              ret (es, m,
                   match es with Some _ => [uri (virtualFileDocument m)] | None => [] end)
          end in
        let toPatch := toPatchIndentUris locals ++ touched in
        match virtualCodeEdits with
        | None => ret {| edits := edits locals; toPatchIndentUris := toPatch |}
        | Some es =>
            ret {| edits := pushTranslated m es (edits locals);
                   toPatchIndentUris := toPatch |}
        end
    end.

(** Lines 116 to 119 and 138 to 141: apply a batch, advance the version,
    push the new snapshot into the overlay. *)
Definition applyBatch (locals : LoopLocals) (batch : list TextEdit) : M LoopLocals :=
  let document := document locals in
  let* newText := liftCompletion (TextEdits.applyEdits document batch) in
  let document :=
    TextDoc.create (uri document) (languageId document) (version document + 1) newText in
  let* _ := updateSource ctx (uriToFileName ctx (uri document))
              (stringToSnapshot (TextDoc.getText document)) in
  ret {| document := document; edited := true |}.

(** One turn of the inner loop of the reflow, for one map of a touched file. *)
Definition reflowMap (initialIndentLanguageId : gmap string bool) (baseIndent : string)
    (locals : LoopLocals) (entry : nat * MapEntry) : M LoopLocals :=
  let file := entry.2.1 in
  let m := entry.2.2 in
  let indentEdits :=
    patchInterpolationIndent (document locals) (map_ m)
      (if Js.truthyProperty initialIndentLanguageId (languageId (virtualFileDocument m))
       then baseIndent else "")
      (documentFormatting (capabilities file)) in
  if 0 <? length indentEdits then applyBatch locals indentEdits else ret locals.

(** Line 124: [options.insertSpaces ? ' '.repeat(options.tabSize) : '\t'] *)
Definition baseIndentOf : Completion string :=
  if insertSpaces options
  then Js.repeat (maxStringLength ctx) " " (tabSize options)
  else Normal Js.tab.

(** Lines 122 to 145; the base indent is computed once the level is above
    the first, before the loop over the touched files. *)
Definition reflowLevel (initialIndentLanguageId : gmap string bool)
    (toPatchIndentUris : list string) (locals : LoopLocals) : M LoopLocals :=
  let* baseIndent := liftCompletion baseIndentOf in
  forOf toPatchIndentUris
    (fun locals toPatchIndentUri =>
       let* found := getMapsByVirtualFileUri ctx toPatchIndentUri in
       forOf found (reflowMap initialIndentLanguageId baseIndent) locals)
    locals.

(** The [while (true)] of lines 41 to 146, unrolled at most [fuel] times.
    [level] is the value of the variable before [level++]. *)
Fixpoint levelLoop (fuel : nat) (initialIndentLanguageId : gmap string bool)
    (rootVirtualFile : VirtualFile) (level : nat) (locals : LoopLocals) : M LoopLocals :=
  match fuel with
  | O => fun w => (OutOfFuel, w)
  | S fuel' =>
      let* embeddedFiles := queryLevel rootVirtualFile level in
      let level := level + 1 in
      if bool_decide (length embeddedFiles = 0) then ret locals
      else
        let* lv := forOf embeddedFiles (formatEmbedded (document locals))
                     {| edits := []; toPatchIndentUris := [] |} in
        let* locals :=
          if 0 <? length (edits lv) then applyBatch locals (edits lv) else ret locals in
        let* locals :=
          if 1 <? level
          then reflowLevel initialIndentLanguageId (toPatchIndentUris lv) locals
          else ret locals in
        levelLoop fuel' initialIndentLanguageId rootVirtualFile level locals
  end.
End Register.

(** The function [register(context)] returns; [fuel] bounds the unrolling of
    the level loop ([depth root + 2] is always enough). *)
Definition register (ctx : LanguageServicePluginContext) (fuel : nat)
    (uri_ : string) (options : FormattingOptions)
    (range : option Range) (onTypeParams : option OnTypeParams) :
    M (option (list TextEdit)) :=
  match getTextDocument ctx uri_ with
  | None => ret None
  | Some document0 =>
      let range_ :=
        default (Range_create (TextDoc.positionAt document0 0)
                   (TextDoc.positionAt document0 (String.length (TextDoc.getText document0))))
                range in
      let* source := getSourceByUri ctx (uri document0) in
      match source with
      | None =>
          match onTypeParams with
          | Some params =>
              tryFormat ctx options document0 (IsPosition (position params)) (Some (ch params))
          | None => tryFormat ctx options document0 (IsRange range_) None
          end
      | Some source =>
          let initialIndentLanguageId :=
            default {[ "html" := true ]} (getConfiguration ctx) in
          let originalSnapshot := snapshot source in
          let rootVirtualFile := root source in
          let originalDocument := document0 in
          let* final :=
            levelLoop ctx options range_ onTypeParams fuel initialIndentLanguageId
              rootVirtualFile 0 {| document := document0; edited := false |} in
          let* _ :=
            if edited final
            then updateSource ctx (uriToFileName ctx (uri (document final))) originalSnapshot
            else ret () in
          if bool_decide (TextDoc.getText (document final) = TextDoc.getText originalDocument)
          then ret None
          else
            let editRange :=
              Range_create (TextDoc.positionAt originalDocument 0)
                (TextDoc.positionAt originalDocument
                   (String.length (TextDoc.getText originalDocument))) in
            let textEdit := TextEdit_replace editRange (TextDoc.getText (document final)) in
            ret (Some [textEdit])
      end
  end.

(* ================================================================== *)
(** * 9. The range mapper of the specification *)
(* ================================================================== *)

Module RangeMapper.

(** Modelled from the spec: the translation of an offset by a mapping set,
    whose code (the source-map package) is not in this file.  It finds the
    mapping whose [from] side contains the offset and is absent if none
    covers it. *)
Definition translateOffset (from to : Mapping → nat * nat)
    (ms : list Mapping) (offset : nat) : option nat :=
  match List.find (fun m => ((from m).1 <=? offset) && (offset <=? (from m).2)) ms with
  | Some m => Some ((to m).1 + (offset - (from m).1))
  | None => None
  end.

(** Modelled from the spec: [toGeneratedPosition] of a map with documents. *)
Definition toGeneratedPosition (m : SourceMapWithDocuments) (p : Position) : option Position :=
  match translateOffset sourceRange generatedRange (mappings (map_ m))
          (TextDoc.offsetAt (sourceFileDocument m) p) with
  | Some o => Some (TextDoc.positionAt (virtualFileDocument m) o)
  | None => None
  end.

(** Modelled from the spec: [toSourcePosition], its inverse. *)
Definition toSourcePosition (m : SourceMapWithDocuments) (p : Position) : option Position :=
  match translateOffset generatedRange sourceRange (mappings (map_ m))
          (TextDoc.offsetAt (virtualFileDocument m) p) with
  | Some o => Some (TextDoc.positionAt (sourceFileDocument m) o)
  | None => None
  end.

(** Modelled from the spec: [toGeneratedRange]; both endpoints of the range
    must resolve. *)
Definition toGeneratedRange (m : SourceMapWithDocuments) (r : Range) : option Range :=
  match toGeneratedPosition m (start r), toGeneratedPosition m (end_ r) with
  | Some s, Some e => Some {| start := s; end_ := e |}
  | _, _ => None
  end.

(** Modelled from the spec: [toSourceRange], the inverse. *)
Definition toSourceRange (m : SourceMapWithDocuments) (r : Range) : option Range :=
  match toSourcePosition m (start r), toSourcePosition m (end_ r) with
  | Some s, Some e => Some {| start := s; end_ := e |}
  | _, _ => None
  end.

End RangeMapper.

(* ================================================================== *)
(** * 10. Notions used to state the properties *)
(* ================================================================== *)

(** The number of occurrences of a character in a string. *)
Fixpoint countChar (c : ascii) (s : string) : nat :=
  match s with
  | EmptyString => 0
  | String a r => (if bool_decide (a = c) then 1 else 0) + countChar c r
  end.

(** What the two loops of the reflow make of line [k] of [n] lines. *)
Definition interiorLine (prefix : string) (a n k : nat) (l : string) : string :=
  if bool_decide (a ≤ k < a + n ∧ l ≠ "") then prefix +:+ l else l.

Module Example_reflow.
(** The text of the reflow example: a function body on three lines. *)
Definition body : string :=
  "function f() {" +:+ Js.nl +:+ "  return 1;" +:+ Js.nl +:+ "}".
(** The patched text the specification announces (four spaces). *)
Definition announced : string :=
  "function f() {" +:+ Js.nl +:+ "    return 1;" +:+ Js.nl +:+ "  }".
(** The patched text the code produces (six spaces). *)
Definition produced : string :=
  "function f() {" +:+ Js.nl +:+ "      return 1;" +:+ Js.nl +:+ "  }".
(** An outer document that embeds the body on a line indented by two
    spaces, and the mapping of the body. *)
Definition outer : TextDocument :=
  TextDoc.create "file:///a.vue" "vue" 1 ("  <s>" +:+ body +:+ "</s>").
Definition mapping : Mapping :=
  {| sourceRange := (5, 5 + String.length body);
     generatedRange := (0, String.length body) |}.
Definition sourceMap : SourceMap := {| mappings := [mapping] |}.
End Example_reflow.

(** The world after [console.warn] has printed the errors [log]. *)
Definition logged (w : World) (log : list string) : World :=
  {| sourceFiles := sourceFiles w; maps := maps w;
     console := console w ++ log; levelQueries := levelQueries w |}.

Section Dispatch.
Variable options : FormattingOptions.
Variable document : TextDocument.
Variable target : RangeOrPosition.
Variable ch : option string.

(** The plugin yields no result: it has no opinion, or it throws. *)
Definition noResult (plugin : LanguageServicePlugin) : Prop :=
  match callPlugin options plugin document target ch with
  | Normal (Some _) => False
  | _ => True
  end.

(** The errors of the plugins that throw, in the order of the plugins. *)
Definition thrownBy (ps : list LanguageServicePlugin) : list string :=
  omap (fun plugin =>
          match callPlugin options plugin document target ch with
          | Throw err => Some err
          | Normal _ => None
          end) ps.

(** Following the words of the specification rather than the code: the
    result of the first plugin whose result is a non-empty list. *)
Fixpoint firstNonEmpty (ps : list LanguageServicePlugin) : option (list TextEdit) :=
  match ps with
  | [] => None
  | plugin :: rest =>
      match callPlugin options plugin document target ch with
      | Normal (Some (e :: es)) => Some (e :: es)
      | _ => firstNonEmpty rest
      end
  end.
End Dispatch.

(** A context for the examples: the given documents and plugins, no
    configuration host, the range mapper of the specification, file names
    equal to URIs, a registry whose map objects survive an update, and the
    longest string of V8 on 64 bits. *)
Definition exampleContext (docs : string → option TextDocument)
    (ps : list LanguageServicePlugin) : LanguageServicePluginContext :=
  {| getTextDocument := docs;
     getConfiguration := None;
     plugins := ps;
     uriToFileName := fun u => u;
     toGeneratedPosition := RangeMapper.toGeneratedPosition;
     toGeneratedRange := RangeMapper.toGeneratedRange;
     toSourceRange := RangeMapper.toSourceRange;
     regenerateMaps := fun _ _ ms => ms;
     maxStringLength := 536870888 |}.

Definition emptyWorld : World :=
  {| sourceFiles := ∅; maps := []; console := []; levelQueries := [] |}.

Module Example_dispatch.
Definition options : FormattingOptions := {| tabSize := Js.Integer 2; insertSpaces := true |}.
Definition doc : TextDocument := TextDoc.create "file:///a.ts" "typescript" 1 "let  x".
Definition whole : Range :=
  {| start := {| line := 0; character := 0 |}; end_ := {| line := 0; character := 6 |} |}.
Definition edit : TextEdit :=
  {| range := {| start := {| line := 0; character := 3 |};
                 end_ := {| line := 0; character := 5 |} |};
     newText := " " |}.
(** A plugin that answers with an empty edit list. *)
Definition silent : LanguageServicePlugin :=
  {| format := Some (fun _ _ _ => Normal (Some [])); formatOnType := None |}.
(** A plugin that answers with one edit. *)
Definition fixer : LanguageServicePlugin :=
  {| format := Some (fun _ _ _ => Normal (Some [edit])); formatOnType := None |}.
(** A plugin that throws. *)
Definition faulty : LanguageServicePlugin :=
  {| format := Some (fun _ _ _ => Throw "boom"); formatOnType := None |}.
Definition ctx : LanguageServicePluginContext :=
  exampleContext (fun _ => Some doc) [silent; fixer].
End Example_dispatch.

(** The edit of a virtual file in outer coordinates, when its range
    translates. *)
Definition translateEdit (ctx : LanguageServicePluginContext)
    (m : SourceMapWithDocuments) (textEdit : TextEdit) : option TextEdit :=
  match toSourceRange ctx m (range textEdit) with
  | Some r => Some {| range := r; newText := newText textEdit |}
  | None => None
  end.

(** What a step leaves alone in the world: the sources and the ghost log. *)
Definition sameSources (w w' : World) : Prop :=
  sourceFiles w' = sourceFiles w ∧ levelQueries w' = levelQueries w.

(** The outcome of a computation run in [w]: [Q] holds of the value and the
    world when it returns, [E] of the world when it throws, and the
    unrolling is not exhausted. *)
Definition wp {A} (m : M A) (w : World) (Q : A → World → Prop) (E : World → Prop) : Prop :=
  match m w with
  | (Returns a, w') => Q a w'
  | (Throws _, w') => E w'
  | (OutOfFuel, _) => False
  end.

(** The levels built by the loop of [getEmbeddedFilesByLevel]:
    level [n + 1] gathers the embedded files of level [n]. *)
Fixpoint levelList (rootFile : VirtualFile) (n : nat) : list VirtualFile :=
  match n with
  | O => [rootFile]
  | S n' => nextLevelOf (levelList rootFile n')
  end.

Module Example_tree.
Definition able : FileCapabilities := {| documentFormatting := FormattingFlag true |}.
Definition leaf (name : string) : VirtualFile :=
  {| fileName := name; capabilities := able; embeddedFiles := [] |}.
(** A root with a script that embeds a template, and a style: depth 2. *)
Definition tree : VirtualFile :=
  {| fileName := "a.vue";
     capabilities := able;
     embeddedFiles :=
       [ {| fileName := "a.vue.ts"; capabilities := able;
            embeddedFiles := [leaf "a.vue.ts.html"] |};
         leaf "a.vue.css" ] |}.
End Example_tree.

(** What holds of the local variables and the world between two steps of a
    request on [document0] started in [w0], once the levels logged are
    [queries]: the working document keeps its URI; the sources are those of
    [w0], except that the snapshot of the file of the document may have been
    replaced, and only if [edited] is set. *)
Definition requestInv (ctx : LanguageServicePluginContext) (document0 : TextDocument)
    (w0 : World) (queries : list nat) (locals : LoopLocals) (w : World) : Prop :=
  uri (document locals) = uri document0
  ∧ levelQueries w = queries
  ∧ (edited locals = false → sourceFiles w = sourceFiles w0)
  ∧ (sourceFiles w = sourceFiles w0
     ∨ ∃ snap, sourceFiles w
               = alter (withSnapshot snap) (uriToFileName ctx (uri document0)) (sourceFiles w0)).

(** The same, when an exhausted unrolling is allowed. *)
Definition wpPartial {A} (m : M A) (w : World) (Q : A → World → Prop) : Prop :=
  match m w with
  | (Returns a, w') => Q a w'
  | (Throws _, _) => True
  | (OutOfFuel, _) => True
  end.

Module Example_request.
(** An outer document with two embedded blocks of three lines each. *)
Definition block (c : string) : string := "{" +:+ Js.nl +:+ c +:+ Js.nl +:+ "}".
Definition text : string := "<a>" +:+ block "x" +:+ "</a><b>" +:+ block "y" +:+ "</b>".
Definition doc : TextDocument := TextDoc.create "a.vue" "vue" 1 text.
Definition virtualDoc : TextDocument :=
  TextDoc.create "a.vue.ts" "typescript" 1 (block "x" +:+ block "y").
(** The mapping of the first block and of the second block. *)
Definition m1 : Mapping := {| sourceRange := (3, 8); generatedRange := (0, 5) |}.
Definition m2 : Mapping := {| sourceRange := (15, 20); generatedRange := (5, 10) |}.
Definition newlines : DocumentFormatting := FormattingObject true true.
Definition script : VirtualFile :=
  {| fileName := "a.vue.ts";
     capabilities := {| documentFormatting := newlines |};
     embeddedFiles := [] |}.
Definition tree : VirtualFile :=
  {| fileName := "a.vue";
     capabilities := {| documentFormatting := FormattingFlag false |};
     embeddedFiles := [script] |}.
Definition mapOf (ms : list Mapping) : SourceMapWithDocuments :=
  {| sourceFileDocument := doc; virtualFileDocument := virtualDoc;
     map_ := {| mappings := ms |} |}.
(** A plugin that renames [x] to [z] in the virtual document. *)
Definition rename : TextEdit :=
  {| range := {| start := {| line := 1; character := 0 |};
                 end_ := {| line := 1; character := 1 |} |};
     newText := "z" |}.
Definition renamer : LanguageServicePlugin :=
  {| format := Some (fun _ _ _ => Normal (Some [rename])); formatOnType := None |}.
Definition ctx : LanguageServicePluginContext :=
  exampleContext (fun _ => Some doc) [renamer].
Definition options : FormattingOptions := {| tabSize := Js.Integer 2; insertSpaces := true |}.
Definition world : World :=
  {| sourceFiles := {[ "a.vue" := {| snapshot := text; root := tree |} ]};
     maps := [(script, mapOf [m1; m2])];
     console := []; levelQueries := [] |}.
(** The range of the whole document, as [range ??= ...] builds it. *)
Definition whole : Range :=
  Range_create (TextDoc.positionAt doc 0) (TextDoc.positionAt doc (String.length text)).
End Example_request.

Module Example_outcome.
(** The example request run with three turns, and the text it accumulates:
    the renamed [x], a final newline after the first block and a first
    newline before the second block. *)
Definition outcome : Outcome (option (list TextEdit)) * World :=
  register Example_request.ctx 3 "a.vue" Example_request.options None None
    Example_request.world.
Definition accumulated : string :=
  "<a>" +:+ Example_request.block "z" +:+ Js.nl +:+ "</a><b>" +:+ Js.nl
  +:+ Example_request.block "y" +:+ "</b>".
Definition expected : option (list TextEdit) :=
  Some [{| range := Example_request.whole; newText := accumulated |}].
End Example_outcome.

Module Example_partial.
(** A one-line outer document whose middle is mapped, and a requested range
    that leaves out its first and last character. *)
Definition doc : TextDocument := TextDoc.create "p.vue" "vue" 1 "0123456789".
Definition virtualDoc : TextDocument := TextDoc.create "p.vue.ts" "typescript" 1 "345".
Definition mapping : Mapping := {| sourceRange := (3, 6); generatedRange := (0, 3) |}.
Definition mapObject : SourceMapWithDocuments :=
  {| sourceFileDocument := doc; virtualFileDocument := virtualDoc;
     map_ := {| mappings := [mapping] |} |}.
Definition file : VirtualFile :=
  {| fileName := "p.vue.ts";
     capabilities := {| documentFormatting := FormattingFlag true |};
     embeddedFiles := [] |}.
Definition partial : Range :=
  {| start := {| line := 0; character := 1 |}; end_ := {| line := 0; character := 9 |} |}.
Definition whole : Range :=
  Range_create (TextDoc.positionAt doc 0) (TextDoc.positionAt doc (String.length (content doc))).
Definition ctx : LanguageServicePluginContext := exampleContext (fun _ => Some doc) [].
Definition world : World :=
  {| sourceFiles := ∅; maps := [(file, mapObject)]; console := []; levelQueries := [] |}.
End Example_partial.

Module Example_reorder.
(** The ranges of the two blocks of the example document. *)
Definition firstBlock : Range :=
  {| start := {| line := 0; character := 3 |}; end_ := {| line := 2; character := 1 |} |}.
Definition secondBlock : Range :=
  {| start := {| line := 2; character := 8 |}; end_ := {| line := 4; character := 1 |} |}.
(** The example context with no plugin and an arbitrary behaviour of the
    registry on update. *)
Definition quiet (regenerate : string → string → list MapEntry → list MapEntry) :
    LanguageServicePluginContext :=
  {| getTextDocument := fun _ => Some Example_request.doc;
     getConfiguration := None;
     plugins := [];
     uriToFileName := fun u => u;
     toGeneratedPosition := RangeMapper.toGeneratedPosition;
     toGeneratedRange := RangeMapper.toGeneratedRange;
     toSourceRange := RangeMapper.toSourceRange;
     regenerateMaps := regenerate;
     maxStringLength := 536870888 |}.
End Example_reorder.

Module Example_shared.
(** A virtual file that holds a mapping set against [a.vue] and another
    against [b.vue]; the request is for [a.vue]. *)
Definition textA : string :=
  "<s>ab</s>" +:+ Js.nl +:+ "  <t>" +:+ Js.nl +:+ "u" +:+ Js.nl +:+ "</t>".
Definition docA : TextDocument := TextDoc.create "a.vue" "vue" 1 textA.
Definition docB : TextDocument :=
  TextDoc.create "b.vue" "vue" 1 "<a></a><b></b><s>abc</s>".
Definition virtualDoc : TextDocument := TextDoc.create "shared.ts" "typescript" 1 "ab".
Definition mappingA : Mapping := {| sourceRange := (3, 5); generatedRange := (0, 2) |}.
Definition mappingB : Mapping := {| sourceRange := (15, 18); generatedRange := (0, 3) |}.
Definition mapA : SourceMapWithDocuments :=
  {| sourceFileDocument := docA; virtualFileDocument := virtualDoc;
     map_ := {| mappings := [mappingA] |} |}.
Definition mapB : SourceMapWithDocuments :=
  {| sourceFileDocument := docB; virtualFileDocument := virtualDoc;
     map_ := {| mappings := [mappingB] |} |}.
Definition shared : VirtualFile :=
  {| fileName := "shared.ts";
     capabilities := {| documentFormatting := FormattingFlag true |};
     embeddedFiles := [] |}.
Definition tree : VirtualFile :=
  {| fileName := "a.vue";
     capabilities := {| documentFormatting := FormattingFlag false |};
     embeddedFiles := [shared] |}.
Definition ctx : LanguageServicePluginContext :=
  exampleContext (fun _ => Some docA) [Example_dispatch.silent].
Definition options : FormattingOptions := {| tabSize := Js.Integer 2; insertSpaces := true |}.
Definition worldWith (entries : list MapEntry) : World :=
  {| sourceFiles := {[ "a.vue" := {| snapshot := textA; root := tree |} ]};
     maps := entries; console := []; levelQueries := [] |}.
(** The text the request returns: the lines of [a.vue] found at the offsets
    of the mapping against [b.vue], re-indented. *)
Definition patched : string :=
  "<s>ab</s>" +:+ Js.nl +:+ "  <t>" +:+ Js.nl +:+ "  u" +:+ Js.nl +:+ "  </t>".
End Example_shared.

(** A plugin reduced to one of its two methods. *)
Definition onlyFormat (plugin : LanguageServicePlugin) : LanguageServicePlugin :=
  {| format := format plugin; formatOnType := None |}.
Definition onlyFormatOnType (plugin : LanguageServicePlugin) : LanguageServicePlugin :=
  {| format := None; formatOnType := formatOnType plugin |}.

(** All the regions of a tree, the root first. *)
Fixpoint allRegions (f : VirtualFile) : list VirtualFile :=
  f :: flat_map allRegions (embeddedFiles f).

(** What a computation can end with, whatever the world it runs in: [Q]
    holds of the value it returns and [P] of the error it throws. *)
Definition ends {A} (Q : A → Prop) (P : string → Prop) (m : M A) : Prop :=
  ∀ w, match (m w).1 with
       | Returns a => Q a
       | Throws err => P err
       | OutOfFuel => True
       end.

(** What the level loop keeps of the working document of a request on
    [document0]: its URI and language; it is [document0] itself as long as
    [edited] is unset, and has a later version once [edited] is set. *)
Definition workingInv (document0 : TextDocument) (locals : LoopLocals) : Prop :=
  uri (document locals) = uri document0
  ∧ languageId (document locals) = languageId document0
  ∧ if edited locals then version document0 < version (document locals)
    else document locals = document0.

Module Example_overlap.
(** A plugin that answers with the same edit twice. *)
Definition twice : LanguageServicePlugin :=
  {| format := Some (fun _ _ _ =>
                       Normal (Some [Example_request.rename; Example_request.rename]));
     formatOnType := None |}.
Definition ctx : LanguageServicePluginContext :=
  exampleContext (fun _ => Some Example_request.doc) [twice].
End Example_overlap.

Module Example_declined.
(** The example request with a single plugin, which throws. *)
Definition ctx : LanguageServicePluginContext :=
  exampleContext (fun _ => Some Example_request.doc) [Example_dispatch.faulty].
End Example_declined.

(** The overlay and the working document of a request on [document0] started
    in [w0]: the sources are those of [w0] as long as [edited] is unset, and
    once it is set they are those with the text of the working document as
    the snapshot of the file of the document. *)
Definition overlayInv (ctx : LanguageServicePluginContext) (document0 : TextDocument)
    (w0 : World) (locals : LoopLocals) (w : World) : Prop :=
  uri (document locals) = uri document0
  ∧ sourceFiles w
    = if edited locals
      then alter (withSnapshot (stringToSnapshot (TextDoc.getText (document locals))))
             (uriToFileName ctx (uri document0)) (sourceFiles w0)
      else sourceFiles w0.

(** The map a turn of the loop over the embedded files works with: the first
    map of the file that is against the working document (lines 55 to 56),
    with its identity. *)
Definition mapFor (document : TextDocument) (embedded : VirtualFile) (w : World) :
    option (nat * MapEntry) :=
  List.find (fun e : nat * MapEntry =>
               bool_decide (uri (sourceFileDocument e.2.2) = uri document))
    (filter (fun e : nat * MapEntry => fileName (e.2.1) = fileName embedded)
       (imap (fun i e => (i, e)) (maps w))).

Module Example_stray.
(** An edit of the virtual document outside the generated range of the one
    mapping of the map. *)
Definition stray : TextEdit :=
  {| range := {| start := {| line := 3; character := 0 |};
                 end_ := {| line := 3; character := 1 |} |};
     newText := "w" |}.
(** A plugin that answers with an edit inside the mapping and one outside. *)
Definition strayer : LanguageServicePlugin :=
  {| format := Some (fun _ _ _ => Normal (Some [Example_request.rename; stray]));
     formatOnType := None |}.
Definition ctx : LanguageServicePluginContext :=
  exampleContext (fun _ => Some Example_request.doc) [strayer].
Definition world : World :=
  {| sourceFiles := {[ "a.vue" := {| snapshot := Example_request.text;
                                     root := Example_request.tree |} ]};
     maps := [(Example_request.script, Example_request.mapOf [Example_request.m1])];
     console := []; levelQueries := [] |}.
(** The edit of the plugin inside the mapping, in the outer document. *)
Definition translated : TextEdit :=
  {| range := {| start := {| line := 1; character := 0 |};
                 end_ := {| line := 1; character := 1 |} |};
     newText := "z" |}.
End Example_stray.

(* ================================================================== *)
(** * Properties *)
(* ================================================================== *)

(** ** The primitives on small inputs *)

Example substring_swaps_its_bounds : Js.substring "abcdef" 4 2 = "cd".
Proof. reflexivity. Qed.

Example substring_clamps_its_bounds : Js.substring "abcdef" 2 100 = "cdef".
Proof. reflexivity. Qed.

Example split_keeps_empty_lines :
  Js.split ("a" +:+ Js.nl +:+ Js.nl +:+ "b" +:+ Js.nl) Js.LF = ["a"; ""; "b"; ""].
Proof. reflexivity. Qed.

Example split_of_the_empty_string : Js.split "" Js.LF = [""].
Proof. reflexivity. Qed.

Example trimStart_drops_leading_white_space :
  Js.trimStart (" " +:+ Js.tab +:+ Js.nl +:+ "x y ") = "x y ".
Proof. reflexivity. Qed.

Example line_offsets_of_mixed_line_breaks :
  TextDoc.getLineOffsets
    (TextDoc.create "u" "l" 1
       ("ab" +:+ Js.nl +:+ "cd" +:+ String Js.CR (String Js.LF "") +:+ "e"))
  = [0; 3; 7].
Proof. reflexivity. Qed.

Example applyEdits_sorts_the_edits :
  TextEdits.applyEdits Example_dispatch.doc
    [ {| range := {| start := {| line := 0; character := 5 |};
                     end_ := {| line := 0; character := 6 |} |}; newText := "y" |};
      Example_dispatch.edit ]
  = Normal "let y".
Proof. reflexivity. Qed.

Example applyEdits_rejects_overlapping_edits :
  TextEdits.applyEdits Example_dispatch.doc
    [ Example_dispatch.edit;
      {| range := {| start := {| line := 0; character := 4 |};
                     end_ := {| line := 0; character := 6 |} |}; newText := "y" |} ]
  = Throw "Overlapping edit".
Proof. reflexivity. Qed.

Example stableSort_keeps_ties_in_order :
  stableSort (fun a b : nat * nat => (Z.of_nat a.1 - Z.of_nat b.1)%Z)
    [(3, 0); (1, 1); (3, 2); (1, 3); (2, 4)]
  = [(1, 1); (1, 3); (2, 4); (3, 0); (3, 2)].
Proof. reflexivity. Qed.

Example levels_of_the_example_tree :
  (fun l => fileName <$> getEmbeddedFilesByLevel Example_tree.tree l) <$> [0; 1; 2; 3]
  = [["a.vue"]; ["a.vue.ts"; "a.vue.css"]; ["a.vue.ts.html"]; []]
  ∧ depth Example_tree.tree = 2.
Proof. split; reflexivity. Qed.

Example dispatch_skips_a_plugin_that_throws :
  tryFormat (exampleContext (fun _ => None) [Example_dispatch.faulty; Example_dispatch.fixer])
    Example_dispatch.options Example_dispatch.doc (IsRange Example_dispatch.whole) None
    emptyWorld
  = (Returns (Some [Example_dispatch.edit]), logged emptyWorld ["boom"]).
Proof. reflexivity. Qed.

(** ** Lines of a string *)

Lemma split_length s c : length (Js.split s c) = S (countChar c s).
Proof.
  induction s as [|a r IH]; simpl; [done|].
  case_bool_decide; simpl; [by rewrite IH|].
  destruct (Js.split r c) eqn:E; simpl in *; lia.
Qed.

Lemma countChar_app c s t : countChar c (s +:+ t) = countChar c s + countChar c t.
Proof. induction s as [|a r IH]; simpl; [done|]. rewrite IH. lia. Qed.

Lemma index_none_count c s :
  String.index 0 (String c "") s = None ↔ countChar c s = 0.
Proof.
  induction s as [|a r IH]; simpl; [done|].
  destruct (ascii_dec c a) as [->|Hne].
  - rewrite bool_decide_true by done.
    destruct r; simpl; split; intros; try discriminate; lia.
  - rewrite bool_decide_false by congruence.
    destruct (index 0 (String c "") r); simpl.
    + split; [discriminate|]. intros H. apply IH in H. discriminate.
    + split; [|done]. intros _. by apply IH.
Qed.

(** A text has a line break exactly when it splits into two lines or more. *)
Lemma indexOf_countChar s :
  Js.indexOf s Js.nl ≠ (-1)%Z ↔ 0 < countChar Js.LF s.
Proof.
  unfold Js.indexOf, Js.nl.
  destruct (index 0 _ s) eqn:E.
  - split; [|lia]. intros _.
    destruct (countChar Js.LF s) eqn:C; [|lia].
    apply index_none_count in C. congruence.
  - apply index_none_count in E. split; [done|lia].
Qed.

(** ** The two loops over the lines *)

Section Lines.
Variable prefix : string.

Let step (ls : list string) (i : nat) : list string :=
  match ls !! i with
  | Some l => if bool_decide (l = "") then ls else <[i := prefix +:+ l]> ls
  | None => ls
  end.

Lemma step_lookup ls i k :
  step ls i !! k = interiorLine prefix i 1 k <$> ls !! k.
Proof using Type.
  unfold step, interiorLine.
  destruct (ls !! i) as [l|] eqn:Hi.
  - case_bool_decide as Hl.
    + subst l. destruct (ls !! k) as [l'|] eqn:Hk; simpl; [|done].
      case_bool_decide as Hc; [|done].
      destruct Hc as [Hr Hne]. assert (k = i) by lia. subst k. congruence.
    + destruct (decide (k = i)) as [->|Hne].
      * rewrite list_lookup_insert_eq by (by eapply lookup_lt_Some).
        rewrite Hi. simpl. rewrite bool_decide_true; [done|]. split; [lia|done].
      * rewrite list_lookup_insert_ne by done.
        destruct (ls !! k) as [l'|]; simpl; [|done].
        rewrite bool_decide_false; [done|]. intros [? _]. lia.
  - destruct (ls !! k) as [l'|] eqn:Hk; simpl; [|done].
    rewrite bool_decide_false; [done|]. intros [? _].
    assert (k = i) by lia. congruence.
Qed.

Lemma foldl_step_lookup n : ∀ a ls k,
  foldl step ls (seq a n) !! k = interiorLine prefix a n k <$> ls !! k.
Proof using Type.
  induction n as [|n IH]; intros a ls k; simpl.
  - unfold interiorLine. destruct (ls !! k); simpl; [|done].
    rewrite bool_decide_false; [done|]. intros [? _]. lia.
  - rewrite IH, step_lookup. destruct (ls !! k) as [l|]; simpl; [|done].
    f_equal. unfold interiorLine.
    destruct (decide (k = a)) as [->|Hne].
    + rewrite (bool_decide_false (S a ≤ a < _ ∧ _)) by lia.
      rewrite (bool_decide_ext (a ≤ a < a + 1 ∧ l ≠ "") (a ≤ a < a + S n ∧ l ≠ ""));
        [done|]. split; intros [? ?]; (split; [lia|done]).
    + rewrite (bool_decide_false (a ≤ k < a + 1 ∧ _)) by lia.
      rewrite (bool_decide_ext (S a ≤ k < S a + n ∧ l ≠ "") (a ≤ k < a + S n ∧ l ≠ ""));
        [done|]. split; intros [? ?]; (split; [lia|done]).
Qed.

Lemma indentInterior_lookup lines k :
  indentInterior prefix lines !! k
  = interiorLine prefix 1 (length lines - 2) k <$> lines !! k.
Proof using Type. apply foldl_step_lookup. Qed.

Lemma indentInterior_length lines :
  length (indentInterior prefix lines) = length lines.
Proof using Type.
  apply Nat.le_antisymm.
  - apply Nat.nlt_ge. intros Hlt.
    destruct (lookup_lt_is_Some_2 _ _ Hlt) as [x Hx].
    rewrite indentInterior_lookup in Hx.
    rewrite lookup_ge_None_2 in Hx by lia. discriminate.
  - apply Nat.nlt_ge. intros Hlt.
    destruct (lookup_lt_is_Some_2 _ _ Hlt) as [x Hx].
    pose proof (indentInterior_lookup lines (length (indentInterior prefix lines))) as E.
    rewrite Hx in E. rewrite lookup_ge_None_2 in E by lia. discriminate.
Qed.

Lemma indentLast_lookup lines k :
  indentLast prefix lines !! k
  = (fun l => if bool_decide (k = length lines - 1) then prefix +:+ l else l)
      <$> lines !! k.
Proof using Type.
  unfold indentLast. destruct (lines !! (length lines - 1)) as [l|] eqn:E.
  - destruct (decide (k = length lines - 1)) as [->|Hne].
    + rewrite list_lookup_insert_eq by (by eapply lookup_lt_Some).
      rewrite E. simpl. by rewrite bool_decide_true.
    + rewrite list_lookup_insert_ne by done.
      destruct (lines !! k); simpl; [|done]. by rewrite bool_decide_false.
  - destruct (lines !! k) eqn:Hk; simpl; [|done].
    rewrite bool_decide_false; [done|]. intros ->. congruence.
Qed.

Lemma indentLast_length lines : length (indentLast prefix lines) = length lines.
Proof using Type.
  unfold indentLast. destruct (lines !! _); [|done]. by rewrite length_insert.
Qed.
End Lines.

(** ** The indentation reflow of one mapping *)

Lemma withNewlines_count map_ data i oldText :
  countChar Js.LF oldText ≤ countChar Js.LF (withNewlines map_ data i oldText).
Proof.
  unfold withNewlines.
  repeat match goal with |- context [if ?b then _ else _] => destruct b end;
    rewrite ?countChar_app; simpl; lia.
Qed.

(** The edits of [patchInterpolationIndent] are the edits of its turns, in the
    order of the mappings. *)
Lemma patchInterpolationIndent_turns document map_ initialIndent data :
  patchInterpolationIndent document map_ initialIndent data
  = omap (fun im => patchMapping document map_ initialIndent data im.1 im.2)
         (imap (fun i m => (i, m)) (mappings map_)).
Proof.
  unfold patchInterpolationIndent.
  set (turn := fun im : nat * Mapping =>
                 patchMapping document map_ initialIndent data im.1 im.2).
  assert (G : ∀ (pre suf : list Mapping) (acc : list TextEdit),
             mappings map_ = pre ++ suf →
             foldl (fun indentTextEdits i =>
                      match mappings map_ !! i with
                      | Some mapping =>
                          match patchMapping document map_ initialIndent data i mapping with
                          | Some e => indentTextEdits ++ [e]
                          | None => indentTextEdits
                          end
                      | None => indentTextEdits
                      end) acc (seq (length pre) (length suf))
             = acc ++ omap turn (imap (fun i m => (length pre + i, m)) suf)).
  { intros pre suf. revert pre.
    induction suf as [|m suf IH]; intros pre acc E; simpl.
    - by rewrite app_nil_r.
    - rewrite E at 1. rewrite lookup_app_r by lia.
      rewrite Nat.sub_diag. simpl.
      specialize (IH (pre ++ [m])). rewrite length_app in IH. simpl in IH.
      rewrite Nat.add_1_r in IH. rewrite IH by (by rewrite <- app_assoc).
      unfold turn at 2. simpl. rewrite Nat.add_0_r.
      assert (Hi : imap (fun i m0 => (S (length pre) + i, m0)) suf
                   = imap ((fun i m0 => (length pre + i, m0)) ∘ S) suf).
      { apply imap_ext. intros j x _. simpl. f_equal. lia. }
      simpl in Hi. rewrite Hi.
      destruct (patchMapping document map_ initialIndent data (length pre) m);
        simpl; [by rewrite <- app_assoc | done]. }
  specialize (G [] (mappings map_) [] eq_refl). simpl in G. exact G.
Qed.

(** C7. For a mapping whose outer text has a line break, after the optional
    newline insertions the first line is kept, every interior non-empty line
    is prefixed with the base indent followed by the nested indent, interior
    empty lines are kept, the final line is prefixed with the base indent
    alone, and a replace edit over the source range of the mapping is pushed
    exactly when the resulting text differs from the original; a mapping
    whose text has no line break pushes nothing.  The edits of the whole pass
    are those of its mappings. *)
Theorem C7_reflow_of_a_mapping
    (document : TextDocument) (map_ : SourceMap) (initialIndent : string)
    (data : DocumentFormatting) (i : nat) (mapping : Mapping) :
  let oldText :=
    Js.substring (TextDoc.getText document) (sourceRange mapping).1 (sourceRange mapping).2 in
  let baseIndent := getBaseIndent document (sourceRange mapping).1 in
  let lines := Js.split (withNewlines map_ data i oldText) Js.LF in
  let pushed := patchMapping document map_ initialIndent data i mapping in
  (Js.indexOf oldText Js.nl = (-1)%Z → pushed = None) ∧
  (Js.indexOf oldText Js.nl ≠ (-1)%Z →
   ∃ out : list string,
     2 ≤ length lines ∧ length out = length lines ∧
     out !! 0 = lines !! 0 ∧
     (∀ k l, 0 < k < length lines - 1 → lines !! k = Some l → l ≠ "" →
             out !! k = Some ((baseIndent +:+ initialIndent) +:+ l)) ∧
     (∀ k, 0 < k < length lines - 1 → lines !! k = Some "" → out !! k = Some "") ∧
     (∀ l, lines !! (length lines - 1) = Some l →
           out !! (length lines - 1) = Some (baseIndent +:+ l)) ∧
     pushed =
       (if bool_decide (Js.join out Js.nl ≠ oldText)
        then Some {| range :=
                       {| start := TextDoc.positionAt document (sourceRange mapping).1;
                          end_ := TextDoc.positionAt document (sourceRange mapping).2 |};
                     newText := Js.join out Js.nl |}
        else None)) ∧
  (∀ e, e ∈ patchInterpolationIndent document map_ initialIndent data ↔
        ∃ j m, mappings map_ !! j = Some m ∧
               patchMapping document map_ initialIndent data j m = Some e).
Proof.
  intros oldText baseIndent lines pushed. split; [|split].
  - intros H. unfold pushed, patchMapping. fold oldText.
    by rewrite bool_decide_true.
  - intros H.
    set (inner := indentInterior (baseIndent +:+ initialIndent) lines).
    exists (indentLast baseIndent inner).
    assert (Hlen : 2 ≤ length lines).
    { unfold lines. rewrite split_length.
      pose proof (withNewlines_count map_ data i oldText).
      apply indexOf_countChar in H. lia. }
    assert (Hinner : length inner = length lines) by apply indentInterior_length.
    split; [done|]. split; [by rewrite indentLast_length|].
    split; [|split; [|split; [|split]]].
    + rewrite indentLast_lookup, Hinner. unfold inner.
      rewrite indentInterior_lookup.
      destruct (lines !! 0) as [l|]; simpl; [|done].
      rewrite bool_decide_false by lia. unfold interiorLine.
      rewrite bool_decide_false; [done|]. intros [? _]. lia.
    + intros k l Hk Hl Hne.
      rewrite indentLast_lookup, Hinner. unfold inner.
      rewrite indentInterior_lookup, Hl. simpl.
      rewrite bool_decide_false by lia. unfold interiorLine.
      rewrite bool_decide_true; [done|]. split; [lia|done].
    + intros k Hk Hl.
      rewrite indentLast_lookup, Hinner. unfold inner.
      rewrite indentInterior_lookup, Hl. simpl.
      rewrite bool_decide_false by lia. unfold interiorLine.
      rewrite bool_decide_false; [done|]. intros [_ ?]. done.
    + intros l Hl.
      rewrite indentLast_lookup, Hinner. unfold inner.
      rewrite indentInterior_lookup, Hl. simpl.
      rewrite bool_decide_true by done. unfold interiorLine.
      rewrite bool_decide_false; [done|]. intros [? _]. lia.
    + unfold pushed, patchMapping. fold oldText. fold baseIndent.
      rewrite bool_decide_false by done. reflexivity.
  - intros e. rewrite patchInterpolationIndent_turns, list_elem_of_omap.
    split.
    + intros [[j m] [Hin He]]. apply elem_of_lookup_imap in Hin.
      destruct Hin as (j' & m' & E & Hm). inversion E; subst. eauto.
    + intros (j & m & Hm & He). exists (j, m). split; [|done].
      apply elem_of_lookup_imap. eauto.
Qed.

Lemma C7_reflow_of_a_mapping_witness :
  Js.indexOf
    (Js.substring (TextDoc.getText Example_reflow.outer)
       (sourceRange Example_reflow.mapping).1 (sourceRange Example_reflow.mapping).2)
    Js.nl ≠ (-1)%Z
  ∧ ∃ out : list string,
      length out = 3 ∧
      patchMapping Example_reflow.outer Example_reflow.sourceMap "  "
        (FormattingFlag true) 0 Example_reflow.mapping
      = (if bool_decide (Js.join out Js.nl ≠ Example_reflow.body)
         then Some {| range := {| start := {| line := 0; character := 5 |};
                                  end_ := {| line := 2; character := 1 |} |};
                      newText := Js.join out Js.nl |}
         else None).
Proof.
  assert (H : Js.indexOf
                (Js.substring (TextDoc.getText Example_reflow.outer)
                   (sourceRange Example_reflow.mapping).1
                   (sourceRange Example_reflow.mapping).2)
                Js.nl ≠ (-1)%Z) by (vm_compute; discriminate).
  split; [exact H|].
  destruct (C7_reflow_of_a_mapping Example_reflow.outer Example_reflow.sourceMap "  "
              (FormattingFlag true) 0 Example_reflow.mapping) as (_ & G & _).
  destruct (G H) as (out & _ & Hlen & _ & _ & _ & _ & Hp).
  exists out. split; [exact Hlen | exact Hp].
Defined.

(** ** The reflow example of the specification *)

(** The announced text of the example is not what the code produces: on the
    example document the single mapping is patched to the text whose middle
    line carries six spaces. *)
Lemma C3_reflow_example_counterexample :
  getBaseIndent Example_reflow.outer (sourceRange Example_reflow.mapping).1 = "  "
  ∧ Js.substring (TextDoc.getText Example_reflow.outer)
      (sourceRange Example_reflow.mapping).1 (sourceRange Example_reflow.mapping).2
    = Example_reflow.body
  ∧ patchInterpolationIndent Example_reflow.outer Example_reflow.sourceMap "  "
      (FormattingFlag true)
    = [{| range := {| start := {| line := 0; character := 5 |};
                      end_ := {| line := 2; character := 1 |} |};
          newText := Example_reflow.produced |}]
  ∧ Example_reflow.produced ≠ Example_reflow.announced.
Proof. vm_compute. repeat split; discriminate. Qed.

(** C3, amended. For a mapping whose outer line indent is two spaces, with no
    newline insertion applying, when the outer text at the source range is
    the three-line function body: with a nested indent of two spaces the
    reflow pushes a replace edit over the source range whose text is
    [function f() {], then [return 1;] behind six spaces (the two of the
    line, the two of the nested indent and its own two), then the closing
    brace behind two spaces; the text announced by the specification, with
    [return 1;] behind four spaces, is what the reflow pushes when the nested
    indent is empty. *)
Theorem C3_reflow_example
    (document : TextDocument) (map_ : SourceMap) (data : DocumentFormatting)
    (i : nat) (mapping : Mapping) :
  getBaseIndent document (sourceRange mapping).1 = "  " →
  Js.substring (TextDoc.getText document) (sourceRange mapping).1 (sourceRange mapping).2
    = Example_reflow.body →
  withNewlines map_ data i Example_reflow.body = Example_reflow.body →
  patchMapping document map_ "  " data i mapping
  = Some {| range := {| start := TextDoc.positionAt document (sourceRange mapping).1;
                        end_ := TextDoc.positionAt document (sourceRange mapping).2 |};
            newText := Example_reflow.produced |}
  ∧ patchMapping document map_ "" data i mapping
    = Some {| range := {| start := TextDoc.positionAt document (sourceRange mapping).1;
                          end_ := TextDoc.positionAt document (sourceRange mapping).2 |};
              newText := Example_reflow.announced |}.
Proof.
  intros Hindent Htext Hnl. unfold patchMapping.
  rewrite Hindent, Htext.
  rewrite bool_decide_false by (vm_compute; discriminate).
  unfold reflowText. rewrite Hnl.
  assert (E : ∀ nested,
            Js.join
              (indentLast "  "
                 (indentInterior ("  " +:+ nested) (Js.split Example_reflow.body Js.LF)))
              Js.nl
            = "function f() {" +:+ Js.nl +:+ (("  " +:+ nested) +:+ "  return 1;")
              +:+ Js.nl +:+ "  }").
  { intros nested. unfold indentInterior, indentLast. simpl. reflexivity. }
  rewrite !E. split.
  - rewrite bool_decide_true by (vm_compute; discriminate). reflexivity.
  - rewrite bool_decide_true by (vm_compute; discriminate). reflexivity.
Qed.

Lemma C3_reflow_example_witness :
  patchMapping Example_reflow.outer Example_reflow.sourceMap "  " (FormattingFlag true)
    0 Example_reflow.mapping
  = Some {| range :=
              {| start := TextDoc.positionAt Example_reflow.outer
                            (sourceRange Example_reflow.mapping).1;
                 end_ := TextDoc.positionAt Example_reflow.outer
                           (sourceRange Example_reflow.mapping).2 |};
            newText := Example_reflow.produced |}
  ∧ patchMapping Example_reflow.outer Example_reflow.sourceMap "" (FormattingFlag true)
      0 Example_reflow.mapping
    = Some {| range :=
                {| start := TextDoc.positionAt Example_reflow.outer
                              (sourceRange Example_reflow.mapping).1;
                   end_ := TextDoc.positionAt Example_reflow.outer
                             (sourceRange Example_reflow.mapping).2 |};
              newText := Example_reflow.announced |}.
Proof.
  apply (C3_reflow_example Example_reflow.outer Example_reflow.sourceMap
           (FormattingFlag true) 0 Example_reflow.mapping);
    vm_compute; reflexivity.
Defined.

(** ** Dispatch over the plugins *)

Lemma logged_nil w : logged w [] = w.
Proof. destruct w. unfold logged. simpl. by rewrite app_nil_r. Qed.

Lemma logged_app w l1 l2 : logged (logged w l1) l2 = logged w (l1 ++ l2).
Proof. unfold logged. simpl. by rewrite app_assoc. Qed.

Lemma thrownBy_cons options document target ch p ps :
  thrownBy options document target ch (p :: ps)
  = match callPlugin options p document target ch with
    | Throw err => err :: thrownBy options document target ch ps
    | Normal _ => thrownBy options document target ch ps
    end.
Proof.
  unfold thrownBy. cbn [omap list_omap].
  destruct (callPlugin options p document target ch); reflexivity.
Qed.

Lemma tryFormatFrom_spec options document target ch ps w :
  (∃ pre plugin post es,
      ps = pre ++ plugin :: post ∧
      Forall (noResult options document target ch) pre ∧
      callPlugin options plugin document target ch = Normal (Some es) ∧
      tryFormatFrom options ps document target ch w
      = (Returns (Some es), logged w (thrownBy options document target ch pre)))
  ∨ (Forall (noResult options document target ch) ps ∧
     tryFormatFrom options ps document target ch w
     = (Returns None, logged w (thrownBy options document target ch ps))).
Proof.
  revert w. induction ps as [|p ps IH]; intros w.
  - right. split; [constructor|]. simpl. by rewrite logged_nil.
  - rewrite thrownBy_cons. cbn [tryFormatFrom]. unfold bind.
    destruct (callPlugin options p document target ch) as [[es|]|err] eqn:E.
    + left. exists [], p, ps, es. simpl. rewrite logged_nil.
      split; [done|]. split; [constructor|]. split; [done|]. reflexivity.
    + simpl.
      destruct (IH w) as [(pre & q & post & es & -> & Hpre & Hq & Hrun)|[Hall Hrun]].
      * left. exists (p :: pre), q, post, es.
        split; [done|]. split; [|split; [done|]].
        -- constructor; [|done]. unfold noResult. by rewrite E.
        -- by rewrite Hrun, thrownBy_cons, E.
      * right. split.
        -- constructor; [|done]. unfold noResult. by rewrite E.
        -- by rewrite Hrun.
    + simpl. fold (logged w [err]).
      destruct (IH (logged w [err]))
        as [(pre & q & post & es & -> & Hpre & Hq & Hrun)|[Hall Hrun]].
      * left. exists (p :: pre), q, post, es.
        split; [done|]. split; [|split; [done|]].
        -- constructor; [|done]. unfold noResult. by rewrite E.
        -- by rewrite Hrun, logged_app, thrownBy_cons, E.
      * right. split.
        -- constructor; [|done]. unfold noResult. by rewrite E.
        -- by rewrite Hrun, logged_app.
Qed.

(** A dispatch never throws and touches nothing but the console. *)
Lemma tryFormat_returns ctx options document target ch w :
  ∃ r log, tryFormat ctx options document target ch w = (Returns r, logged w log).
Proof.
  unfold tryFormat.
  destruct (tryFormatFrom_spec options document target ch (plugins ctx) w)
    as [(pre & q & post & es & _ & _ & _ & Hrun)|[_ Hrun]]; rewrite Hrun; eauto.
Qed.

(** An empty list is a result: the plugin that answers with it ends the
    dispatch, and the non-empty answer of the next plugin is not used. *)
Lemma C4_dispatch_counterexample :
  (tryFormat Example_dispatch.ctx Example_dispatch.options Example_dispatch.doc
     (IsRange Example_dispatch.whole) None emptyWorld).1
  = Returns (Some [])
  ∧ firstNonEmpty Example_dispatch.options Example_dispatch.doc
      (IsRange Example_dispatch.whole) None (plugins Example_dispatch.ctx)
    = Some [Example_dispatch.edit].
Proof. split; reflexivity. Qed.

(** C4, amended. A dispatch tries the plugins in registration order.  A
    plugin that throws is logged on the console and skipped, like a plugin
    without opinion; the dispatch itself never throws.  The result is that of
    exactly one plugin, the first that returns an edit list, be it empty,
    and it is returned as that plugin gave it; when no plugin returns a list
    the result is absent. *)
Theorem C4_dispatch
    (ctx : LanguageServicePluginContext) (options : FormattingOptions)
    (document : TextDocument) (target : RangeOrPosition) (ch : option string) (w : World) :
  (∃ pre plugin post es,
      plugins ctx = pre ++ plugin :: post ∧
      Forall (noResult options document target ch) pre ∧
      callPlugin options plugin document target ch = Normal (Some es) ∧
      tryFormat ctx options document target ch w
      = (Returns (Some es), logged w (thrownBy options document target ch pre)))
  ∨ (Forall (noResult options document target ch) (plugins ctx) ∧
     tryFormat ctx options document target ch w
     = (Returns None, logged w (thrownBy options document target ch (plugins ctx)))).
Proof.
  unfold tryFormat.
  destruct (tryFormatFrom_spec options document target ch (plugins ctx) w)
    as [(pre & plugin & post & es & Hsplit & Hpre & Hcall & Hrun)|[Hall Hrun]].
  - left. exists pre, plugin, post, es. repeat split; assumption.
  - right. split; assumption.
Qed.

(** ** One embedded file of a level *)

Lemma sameSources_refl w : sameSources w w.
Proof. by split. Qed.

Lemma sameSources_trans w1 w2 w3 :
  sameSources w1 w2 → sameSources w2 w3 → sameSources w1 w3.
Proof. intros [? ?] [? ?]. split; congruence. Qed.

Lemma sameSources_logged w log : sameSources w (logged w log).
Proof. by split. Qed.

Lemma found_lookup (w : World) (name : string) (P : nat * MapEntry → bool)
    (ref : nat) (entry : MapEntry) :
  List.find P (filter (fun e : nat * MapEntry => fileName (e.2.1) = name)
                 (imap (fun i e => (i, e)) (maps w))) = Some (ref, entry) →
  maps w !! ref = Some entry.
Proof.
  intros H. apply find_some in H as [Hin _].
  apply list_elem_of_In, list_elem_of_filter in Hin as [_ Hin].
  apply elem_of_lookup_imap in Hin as (i & e & E & Hl). by inversion E; subst.
Qed.

Lemma sortMappings_returns ref cmp w :
  ∃ sorted w', sortMappings ref cmp w = (Returns sorted, w') ∧ sameSources w w'.
Proof.
  unfold sortMappings. destruct (maps w !! ref) as [[file m]|].
  - eexists _, _. split; [reflexivity|]. by split.
  - eexists _, _. split; [reflexivity|]. by split.
Qed.

Lemma virtualCodeRangeOf_returns ctx range_ document ref m w :
  ∃ vr m' w',
    virtualCodeRangeOf ctx range_ document ref m w = (Returns (vr, m'), w')
    ∧ sameSources w w'.
Proof.
  unfold virtualCodeRangeOf. destruct (toGeneratedRange ctx m range_).
  - eexists _, _, _. split; [reflexivity|]. apply sameSources_refl.
  - unfold bind.
    destruct (sortMappings_returns ref bySourceStart w) as (s1 & w1 & -> & H1).
    destruct (sortMappings_returns ref bySourceStartDesc w1) as (s2 & w2 & -> & H2).
    unfold readMap, ret. eexists _, _, _. split; [reflexivity|].
    by eapply sameSources_trans.
Qed.

Lemma bind_run {A B} (m : M A) (k : A → M B) (w : World) :
  bind m k w
  = match m w with
    | (Returns a, w') => k a w'
    | (Throws e, w') => (Throws e, w')
    | (OutOfFuel, w') => (OutOfFuel, w')
    end.
Proof. reflexivity. Qed.

Lemma pushTranslated_omap ctx m virtualCodeEdits acc :
  pushTranslated ctx m virtualCodeEdits acc = acc ++ omap (translateEdit ctx m) virtualCodeEdits.
Proof.
  unfold pushTranslated. revert acc.
  induction virtualCodeEdits as [|e es IH]; intros acc.
  - simpl. by rewrite app_nil_r.
  - cbn [foldl omap list_omap]. rewrite IH. unfold translateEdit at 2.
    destruct (toSourceRange ctx m (range e)); [by rewrite <- app_assoc | done].
Qed.

(** A turn of the loop over the embedded files never throws; it leaves the
    sources alone and extends [edits] by the translated edits of one
    dispatch, or by nothing. *)
Lemma formatEmbedded_returns ctx options range_ onTypeParams document locals embedded w :
  ∃ locals' w',
    formatEmbedded ctx options range_ onTypeParams document locals embedded w
    = (Returns locals', w')
    ∧ sameSources w w'
    ∧ (edits locals' = edits locals
       ∨ ∃ m es, edits locals' = edits locals ++ omap (translateEdit ctx m) es).
Proof.
  unfold formatEmbedded.
  destruct (negb (truthy (documentFormatting (capabilities embedded)))).
  { eexists _, _. split; [reflexivity|]. split; [apply sameSources_refl | by left]. }
  unfold bind at 1. unfold getMapsByVirtualFileName at 1.
  destruct (List.find _ _) as [[ref [file m]]|].
  2:{ eexists _, _. split; [reflexivity|]. split; [apply sameSources_refl | by left]. }
  destruct onTypeParams as [params|].
  - destruct (toGeneratedPosition ctx m (position params)) as [p|].
    + unfold bind.
      destruct (tryFormat_returns ctx options (virtualFileDocument m) (IsPosition p)
                  (Some (ch params)) w) as (r & log & ->).
      unfold ret. destruct r as [es|].
      * eexists _, _. split; [reflexivity|]. split; [apply sameSources_logged|].
        right. exists m, es. simpl. apply pushTranslated_omap.
      * eexists _, _. split; [reflexivity|]. split; [apply sameSources_logged | by left].
    + unfold bind, ret. eexists _, _. split; [reflexivity|].
      split; [apply sameSources_refl | by left].
  - unfold bind.
    destruct (virtualCodeRangeOf_returns ctx range_ document ref m w)
      as (vr & m' & w1 & -> & H1).
    destruct vr as [r|].
    + destruct (tryFormat_returns ctx options (virtualFileDocument m') (IsRange r) None w1)
        as (res & log & ->).
      unfold ret. destruct res as [es|].
      * eexists _, _. split; [reflexivity|].
        split; [eapply sameSources_trans; [done | apply sameSources_logged]|].
        right. exists m', es. simpl. apply pushTranslated_omap.
      * eexists _, _. split; [reflexivity|].
        split; [eapply sameSources_trans; [done | apply sameSources_logged] | by left].
    + unfold ret. eexists _, _. split; [reflexivity|]. split; [done | by left].
Qed.

(** C8. The edits a provider returned for an embedded region are pushed onto
    the batch in their order, each with its range translated to the outer
    document; an edit whose range does not translate is dropped and every
    edit that translates is in the batch.  This is what a turn of the loop
    over the embedded files does with the edits the dispatch returned for the
    map of the region, in a range request (the map being as the range lookup
    left it) and in an on-type request.  Nothing throws: the loop over the
    embedded files of a level always returns, and its batch, the one the
    level applies, still starts with the batch it was given. *)
Theorem C8_untranslatable_edits_dropped
    (ctx : LanguageServicePluginContext) (m : SourceMapWithDocuments)
    (virtualCodeEdits : list TextEdit) (batch : list TextEdit) :
  pushTranslated ctx m virtualCodeEdits batch
    = batch ++ omap (translateEdit ctx m) virtualCodeEdits
  ∧ (∀ e', e' ∈ pushTranslated ctx m virtualCodeEdits batch ↔
           e' ∈ batch ∨
           ∃ e r, e ∈ virtualCodeEdits ∧ toSourceRange ctx m (range e) = Some r ∧
                  e' = {| range := r; newText := newText e |})
  ∧ length (pushTranslated ctx m virtualCodeEdits batch)
    = length batch
      + length (filter (fun e => is_Some (toSourceRange ctx m (range e))) virtualCodeEdits)
  ∧ (∀ options range_ document locals embedded w ref file m0 r w1 w2,
       truthy (documentFormatting (capabilities embedded)) = true →
       mapFor document embedded w = Some (ref, (file, m0)) →
       virtualCodeRangeOf ctx range_ document ref m0 w = (Returns (Some r, m), w1) →
       tryFormat ctx options (virtualFileDocument m) (IsRange r) None w1
       = (Returns (Some virtualCodeEdits), w2) →
       formatEmbedded ctx options range_ None document locals embedded w
       = (Returns {| edits := pushTranslated ctx m virtualCodeEdits (edits locals);
                     toPatchIndentUris :=
                       toPatchIndentUris locals ++ [uri (virtualFileDocument m)] |},
          w2))
  ∧ (∀ options range_ params document locals embedded w ref file p w1,
       truthy (documentFormatting (capabilities embedded)) = true →
       mapFor document embedded w = Some (ref, (file, m)) →
       toGeneratedPosition ctx m (position params) = Some p →
       tryFormat ctx options (virtualFileDocument m) (IsPosition p) (Some (ch params)) w
       = (Returns (Some virtualCodeEdits), w1) →
       formatEmbedded ctx options range_ (Some params) document locals embedded w
       = (Returns {| edits := pushTranslated ctx m virtualCodeEdits (edits locals);
                     toPatchIndentUris := toPatchIndentUris locals |},
          w1))
  ∧ (∀ options range_ onTypeParams document files locals w,
       ∃ lv w',
         forOf files (formatEmbedded ctx options range_ onTypeParams document) locals w
         = (Returns lv, w')
         ∧ edits locals `prefix_of` edits lv).
Proof.
  split; [apply pushTranslated_omap|]. split; [|split; [|split; [|split]]].
  - intros e'. rewrite pushTranslated_omap, elem_of_app, list_elem_of_omap.
    split; (intros [H|H]; [by left|right]).
    + destruct H as (e & Hin & He). unfold translateEdit in He.
      destruct (toSourceRange ctx m (range e)) as [r|] eqn:E; [|done].
      exists e, r. by inversion He.
    + destruct H as (e & r & Hin & Hr & ->). exists e. split; [done|].
      unfold translateEdit. by rewrite Hr.
  - rewrite pushTranslated_omap, length_app. f_equal.
    induction virtualCodeEdits as [|e es IH]; [done|].
    cbn [omap list_omap]. rewrite filter_cons. unfold translateEdit at 1.
    destruct (toSourceRange ctx m (range e)) as [r|] eqn:E.
    + rewrite decide_True by eauto. simpl. by rewrite IH.
    + rewrite decide_False by (by intros [? ?]). done.
  - intros options range_ document locals embedded w ref file m0 r w1 w2
      Hcap Hmap Hrange Hrun.
    unfold formatEmbedded. rewrite Hcap. cbn [negb].
    rewrite bind_run. unfold getMapsByVirtualFileName at 1. cbv beta.
    unfold mapFor in Hmap. rewrite Hmap.
    rewrite !bind_run, Hrange, bind_run, Hrun. reflexivity.
  - intros options range_ params document locals embedded w ref file p w1
      Hcap Hmap Hpos Hrun.
    unfold formatEmbedded. rewrite Hcap. cbn [negb].
    rewrite bind_run. unfold getMapsByVirtualFileName at 1. cbv beta.
    unfold mapFor in Hmap. rewrite Hmap, Hpos.
    rewrite !bind_run, Hrun. cbn [ret]. by rewrite app_nil_r.
  - intros options range_ onTypeParams document files.
    induction files as [|f files IH]; intros locals w.
    + by exists locals, w.
    + cbn [forOf]. rewrite bind_run.
      destruct (formatEmbedded_returns ctx options range_ onTypeParams document locals f w)
        as (l1 & w1 & -> & _ & Hl).
      destruct (IH l1 w1) as (lv & w' & -> & Hpre).
      exists lv, w'. split; [done|]. etrans; [|exact Hpre].
      destruct Hl as [->|(m' & es & ->)]; [done | by apply prefix_app_r].
Qed.

Lemma C8_untranslatable_edits_dropped_witness :
  (∃ w',
     formatEmbedded Example_stray.ctx Example_request.options Example_request.whole None
       Example_request.doc {| edits := []; toPatchIndentUris := [] |}
       Example_request.script Example_stray.world
     = (Returns {| edits :=
                     pushTranslated Example_stray.ctx
                       (Example_request.mapOf [Example_request.m1])
                       [Example_request.rename; Example_stray.stray] [];
                   toPatchIndentUris := [] ++ ["a.vue.ts"] |}, w'))
  ∧ pushTranslated Example_stray.ctx (Example_request.mapOf [Example_request.m1])
      [Example_request.rename; Example_stray.stray] []
    = [Example_stray.translated].
Proof.
  pose proof (C8_untranslatable_edits_dropped Example_stray.ctx (Example_request.mapOf [Example_request.m1])
                [Example_request.rename; Example_stray.stray] [])
    as (Hpush & _ & _ & Hturn & _).
  split; [|rewrite Hpush; vm_compute; reflexivity].
  set (r := {| start := {| line := 0; character := 0 |};
               end_ := {| line := 2; character := 1 |} |}).
  set (w1 := (virtualCodeRangeOf Example_stray.ctx Example_request.whole
                Example_request.doc 0 (Example_request.mapOf [Example_request.m1])
                Example_stray.world).2).
  set (w2 := (tryFormat Example_stray.ctx Example_request.options
                Example_request.virtualDoc (IsRange r) None w1).2).
  assert (H1 : truthy (documentFormatting (capabilities Example_request.script)) = true)
    by reflexivity.
  assert (H2 : mapFor Example_request.doc Example_request.script Example_stray.world
               = Some (0, (Example_request.script,
                           Example_request.mapOf [Example_request.m1])))
    by (vm_compute; reflexivity).
  assert (H3 : virtualCodeRangeOf Example_stray.ctx Example_request.whole
                 Example_request.doc 0 (Example_request.mapOf [Example_request.m1])
                 Example_stray.world
               = (Returns (Some r, Example_request.mapOf [Example_request.m1]), w1))
    by (vm_compute; reflexivity).
  assert (H4 : tryFormat Example_stray.ctx Example_request.options
                 (virtualFileDocument (Example_request.mapOf [Example_request.m1]))
                 (IsRange r) None w1
               = (Returns (Some [Example_request.rename; Example_stray.stray]), w2))
    by (vm_compute; reflexivity).
  exists w2.
  exact (Hturn Example_request.options Example_request.whole Example_request.doc
           {| edits := []; toPatchIndentUris := [] |} Example_request.script
           Example_stray.world 0 Example_request.script
           (Example_request.mapOf [Example_request.m1]) r w1 w2 H1 H2 H3 H4).
Defined.

(** ** Reasoning about computations *)

Lemma wp_ret {A} (a : A) w (Q : A → World → Prop) E : Q a w → wp (ret a) w Q E.
Proof. done. Qed.

Lemma wp_bind {A B} (m : M A) (k : A → M B) w (Q : B → World → Prop) E :
  wp m w (fun a w' => wp (k a) w' Q E) E → wp (bind m k) w Q E.
Proof. unfold wp, bind. by destruct (m w) as [[a|err|] w']. Qed.

Lemma wp_mono {A} (m : M A) w (Q Q' : A → World → Prop) (E E' : World → Prop) :
  wp m w Q E → (∀ a w', Q a w' → Q' a w') → (∀ w', E w' → E' w') → wp m w Q' E'.
Proof. unfold wp. destruct (m w) as [[a|err|] w']; auto. Qed.

(** A loop keeps an invariant that each of its turns keeps. *)
Lemma wp_forOf {A L} (xs : list A) (body : L → A → M L)
    (I : L → World → Prop) (E : World → Prop) :
  (∀ acc x w, I acc w → wp (body acc x) w I E) →
  ∀ acc w, I acc w → wp (forOf xs body acc) w I E.
Proof.
  intros Hbody. induction xs as [|x xs IH]; intros acc w HI; simpl.
  - by apply wp_ret.
  - apply wp_bind. eapply wp_mono; [by apply Hbody | | done].
    intros acc' w' HI'. by apply IH.
Qed.

(** ** The levels of the embedding tree *)

Lemma nextLevelOf_flat_map files : nextLevelOf files = flat_map embeddedFiles files.
Proof.
  unfold nextLevelOf.
  assert (G : ∀ acc, foldl (fun nextLevel file => nextLevel ++ embeddedFiles file) acc files
                     = acc ++ flat_map embeddedFiles files).
  { induction files as [|f fs IH]; intros acc; simpl.
    - by rewrite app_nil_r.
    - by rewrite IH, app_assoc. }
  apply (G []).
Qed.

Lemma flat_map_flat_map {A B C} (f : A → list B) (g : B → list C) (l : list A) :
  flat_map g (flat_map f l) = flat_map (fun a => flat_map g (f a)) l.
Proof.
  induction l as [|a l IH]; simpl; [done|].
  by rewrite flat_map_app, IH.
Qed.

(** The embedded files of the regions at depth [n] are the regions at depth
    [n] of the embedded files. *)
Lemma regionsAtDepth_shift n : ∀ f,
  flat_map embeddedFiles (regionsAtDepth n f)
  = flat_map (regionsAtDepth n) (embeddedFiles f).
Proof.
  induction n as [|n IH]; intros f.
  - simpl. rewrite app_nil_r.
    induction (embeddedFiles f) as [|c cs IHc]; simpl; [done|]. by rewrite <- IHc.
  - cbn [regionsAtDepth]. rewrite flat_map_flat_map.
    apply flat_map_ext. intros c. apply IH.
Qed.

Lemma levelList_regionsAtDepth rootFile n :
  levelList rootFile n = regionsAtDepth n rootFile.
Proof.
  induction n as [|n IH]; [done|].
  cbn [levelList]. rewrite nextLevelOf_flat_map, IH.
  apply regionsAtDepth_shift.
Qed.

(** The loop of the level query returns after at most [level + 1] turns. *)
Lemma levelsLoop_total rootFile level : ∀ fuel k,
  k ≤ level → level - k < fuel →
  levelsLoop fuel level (levelList rootFile <$> seq 0 (S k))
  = Some (levelList rootFile level).
Proof.
  induction fuel as [|fuel IH]; intros k Hk Hfuel; [lia|].
  cbn [levelsLoop]. rewrite length_fmap, length_seq.
  destruct (level <? S k) eqn:E.
  - apply Nat.ltb_lt in E. assert (level = k) as -> by lia.
    rewrite list_lookup_fmap, lookup_seq_lt by lia. done.
  - apply Nat.ltb_ge in E.
    replace (S k - 1) with k by lia.
    rewrite list_lookup_fmap, lookup_seq_lt by lia.
    change (default [] (levelList rootFile <$> Some (0 + k))) with (levelList rootFile k).
    replace ((levelList rootFile <$> seq 0 (S k)) ++ [nextLevelOf (levelList rootFile k)])
      with (levelList rootFile <$> seq 0 (S (S k))).
    + apply IH; lia.
    + rewrite (seq_S (S k)), fmap_app. done.
Qed.

Lemma getEmbeddedFilesByLevel_regionsAtDepth rootFile level :
  getEmbeddedFilesByLevel rootFile level = regionsAtDepth level rootFile.
Proof.
  unfold getEmbeddedFilesByLevel.
  change [[rootFile]] with (levelList rootFile <$> seq 0 1).
  rewrite (levelsLoop_total rootFile level (S level) 0) by lia.
  apply levelList_regionsAtDepth.
Qed.

Lemma depth_unfold f :
  depth f = foldr (fun c acc => Nat.max (S (depth c)) acc) 0 (embeddedFiles f).
Proof. by destruct f. Qed.

Lemma foldr_max_le (g : VirtualFile → nat) (cs : list VirtualFile) (n : nat) :
  S n ≤ foldr (fun c acc => Nat.max (S (g c)) acc) 0 cs ↔ ∃ c, c ∈ cs ∧ n ≤ g c.
Proof.
  induction cs as [|c cs IH]; simpl.
  - split; [lia|]. intros (c & Hc & _). by apply elem_of_nil in Hc.
  - rewrite Nat.max_le_iff, IH. split.
    + intros [H|(c' & Hc' & H)].
      * exists c. split; [left|lia].
      * exists c'. split; [by right|done].
    + intros (c' & Hc' & H). apply elem_of_cons in Hc' as [->|Hc'].
      * left. lia.
      * right. eauto.
Qed.

(** A level is empty exactly when it lies below the deepest region. *)
Lemma regionsAtDepth_empty l : ∀ f, regionsAtDepth l f = [] ↔ depth f < l.
Proof.
  induction l as [|l IH]; intros f.
  - simpl. split; [done|lia].
  - cbn [regionsAtDepth]. rewrite depth_unfold. split.
    + intros H. apply Nat.nle_gt. intros Hle.
      apply foldr_max_le in Hle as (c & Hc & Hd).
      assert (regionsAtDepth l c = []) as Hnil.
      { apply list_elem_of_In in Hc.
        destruct (regionsAtDepth l c) as [|x xs] eqn:Ec; [done|].
        assert (In x (flat_map (regionsAtDepth l) (embeddedFiles f))) as Hx.
        { apply in_flat_map. exists c. split; [done|]. rewrite Ec. by left. }
        rewrite H in Hx. done. }
      apply IH in Hnil. lia.
    + intros H.
      destruct (flat_map (regionsAtDepth l) (embeddedFiles f)) as [|x xs] eqn:E; [done|].
      exfalso.
      assert (In x (flat_map (regionsAtDepth l) (embeddedFiles f))) as Hx
        by (rewrite E; by left).
      apply in_flat_map in Hx as (c & Hc & Hx).
      assert (¬ depth c < l) as Hc'.
      { intros Hlt. apply IH in Hlt. rewrite Hlt in Hx. done. }
      assert (S l ≤ foldr (fun c acc => Nat.max (S (depth c)) acc) 0 (embeddedFiles f)).
      { apply foldr_max_le. exists c. split; [by apply list_elem_of_In | lia]. }
      lia.
Qed.

(** ** The steps of a level *)

Section Steps.
Variable ctx : LanguageServicePluginContext.
Variable options : FormattingOptions.
Variable range_ : Range.
Variable onTypeParams : option OnTypeParams.
Variable document0 : TextDocument.
Variable w0 : World.

Local Abbreviation Inv := (requestInv ctx document0 w0).

Lemma alter_withSnapshot_twice snap snap' file (m : gmap string Source) :
  alter (withSnapshot snap') file (alter (withSnapshot snap) file m)
  = alter (withSnapshot snap') file m.
Proof using Type.
  rewrite alter_alter_eq. apply alter_ext. intros s _. done.
Qed.

Lemma wp_applyBatch queries locals batch w :
  Inv queries locals w →
  wp (applyBatch ctx locals batch) w (Inv queries) (fun w' => levelQueries w' = queries).
Proof using Type.
  intros (Huri & Hq & Hunedited & Hsrc).
  unfold applyBatch. apply wp_bind. unfold wp at 1, liftCompletion.
  destruct (TextEdits.applyEdits (document locals) batch) as [newText|err]; [|done].
  unfold wp, bind, updateSource, ret. cbn [uri TextDoc.create document edited].
  split; [done|]. split; [done|]. split; [done|]. simpl.
  right. rewrite Huri. destruct Hsrc as [->|[snap ->]].
  - eauto.
  - rewrite alter_withSnapshot_twice. eauto.
Qed.

Lemma wp_reflowMap cfg baseIndent queries locals entry w :
  Inv queries locals w →
  wp (reflowMap ctx cfg baseIndent locals entry) w (Inv queries)
     (fun w' => levelQueries w' = queries).
Proof using Type.
  intros H. unfold reflowMap.
  destruct (0 <? length _); [by apply wp_applyBatch | by apply wp_ret].
Qed.

(** The base indent of line 124 is computed without a write; the one error
    it can throw is the RangeError of [repeat]. *)
Lemma baseIndentOf_throws err :
  baseIndentOf ctx options = Throw err → err = Js.RangeError.
Proof using Type.
  unfold baseIndentOf, Js.repeat. destruct (insertSpaces options); [|done].
  destruct (tabSize options) as [n| |]; [|by intros [= <-]|by intros [= <-]].
  destruct (n <? 0)%Z; [by intros [= <-]|].
  destruct (_ <? _)%Z; [by intros [= <-] | done].
Qed.

Lemma baseIndent_runs w :
  (∃ baseIndent,
     baseIndentOf ctx options = Normal baseIndent
     ∧ liftCompletion (baseIndentOf ctx options) w = (Returns baseIndent, w))
  ∨ (baseIndentOf ctx options = Throw Js.RangeError
     ∧ liftCompletion (baseIndentOf ctx options) w = (Throws Js.RangeError, w)).
Proof using Type.
  unfold liftCompletion.
  destruct (baseIndentOf ctx options) as [baseIndent|err] eqn:E.
  - left. by exists baseIndent.
  - right. apply baseIndentOf_throws in E as ->. by split.
Qed.

Lemma wp_reflowLevel cfg uris queries locals w :
  Inv queries locals w →
  wp (reflowLevel ctx options cfg uris locals) w (Inv queries)
     (fun w' => levelQueries w' = queries).
Proof using Type.
  intros HI. unfold reflowLevel. apply wp_bind. unfold wp at 1.
  destruct (baseIndent_runs w) as [(baseIndent & _ & ->)|[_ ->]];
    [|by destruct HI as (_ & Hq & _)].
  revert locals w HI. apply wp_forOf.
  intros acc u w H. apply wp_bind. unfold wp at 1.
  cbn [getMapsByVirtualFileUri getMapsByVirtualFileName].
  match goal with |- context [forOf ?l _ acc] => generalize l end.
  intros found. revert acc w H. apply wp_forOf.
  intros acc e w H. by apply wp_reflowMap.
Qed.

(** The loop over the embedded files of a level leaves the sources alone and
    never throws. *)
Lemma wp_formatLevel document files lv w :
  wp (forOf files (formatEmbedded ctx options range_ onTypeParams document) lv) w
     (fun _ w' => sameSources w w') (fun _ => False).
Proof using Type.
  assert (G : ∀ acc w1, sameSources w w1 →
              wp (forOf files (formatEmbedded ctx options range_ onTypeParams document) acc)
                 w1 (fun _ w' => sameSources w w') (fun _ => False)).
  { apply (wp_forOf files _ (fun _ w' => sameSources w w')).
    intros acc x w1 H1.
    destruct (formatEmbedded_returns ctx options range_ onTypeParams document acc x w1)
      as (locals' & w' & E & H' & _).
    unfold wp. rewrite E. by eapply sameSources_trans. }
  apply G, sameSources_refl.
Qed.

(** The level loop: started at a level of the tree with enough turns left, it
    halts; when it returns, the levels it has asked for are those from its
    own up to the first empty one. *)
Lemma wp_levelLoop cfg rootFile : ∀ fuel level locals w,
  level ≤ depth rootFile + 1 →
  depth rootFile + 2 - level ≤ fuel →
  Inv (levelQueries w0 ++ seq 0 level) locals w →
  wp (levelLoop ctx options range_ onTypeParams fuel cfg rootFile level locals) w
     (Inv (levelQueries w0 ++ seq 0 (depth rootFile + 2)))
     (fun w' => ∃ n, n ≤ depth rootFile + 1 ∧ levelQueries w' = levelQueries w0 ++ seq 0 n).
Proof using Type.
  induction fuel as [|fuel IH]; intros level locals w Hlevel Hfuel HI; [lia|].
  cbn [levelLoop]. apply wp_bind. unfold wp at 1, queryLevel.
  rewrite getEmbeddedFilesByLevel_regionsAtDepth.
  set (w1 := {| sourceFiles := sourceFiles w; maps := maps w; console := console w;
                levelQueries := levelQueries w ++ [level] |}).
  assert (HI1 : Inv (levelQueries w0 ++ seq 0 (level + 1)) locals w1).
  { destruct HI as (Hu & Hq & Hun & Hs). split; [done|]. split; [|by split].
    simpl. rewrite Hq, seq_app, app_assoc. done. }
  case_bool_decide as Hempty.
  - apply wp_ret.
    assert (depth rootFile < level).
    { apply regionsAtDepth_empty. by apply length_zero_iff_nil. }
    replace (depth rootFile + 2) with (level + 1) by lia. done.
  - assert (level ≤ depth rootFile).
    { apply Nat.nlt_ge. intros Hlt. apply Hempty.
      apply regionsAtDepth_empty in Hlt. by rewrite Hlt. }
    assert (HE : ∀ w', levelQueries w' = levelQueries w0 ++ seq 0 (level + 1) →
                 ∃ n, n ≤ depth rootFile + 1
                      ∧ levelQueries w' = levelQueries w0 ++ seq 0 n).
    { intros w' Hw'. exists (level + 1). split; [lia|done]. }
    apply wp_bind.
    eapply wp_mono; [apply wp_formatLevel | | done].
    intros lv w2 [Hs2 Hq2]. cbn beta.
    assert (HI2 : Inv (levelQueries w0 ++ seq 0 (level + 1)) locals w2).
    { destruct HI1 as (Hu & Hq & Hun & Hs). split; [done|].
      split; [congruence|]. rewrite Hs2. by split. }
    apply wp_bind.
    assert (H3 : wp (if 0 <? length (edits lv)
                     then applyBatch ctx locals (edits lv) else ret locals) w2
                   (Inv (levelQueries w0 ++ seq 0 (level + 1)))
                   (fun w' => levelQueries w' = levelQueries w0 ++ seq 0 (level + 1))).
    { destruct (0 <? length (edits lv)); [by apply wp_applyBatch | by apply wp_ret]. }
    eapply wp_mono; [exact H3 | | exact HE].
    intros locals3 w3 HI3. cbn beta.
    apply wp_bind.
    assert (H4 : wp (if 1 <? level + 1
                     then reflowLevel ctx options cfg (toPatchIndentUris lv) locals3
                     else ret locals3) w3
                   (Inv (levelQueries w0 ++ seq 0 (level + 1)))
                   (fun w' => levelQueries w' = levelQueries w0 ++ seq 0 (level + 1))).
    { destruct (1 <? level + 1); [by apply wp_reflowLevel | by apply wp_ret]. }
    eapply wp_mono; [exact H4 | | exact HE].
    intros locals4 w4 HI4. cbn beta.
    apply IH; [lia | lia | done].
Qed.
End Steps.

(** ** The level loop, whatever the number of turns allowed *)

Lemma wp_wpPartial {A} (m : M A) w (Q Q' : A → World → Prop) E :
  wp m w Q E → (∀ a w', Q a w' → Q' a w') → wpPartial m w Q'.
Proof. unfold wp, wpPartial. destruct (m w) as [[a|err|] w']; auto. Qed.

Lemma wpPartial_bind {A B} (m : M A) (k : A → M B) w (Q : B → World → Prop) :
  wpPartial m w (fun a w' => wpPartial (k a) w' Q) → wpPartial (bind m k) w Q.
Proof. unfold wpPartial, bind. by destruct (m w) as [[a|err|] w']. Qed.

Section Partial.
Variable ctx : LanguageServicePluginContext.
Variable options : FormattingOptions.
Variable range_ : Range.
Variable onTypeParams : option OnTypeParams.
Variable document0 : TextDocument.
Variable w0 : World.

Local Abbreviation SomeInv :=
  (fun locals w => ∃ queries, requestInv ctx document0 w0 queries locals w).

Lemma requestInv_queries queries locals w w' :
  requestInv ctx document0 w0 queries locals w →
  sourceFiles w' = sourceFiles w →
  requestInv ctx document0 w0 (levelQueries w') locals w'.
Proof using Type.
  intros (Hu & Hq & Hun & Hs) E. split; [done|]. split; [done|]. rewrite E. by split.
Qed.

Lemma wpPartial_levelLoop cfg rootFile : ∀ fuel level locals w,
  SomeInv locals w →
  wpPartial (levelLoop ctx options range_ onTypeParams fuel cfg rootFile level locals) w
    SomeInv.
Proof using Type.
  induction fuel as [|fuel IH]; intros level locals w [queries HI]; [done|].
  cbn [levelLoop]. apply wpPartial_bind. unfold wpPartial at 1, queryLevel.
  set (w1 := {| sourceFiles := sourceFiles w; maps := maps w; console := console w;
                levelQueries := levelQueries w ++ [level] |}).
  assert (HI1 : requestInv ctx document0 w0 (levelQueries w1) locals w1)
    by (by eapply requestInv_queries).
  case_bool_decide as Hempty; [by exists (levelQueries w1)|].
  apply wpPartial_bind.
  eapply wp_wpPartial; [apply wp_formatLevel|].
  intros lv w2 [Hs2 Hq2]. cbn beta.
  assert (HI2 : requestInv ctx document0 w0 (levelQueries w2) locals w2)
    by (by eapply requestInv_queries).
  apply wpPartial_bind.
  assert (H3 : wp (if 0 <? length (edits lv)
                   then applyBatch ctx locals (edits lv) else ret locals) w2
                 (requestInv ctx document0 w0 (levelQueries w2))
                 (fun w' => levelQueries w' = levelQueries w2)).
  { destruct (0 <? length (edits lv)); [by apply wp_applyBatch | by apply wp_ret]. }
  eapply wp_wpPartial; [exact H3|].
  intros locals3 w3 HI3. cbn beta.
  apply wpPartial_bind.
  assert (H4 : wp (if 1 <? level + 1
                   then reflowLevel ctx options cfg (toPatchIndentUris lv) locals3
                   else ret locals3) w3
                 (requestInv ctx document0 w0 (levelQueries w2))
                 (fun w' => levelQueries w' = levelQueries w2)).
  { destruct (1 <? level + 1); [by apply wp_reflowLevel | by apply wp_ret]. }
  eapply wp_wpPartial; [exact H4|].
  intros locals4 w4 HI4. cbn beta.
  apply IH. by exists (levelQueries w2).
Qed.
End Partial.

(** ** Whole-document ranges *)

Lemma lineBreaks_bounds n : ∀ s i,
  String.length s ≤ n →
  Forall (fun o => i < o ∧ o ≤ i + String.length s) (TextDoc.lineBreaks i s).
Proof.
  induction n as [|n IH]; intros s i Hn.
  - destruct s; simpl in *; [constructor | lia].
  - destruct s as [|c r]; [constructor|]. simpl in Hn.
    assert (Hweak : ∀ j k l, i < j → j + k ≤ i + String.length (String c r) →
              Forall (fun o => j < o ∧ o ≤ j + k) l →
              Forall (fun o => i < o ∧ o ≤ i + String.length (String c r)) l).
    { intros j k l Hj Hk H. eapply Forall_impl; [exact H|]. intros o [? ?]. lia. }
    cbn [TextDoc.lineBreaks].
    destruct (bool_decide (c = Js.CR)).
    + destruct r as [|c' r'].
      * constructor; [simpl; lia | constructor].
      * simpl in Hn. destruct (bool_decide (c' = Js.LF)).
        -- constructor; [simpl; lia|].
           apply (Hweak (i + 2) (String.length r')); [lia | simpl; lia |].
           apply IH. lia.
        -- constructor; [simpl; lia|].
           apply (Hweak (i + 1) (String.length (String c' r'))); [lia | simpl; lia |].
           apply IH. simpl. lia.
    + destruct (bool_decide (c = Js.LF)).
      * constructor; [simpl; lia|].
        apply (Hweak (i + 1) (String.length r)); [lia | simpl; lia |].
        apply IH. lia.
      * apply (Hweak (i + 1) (String.length r)); [lia | simpl; lia |].
        apply IH. lia.
Qed.

Lemma searchLow_all l n : Forall (fun o => o ≤ n) l → TextDoc.searchLow l n = length l.
Proof.
  induction 1 as [|o l Ho Hl IH]; simpl; [done|].
  apply Nat.leb_le in Ho. by rewrite Ho, IH.
Qed.

Lemma searchLow_none l n : Forall (fun o => n < o) l → TextDoc.searchLow l n = 0.
Proof.
  destruct 1 as [|o l Ho Hl]; simpl; [done|].
  apply Nat.leb_gt in Ho. by rewrite Ho.
Qed.

(** Offset [0] is the position at line 0, character 0, and back. *)
Lemma positionAt_0 d :
  TextDoc.positionAt d 0 = {| line := 0; character := 0 |}
  ∧ TextDoc.offsetAt d {| line := 0; character := 0 |} = 0.
Proof.
  unfold TextDoc.positionAt, TextDoc.offsetAt, TextDoc.getLineOffsets.
  cbn [Nat.min TextDoc.searchLow Nat.leb line character length nth].
  rewrite searchLow_none; [split; [done|]|].
  - destruct (0 + 1 <? _); lia.
  - eapply Forall_impl; [apply (lineBreaks_bounds _ _ 0 (Nat.le_refl _))|].
    intros o [? _]. done.
Qed.

(** The position of the end of the text is at offset [length]. *)
Lemma offsetAt_end d :
  TextDoc.offsetAt d (TextDoc.positionAt d (String.length (content d)))
  = String.length (content d).
Proof.
  pose proof (lineBreaks_bounds _ (content d) 0 (Nat.le_refl _)) as Hb.
  unfold TextDoc.positionAt, TextDoc.offsetAt, TextDoc.getLineOffsets.
  rewrite Nat.min_id.
  set (len := String.length (content d)) in *.
  set (offs := 0 :: TextDoc.lineBreaks 0 (content d)).
  assert (Hall : Forall (fun o => o ≤ len) offs).
  { constructor; [lia|]. eapply Forall_impl; [exact Hb|]. intros o [_ ?]. lia. }
  rewrite (searchLow_all _ _ Hall). cbn [line character].
  assert (length offs - 1 < length offs) by (simpl; lia).
  assert (Hnth : nth (length offs - 1) offs 0 ≤ len).
  { rewrite Forall_forall in Hall. apply Hall, list_elem_of_In, nth_In. done. }
  destruct (length offs <=? length offs - 1) eqn:E1; [apply Nat.leb_le in E1; lia|].
  destruct (length offs - 1 + 1 <? length offs) eqn:E2; [apply Nat.ltb_lt in E2; lia|].
  lia.
Qed.

(** ** The format operation *)

(** A request on a document with an embedding tree ends as its level loop
    does; when the loop returns, the operation restores the sources and
    returns the edit of the whole document, or nothing. *)
Lemma register_tree ctx fuel uri_ options requested onTypeParams w document0 source :
  getTextDocument ctx uri_ = Some document0 →
  sourceFiles w !! uriToFileName ctx (uri document0) = Some source →
  match levelLoop ctx options
          (default (Range_create (TextDoc.positionAt document0 0)
                      (TextDoc.positionAt document0
                         (String.length (TextDoc.getText document0)))) requested)
          onTypeParams fuel (default {[ "html" := true ]} (getConfiguration ctx))
          (root source) 0 {| document := document0; edited := false |} w with
  | (Returns final, w1) =>
      ∃ w', register ctx fuel uri_ options requested onTypeParams w
            = (Returns
                 (if bool_decide (content (document final) = content document0)
                  then None
                  else Some [{| range :=
                                  {| start := {| line := 0; character := 0 |};
                                     end_ := TextDoc.positionAt document0
                                               (String.length (content document0)) |};
                                newText := content (document final) |}]),
               w')
            ∧ sourceFiles w' = sourceFiles w
            ∧ levelQueries w' = levelQueries w1
  | (Throws err, w1) =>
      register ctx fuel uri_ options requested onTypeParams w = (Throws err, w1)
  | (OutOfFuel, w1) =>
      register ctx fuel uri_ options requested onTypeParams w = (OutOfFuel, w1)
  end.
Proof.
  intros Hdoc Hsrc. unfold register. rewrite Hdoc. cbv zeta.
  rewrite bind_run.
  change (getSourceByUri ctx (uri document0) w)
    with (Returns (sourceFiles w !! uriToFileName ctx (uri document0)), w).
  rewrite Hsrc, bind_run.
  pose proof (wpPartial_levelLoop ctx options
                (default (Range_create (TextDoc.positionAt document0 0)
                            (TextDoc.positionAt document0
                               (String.length (TextDoc.getText document0)))) requested)
                onTypeParams document0 w
                (default {[ "html" := true ]} (getConfiguration ctx))
                (root source) fuel 0 {| document := document0; edited := false |} w) as HI.
  unfold wpPartial in HI.
  destruct (levelLoop _ _ _ _ _ _ _ _ _ w) as [[final|err|] w1]; [|done|done].
  destruct HI as (queries & Hu & Hq & Hun & Hs).
  { exists (levelQueries w). split; [done|]. split; [done|]. split; [done|]. by left. }
  unfold TextDoc.getText. rewrite (proj1 (positionAt_0 document0)).
  unfold Range_create, TextEdit_replace, bind, ret, updateSource.
  assert (Hrestore :
            alter (withSnapshot (snapshot source)) (uriToFileName ctx (uri (document final)))
              (sourceFiles w1) = sourceFiles w).
  { rewrite Hu. destruct Hs as [->|[snap ->]]; rewrite ?alter_withSnapshot_twice;
      (apply alter_id; intros s Es; rewrite Hsrc in Es; inversion Es; subst;
       by destruct s). }
  destruct (edited final) eqn:Hed.
  - case_bool_decide; eexists; (split; [reflexivity|]); simpl; by split.
  - case_bool_decide; eexists; (split; [reflexivity|]); simpl; split; auto.
Qed.

(** ** On-type requests that no mapping covers *)

Section OnType.
Variable ctx : LanguageServicePluginContext.
Variable options : FormattingOptions.
Variable range_ : Range.
Variable params : OnTypeParams.

(** The worlds that differ at most by the ghost log. *)
Let sameRegistry (w w' : World) : Prop :=
  sourceFiles w' = sourceFiles w ∧ maps w' = maps w ∧ console w' = console w.

Lemma formatEmbedded_uncovered document locals embedded w :
  (∀ e, e ∈ maps w → toGeneratedPosition ctx e.2 (position params) = None) →
  edits locals = [] → toPatchIndentUris locals = [] →
  ∃ locals',
    formatEmbedded ctx options range_ (Some params) document locals embedded w
    = (Returns locals', w)
    ∧ edits locals' = [] ∧ toPatchIndentUris locals' = [].
Proof using Type.
  intros Hnone He Hp. unfold formatEmbedded.
  destruct (negb (truthy (documentFormatting (capabilities embedded)))).
  { by exists locals. }
  rewrite bind_run. unfold getMapsByVirtualFileName at 1. cbv beta.
  destruct (List.find _ _) as [[ref [file m]]|] eqn:Hfind.
  2:{ by exists locals. }
  apply found_lookup in Hfind.
  assert (Hin : (file, m) ∈ maps w) by (apply list_elem_of_lookup; eauto).
  apply Hnone in Hin. simpl in Hin. rewrite Hin.
  rewrite bind_run. unfold ret. eexists. split; [reflexivity|].
  simpl. by rewrite He, Hp.
Qed.

Lemma forOf_uncovered document files : ∀ locals w,
  (∀ e, e ∈ maps w → toGeneratedPosition ctx e.2 (position params) = None) →
  edits locals = [] → toPatchIndentUris locals = [] →
  ∃ locals',
    forOf files (formatEmbedded ctx options range_ (Some params) document) locals w
    = (Returns locals', w)
    ∧ edits locals' = [] ∧ toPatchIndentUris locals' = [].
Proof using Type.
  induction files as [|f files IH]; intros locals w Hnone He Hp.
  - by exists locals.
  - cbn [forOf]. rewrite bind_run.
    destruct (formatEmbedded_uncovered document locals f w Hnone He Hp)
      as (l1 & -> & He1 & Hp1).
    by apply IH.
Qed.

(** Without a covering mapping the level loop changes neither the working
    document nor the registry. *)
Lemma levelLoop_uncovered cfg rootFile :
  depth rootFile = 0 ∨ (∃ baseIndent, baseIndentOf ctx options = Normal baseIndent) →
  ∀ fuel level locals w,
  (∀ e, e ∈ maps w → toGeneratedPosition ctx e.2 (position params) = None) →
  level ≤ depth rootFile + 1 →
  depth rootFile + 2 - level ≤ fuel →
  ∃ w', levelLoop ctx options range_ (Some params) fuel cfg rootFile level locals w
        = (Returns locals, w')
        ∧ sameRegistry w w'.
Proof using Type.
  intros Hindent.
  induction fuel as [|fuel IH]; intros level locals w Hnone Hlevel Hfuel; [lia|].
  cbn [levelLoop]. rewrite bind_run. unfold queryLevel at 1. cbv beta.
  rewrite getEmbeddedFilesByLevel_regionsAtDepth.
  set (w1 := {| sourceFiles := sourceFiles w; maps := maps w; console := console w;
                levelQueries := levelQueries w ++ [level] |}).
  case_bool_decide as Hempty.
  - exists w1. split; [reflexivity|]. by repeat split.
  - assert (level ≤ depth rootFile).
    { apply Nat.nlt_ge. intros Hlt. apply Hempty.
      apply regionsAtDepth_empty in Hlt. by rewrite Hlt. }
    rewrite bind_run.
    destruct (forOf_uncovered (document locals) (regionsAtDepth level rootFile)
                {| edits := []; toPatchIndentUris := [] |} w1 Hnone eq_refl eq_refl)
      as (lv & -> & He & Hp).
    rewrite He, Hp. change (0 <? length (@nil TextEdit)) with false. cbv iota.
    rewrite bind_run. change (ret locals w1) with (Returns locals, w1). cbv iota beta.
    rewrite bind_run.
    assert (Hreflow : (if 1 <? level + 1
                       then reflowLevel ctx options cfg [] locals
                       else ret locals) w1 = (Returns locals, w1)).
    { destruct (1 <? level + 1) eqn:Hlv; [|done]. apply Nat.ltb_lt in Hlv.
      destruct Hindent as [Hflat|[baseIndent HbaseIndent]]; [lia|].
      unfold reflowLevel. by rewrite HbaseIndent. }
    rewrite Hreflow.
    destruct (IH (level + 1) locals w1 Hnone ltac:(lia) ltac:(lia))
      as (w' & -> & Hs & Hm & Hc).
    exists w'. split; [reflexivity|]. by repeat split.
Qed.

(** With embedded files and a base indent that cannot be built, the loop
    throws at its second level, before any write. *)
Lemma levelLoop_uncovered_throws cfg rootFile err :
  1 ≤ depth rootFile →
  baseIndentOf ctx options = Throw err →
  ∀ fuel level locals w,
  (∀ e, e ∈ maps w → toGeneratedPosition ctx e.2 (position params) = None) →
  level ≤ 1 →
  2 - level ≤ fuel →
  ∃ w', levelLoop ctx options range_ (Some params) fuel cfg rootFile level locals w
        = (Throws err, w')
        ∧ sameRegistry w w'.
Proof using Type.
  intros Hdepth Hthrow.
  induction fuel as [|fuel IH]; intros level locals w Hnone Hlevel Hfuel; [lia|].
  cbn [levelLoop]. rewrite bind_run. unfold queryLevel at 1. cbv beta.
  rewrite getEmbeddedFilesByLevel_regionsAtDepth.
  set (w1 := {| sourceFiles := sourceFiles w; maps := maps w; console := console w;
                levelQueries := levelQueries w ++ [level] |}).
  case_bool_decide as Hempty.
  { apply length_zero_iff_nil, regionsAtDepth_empty in Hempty. lia. }
  rewrite bind_run.
  destruct (forOf_uncovered (document locals) (regionsAtDepth level rootFile)
              {| edits := []; toPatchIndentUris := [] |} w1 Hnone eq_refl eq_refl)
    as (lv & -> & He & Hp).
  rewrite He, Hp. change (0 <? length (@nil TextEdit)) with false. cbv iota.
  rewrite bind_run. change (ret locals w1) with (Returns locals, w1). cbv iota beta.
  rewrite bind_run.
  destruct (decide (level = 0)) as [->|Hne].
  - change (1 <? 0 + 1) with false. cbv iota.
    change (ret locals w1) with (Returns locals, w1). cbv iota beta.
    destruct (IH (0 + 1) locals w1 Hnone ltac:(lia) ltac:(lia))
      as (w' & -> & Hs & Hm & Hc).
    exists w'. split; [reflexivity|]. by repeat split.
  - assert (level = 1) as -> by lia.
    change (1 <? 1 + 1) with true. cbv iota.
    unfold reflowLevel. rewrite bind_run, Hthrow. cbn [liftCompletion].
    exists w1. split; [reflexivity|]. by repeat split.
Qed.
End OnType.

(** C1. For a request on a document with an embedding tree and enough turns
    for its depth, the level loop does not run out of turns; when it reaches
    its terminal empty level with the accumulated document [final], the
    operation returns nothing at all ([None], no list) if the accumulated
    text is the original text, and otherwise exactly one replace edit whose
    range runs from offset 0 to the length of the original document and
    whose new text is the accumulated text.  When a batch application throws
    instead, so does the operation.  In particular an on-type request whose
    position no mapping covers returns nothing at all; the one exception is
    a tree with embedded files together with options whose base indent
    cannot be built: the second level then throws the error of [repeat]. *)
Theorem C1_whole_document_edit
    (ctx : LanguageServicePluginContext) (fuel : nat) (uri_ : string)
    (options : FormattingOptions) (requested : option Range)
    (onTypeParams : option OnTypeParams) (w : World)
    (document0 : TextDocument) (source : Source) :
  getTextDocument ctx uri_ = Some document0 →
  sourceFiles w !! uriToFileName ctx (uri document0) = Some source →
  depth (root source) + 2 ≤ fuel →
  match levelLoop ctx options
          (default (Range_create (TextDoc.positionAt document0 0)
                      (TextDoc.positionAt document0
                         (String.length (TextDoc.getText document0)))) requested)
          onTypeParams fuel (default {[ "html" := true ]} (getConfiguration ctx))
          (root source) 0 {| document := document0; edited := false |} w with
  | (Returns final, _) =>
      ∃ editRange,
        (register ctx fuel uri_ options requested onTypeParams w).1
        = Returns
            (if bool_decide (content (document final) = content document0)
             then None
             else Some [{| range := editRange; newText := content (document final) |}])
        ∧ TextDoc.offsetAt document0 (start editRange) = 0
        ∧ TextDoc.offsetAt document0 (end_ editRange) = String.length (content document0)
  | (Throws err, _) =>
      (register ctx fuel uri_ options requested onTypeParams w).1 = Throws err
  | (OutOfFuel, _) => False
  end
  ∧ ∀ params,
      onTypeParams = Some params →
      (∀ e, e ∈ maps w → toGeneratedPosition ctx e.2 (position params) = None) →
      (register ctx fuel uri_ options requested onTypeParams w).1
      = match baseIndentOf ctx options with
        | Normal _ => Returns None
        | Throw err =>
            if bool_decide (depth (root source) = 0) then Returns None else Throws err
        end.
Proof.
  intros Hdoc Hsrc Hfuel.
  pose proof (register_tree ctx fuel uri_ options requested onTypeParams w document0 source
                Hdoc Hsrc) as Hreg.
  split.
  - pose proof (wp_levelLoop ctx options
                  (default (Range_create (TextDoc.positionAt document0 0)
                              (TextDoc.positionAt document0
                                 (String.length (TextDoc.getText document0)))) requested)
                  onTypeParams document0 w
                  (default {[ "html" := true ]} (getConfiguration ctx))
                  (root source) fuel 0 {| document := document0; edited := false |} w)
      as Hloop.
    unfold wp in Hloop.
    destruct (levelLoop _ _ _ _ _ _ _ _ _ w) as [[final|err|] w1].
    + destruct Hreg as (w' & -> & _).
      exists {| start := {| line := 0; character := 0 |};
                end_ := TextDoc.positionAt document0 (String.length (content document0)) |}.
      split; [done|]. split; [apply positionAt_0 | apply offsetAt_end].
    + by rewrite Hreg.
    + apply Hloop; [lia | lia |].
      split; [done|]. split; [by rewrite app_nil_r|]. split; [done|]. by left.
  - intros params -> Hnone.
    assert (Hquiet : depth (root source) = 0
                     ∨ (∃ baseIndent, baseIndentOf ctx options = Normal baseIndent) →
                     (register ctx fuel uri_ options requested (Some params) w).1
                     = Returns None).
    { intros Hindent.
      destruct (levelLoop_uncovered ctx options
                  (default (Range_create (TextDoc.positionAt document0 0)
                              (TextDoc.positionAt document0
                                 (String.length (TextDoc.getText document0)))) requested)
                  params (default {[ "html" := true ]} (getConfiguration ctx))
                  (root source) Hindent fuel 0
                  {| document := document0; edited := false |} w
                  Hnone ltac:(lia) ltac:(lia)) as (w1 & Hrun & _).
      rewrite Hrun in Hreg. destruct Hreg as (w' & -> & _).
      cbn [document fst]. by rewrite bool_decide_true. }
    destruct (baseIndentOf ctx options) as [baseIndent|err] eqn:Hindent.
    { apply Hquiet. right. by exists baseIndent. }
    case_bool_decide as Hdepth; [apply Hquiet; by left|].
    destruct (levelLoop_uncovered_throws ctx options
                (default (Range_create (TextDoc.positionAt document0 0)
                            (TextDoc.positionAt document0
                               (String.length (TextDoc.getText document0)))) requested)
                params (default {[ "html" := true ]} (getConfiguration ctx))
                (root source) err ltac:(lia) Hindent fuel 0
                {| document := document0; edited := false |} w
                Hnone ltac:(lia) ltac:(lia)) as (w1 & Hrun & _).
    rewrite Hrun in Hreg. by rewrite Hreg.
Qed.

(** C2. Whenever the operation returns, on any of its return paths, the
    sources of the registry are what they were before the request, whatever
    the number of batches pushed into the overlay in between; in particular
    the snapshot stored for the document is its pre-request value. *)
Theorem C2_overlay_restored
    (ctx : LanguageServicePluginContext) (fuel : nat) (uri_ : string)
    (options : FormattingOptions) (requested : option Range)
    (onTypeParams : option OnTypeParams) (w w' : World)
    (result : option (list TextEdit)) :
  register ctx fuel uri_ options requested onTypeParams w = (Returns result, w') →
  sourceFiles w' = sourceFiles w
  ∧ ∀ document0, getTextDocument ctx uri_ = Some document0 →
      snapshot <$> sourceFiles w' !! uriToFileName ctx (uri document0)
      = snapshot <$> sourceFiles w !! uriToFileName ctx (uri document0).
Proof.
  intros Hrun.
  assert (H : sourceFiles w' = sourceFiles w); [|split; [done|by rewrite H]].
  destruct (getTextDocument ctx uri_) as [document0|] eqn:Hdoc.
  2:{ unfold register in Hrun. rewrite Hdoc in Hrun. by inversion Hrun. }
  destruct (sourceFiles w !! uriToFileName ctx (uri document0)) as [source|] eqn:Hsrc.
  - pose proof (register_tree ctx fuel uri_ options requested onTypeParams w document0 source
                  Hdoc Hsrc) as Hreg.
    destruct (levelLoop _ _ _ _ _ _ _ _ _ w) as [[final|err|] w1].
    + destruct Hreg as (w2 & E & Hs & _). rewrite E in Hrun. by inversion Hrun; subst.
    + rewrite Hreg in Hrun. discriminate.
    + rewrite Hreg in Hrun. discriminate.
  - unfold register in Hrun. rewrite Hdoc in Hrun. cbv zeta in Hrun.
    rewrite bind_run in Hrun.
    change (getSourceByUri ctx (uri document0) w)
      with (Returns (sourceFiles w !! uriToFileName ctx (uri document0)), w) in Hrun.
    rewrite Hsrc in Hrun.
    destruct onTypeParams as [params|].
    + destruct (tryFormat_returns ctx options document0 (IsPosition (position params))
                  (Some (ch params)) w) as (r & log & E).
      rewrite E in Hrun. by inversion Hrun.
    + match type of Hrun with
      | tryFormat _ _ _ ?t _ _ = _ =>
          destruct (tryFormat_returns ctx options document0 t None w) as (r & log & E)
      end.
      rewrite E in Hrun. by inversion Hrun.
Qed.

Lemma C1_whole_document_edit_witness :
  match levelLoop Example_request.ctx Example_request.options
          (default (Range_create (TextDoc.positionAt Example_request.doc 0)
                      (TextDoc.positionAt Example_request.doc
                         (String.length (TextDoc.getText Example_request.doc)))) None)
          None 3 (default {[ "html" := true ]} (getConfiguration Example_request.ctx))
          (root {| snapshot := Example_request.text; root := Example_request.tree |}) 0
          {| document := Example_request.doc; edited := false |}
          Example_request.world with
  | (Returns final, _) =>
      ∃ editRange,
        (register Example_request.ctx 3 "a.vue" Example_request.options None None
           Example_request.world).1
        = Returns
            (if bool_decide (content (document final) = content Example_request.doc)
             then None
             else Some [{| range := editRange; newText := content (document final) |}])
        ∧ TextDoc.offsetAt Example_request.doc (start editRange) = 0
        ∧ TextDoc.offsetAt Example_request.doc (end_ editRange)
          = String.length (content Example_request.doc)
  | (Throws err, _) =>
      (register Example_request.ctx 3 "a.vue" Example_request.options None None
         Example_request.world).1 = Throws err
  | (OutOfFuel, _) => False
  end.
Proof.
  assert (H1 : getTextDocument Example_request.ctx "a.vue" = Some Example_request.doc)
    by reflexivity.
  assert (H2 : sourceFiles Example_request.world
                 !! uriToFileName Example_request.ctx (uri Example_request.doc)
               = Some {| snapshot := Example_request.text; root := Example_request.tree |})
    by (vm_compute; reflexivity).
  assert (H3 : depth (root {| snapshot := Example_request.text;
                              root := Example_request.tree |}) + 2 ≤ 3)
    by (vm_compute; lia).
  pose proof (C1_whole_document_edit Example_request.ctx 3 "a.vue"
                Example_request.options None None Example_request.world
                Example_request.doc
                {| snapshot := Example_request.text; root := Example_request.tree |}
                H1 H2 H3) as H.
  destruct H as [H _]. exact H.
Defined.

Lemma C2_overlay_restored_witness :
  Example_outcome.outcome.1 = Returns Example_outcome.expected
  ∧ sourceFiles Example_outcome.outcome.2 = sourceFiles Example_request.world
  ∧ ∀ document0, getTextDocument Example_request.ctx "a.vue" = Some document0 →
      snapshot <$> sourceFiles Example_outcome.outcome.2
                     !! uriToFileName Example_request.ctx (uri document0)
      = snapshot <$> sourceFiles Example_request.world
                       !! uriToFileName Example_request.ctx (uri document0).
Proof.
  split; [vm_compute; reflexivity|].
  apply (C2_overlay_restored Example_request.ctx 3 "a.vue" Example_request.options
           None None Example_request.world Example_outcome.outcome.2
           Example_outcome.expected).
  vm_compute. reflexivity.
Defined.



(** ** Stable sorting *)

Section SortFacts.
Context {A : Type} (cmp : A → A → Z).
Hypothesis cmp_total : ∀ a b, (cmp a b ≤ 0)%Z ∨ (cmp b a ≤ 0)%Z.
Hypothesis cmp_trans : ∀ a b c, (cmp a b ≤ 0)%Z → (cmp b c ≤ 0)%Z → (cmp a c ≤ 0)%Z.

Let before (a b : A) : Prop := (cmp a b ≤ 0)%Z.

Lemma insertSorted_perm x l : insertSorted cmp x l ≡ₚ x :: l.
Proof using Type.
  induction l as [|y l IH]; simpl; [done|].
  destruct (cmp x y <=? 0)%Z; [done|].
  rewrite IH. apply Permutation_swap.
Qed.

Lemma stableSort_perm l : stableSort cmp l ≡ₚ l.
Proof using Type.
  induction l as [|x l IH]; simpl; [done|].
  by rewrite insertSorted_perm, IH.
Qed.

Lemma insertSorted_sorted x l :
  StronglySorted before l → StronglySorted before (insertSorted cmp x l).
Proof using cmp_total cmp_trans.
  induction 1 as [|y l Hl IH Hy]; simpl.
  - repeat constructor.
  - destruct (cmp x y <=? 0)%Z eqn:E.
    + apply Z.leb_le in E. constructor; [by constructor|].
      constructor; [done|]. eapply Forall_impl; [exact Hy|].
      intros z Hz. by eapply cmp_trans.
    + apply Z.leb_gt in E. constructor; [done|].
      rewrite insertSorted_perm. constructor; [|done].
      destruct (cmp_total x y) as [?|?]; [lia|done].
Qed.

Lemma stableSort_sorted l : StronglySorted before (stableSort cmp l).
Proof using cmp_total cmp_trans.
  induction l as [|x l IH]; simpl; [constructor|].
  by apply insertSorted_sorted.
Qed.

(** The first element of the sorted array comes before every element. *)
Lemma stableSort_head l x :
  stableSort cmp l !! 0 = Some x → x ∈ l ∧ ∀ y, y ∈ l → (cmp x y ≤ 0)%Z.
Proof using cmp_total cmp_trans.
  intros Hx. pose proof (stableSort_sorted l) as Hs.
  pose proof (stableSort_perm l) as Hp.
  destruct (stableSort cmp l) as [|z zs]; [done|].
  inversion Hx; subst z. split.
  - rewrite <- Hp. left.
  - intros y Hy. rewrite <- Hp in Hy. apply elem_of_cons in Hy as [->|Hy].
    + destruct (cmp_total x x); done.
    + apply StronglySorted_inv in Hs as [_ Hall].
      rewrite Forall_forall in Hall. by apply Hall.
Qed.
End SortFacts.

Lemma bySourceStart_head l x :
  stableSort bySourceStart l !! 0 = Some x →
  x ∈ l ∧ ∀ y, y ∈ l → (sourceRange x).1 ≤ (sourceRange y).1.
Proof.
  intros H. apply stableSort_head in H as [Hin Hmin].
  - split; [done|]. intros y Hy. specialize (Hmin y Hy). unfold bySourceStart in Hmin. lia.
  - intros a b. unfold bySourceStart. lia.
  - intros a b c. unfold bySourceStart. lia.
Qed.

Lemma bySourceStartDesc_head l x :
  stableSort bySourceStartDesc l !! 0 = Some x →
  x ∈ l ∧ ∀ y, y ∈ l → (sourceRange y).1 ≤ (sourceRange x).1.
Proof.
  intros H. apply stableSort_head in H as [Hin Hmax].
  - split; [done|]. intros y Hy. specialize (Hmax y Hy).
    unfold bySourceStartDesc in Hmax. lia.
  - intros a b. unfold bySourceStartDesc. lia.
  - intros a b c. unfold bySourceStartDesc. lia.
Qed.

Lemma StronglySorted_weaken {A} (P Q : A → A → Prop) (l : list A) :
  (∀ a b, P a b → Q a b) → StronglySorted P l → StronglySorted Q l.
Proof.
  intros HPQ. induction 1 as [|x l Hl IH Hx]; constructor; [done|].
  eapply Forall_impl; [exact Hx|]. intros y. apply HPQ.
Qed.

(** The extremity lookup leaves the array in descending order of source
    start. *)
Lemma extremities_descending l :
  StronglySorted (fun a b => (sourceRange b).1 ≤ (sourceRange a).1)
    (stableSort bySourceStartDesc (stableSort bySourceStart l)).
Proof.
  eapply StronglySorted_weaken; [|apply stableSort_sorted].
  - intros a b H. unfold bySourceStartDesc in H. simpl in H. lia.
  - intros a b. unfold bySourceStartDesc. lia.
  - intros a b c. unfold bySourceStartDesc. lia.
Qed.

(** ** The fallback of a range request *)

Lemma virtualCodeRangeOf_fallback ctx range_ document ref file m w :
  maps w !! ref = Some (file, m) →
  toGeneratedRange ctx m range_ = None →
  ∃ m' w',
    virtualCodeRangeOf ctx range_ document ref m w
    = (Returns
         (fallbackRange range_ document (virtualFileDocument m)
            (stableSort bySourceStart (mappings (map_ m)) !! 0)
            (stableSort bySourceStartDesc (stableSort bySourceStart (mappings (map_ m))) !! 0),
          m'), w')
    ∧ virtualFileDocument m' = virtualFileDocument m
    ∧ sourceFileDocument m' = sourceFileDocument m
    ∧ mappings (map_ m')
      = stableSort bySourceStartDesc (stableSort bySourceStart (mappings (map_ m)))
    ∧ maps w' = <[ref := (file, m')]> (maps w)
    ∧ sourceFiles w' = sourceFiles w ∧ console w' = console w.
Proof.
  intros Hm Hfail. unfold virtualCodeRangeOf. rewrite Hfail.
  assert (Hlt : ref < length (maps w)) by (by eapply lookup_lt_Some).
  rewrite bind_run. unfold sortMappings at 1. rewrite Hm.
  rewrite bind_run. unfold sortMappings at 1. cbn [maps].
  rewrite list_lookup_insert_eq by done.
  cbn [mappings map_ sourceFileDocument virtualFileDocument].
  rewrite bind_run. unfold readMap at 1. cbn [maps].
  rewrite list_lookup_insert_eq by (by rewrite length_insert).
  unfold ret. eexists _, _. split; [reflexivity|].
  cbn [mappings map_ sourceFileDocument virtualFileDocument maps sourceFiles console].
  rewrite list_insert_insert_eq. done.
Qed.

(** C6, amended. For a range request on an embedded region whose range fails
    direct mapping, the region is formatted over a generated range if and
    only if the requested range starts strictly before the source start of
    the mapping with the smallest source start and ends strictly after the
    source end of the mapping with the largest source start; the range is
    then [firstMapping.generatedStart, lastMapping.generatedEnd], and the
    dispatch runs on the virtual document over it.  Otherwise the region is
    not formatted.  Nothing restricts this to requests for the whole
    document: any requested range that encloses the mapped region takes the
    fallback. *)
Theorem C6_fallback_range
    (ctx : LanguageServicePluginContext) (range_ : Range) (document : TextDocument)
    (ref : nat) (file : VirtualFile) (m : SourceMapWithDocuments) (w : World) :
  maps w !! ref = Some (file, m) →
  toGeneratedRange ctx m range_ = None →
  let ascending := stableSort bySourceStart (mappings (map_ m)) in
  let descending := stableSort bySourceStartDesc ascending in
  ∃ vr m' w',
    virtualCodeRangeOf ctx range_ document ref m w = (Returns (vr, m'), w')
    ∧ (∀ r, vr = Some r ↔
         ∃ firstMapping lastMapping,
           ascending !! 0 = Some firstMapping
           ∧ descending !! 0 = Some lastMapping
           ∧ TextDoc.offsetAt document (start range_) < (sourceRange firstMapping).1
           ∧ (sourceRange lastMapping).2 < TextDoc.offsetAt document (end_ range_)
           ∧ r = {| start := TextDoc.positionAt (virtualFileDocument m)
                               (generatedRange firstMapping).1;
                    end_ := TextDoc.positionAt (virtualFileDocument m)
                              (generatedRange lastMapping).2 |})
    ∧ (∀ firstMapping, ascending !! 0 = Some firstMapping →
         firstMapping ∈ mappings (map_ m)
         ∧ ∀ x, x ∈ mappings (map_ m) → (sourceRange firstMapping).1 ≤ (sourceRange x).1)
    ∧ (∀ lastMapping, descending !! 0 = Some lastMapping →
         lastMapping ∈ mappings (map_ m)
         ∧ ∀ x, x ∈ mappings (map_ m) → (sourceRange x).1 ≤ (sourceRange lastMapping).1)
    ∧ (∀ options locals embedded,
         truthy (documentFormatting (capabilities embedded)) = true →
         List.find (fun e => bool_decide (uri (sourceFileDocument e.2.2) = uri document))
           (filter (fun e : nat * MapEntry => fileName (e.2.1) = fileName embedded)
              (imap (fun i e => (i, e)) (maps w))) = Some (ref, (file, m)) →
         formatEmbedded ctx options range_ None document locals embedded w
         = (let* es := match vr with
                       | Some r => tryFormat ctx options (virtualFileDocument m) (IsRange r) None
                       | None => ret None
                       end in
            ret {| edits := match es with
                            | Some es => pushTranslated ctx m' es (edits locals)
                            | None => edits locals
                            end;
                   toPatchIndentUris :=
                     toPatchIndentUris locals
                     ++ match es with
                        | Some _ => [uri (virtualFileDocument m)]
                        | None => []
                        end |}) w').
Proof.
  intros Hm Hfail ascending descending.
  destruct (virtualCodeRangeOf_fallback ctx range_ document ref file m w Hm Hfail)
    as (m' & w' & Hrun & Hv & _ & _ & _).
  eexists _, m', w'. split; [exact Hrun|]. split; [|split; [|split]].
  - intros r. fold ascending. fold descending. unfold fallbackRange.
    destruct (ascending !! 0) as [f|], (descending !! 0) as [l|].
    + destruct (TextDoc.offsetAt document (start range_) <? (sourceRange f).1) eqn:E1;
        [destruct ((sourceRange l).2 <? TextDoc.offsetAt document (end_ range_)) eqn:E2|];
        simpl.
      * apply Nat.ltb_lt in E1, E2. split.
        -- intros H. inversion H. exists f, l. done.
        -- intros (f' & l' & Hf & Hl & _ & _ & ->).
           inversion Hf; inversion Hl; by subst.
      * apply Nat.ltb_ge in E2. split; [done|].
        intros (f' & l' & Hf & Hl & _ & Hlt & _). inversion Hl; subst. lia.
      * apply Nat.ltb_ge in E1. split; [done|].
        intros (f' & l' & Hf & Hl & Hlt & _). inversion Hf; subst. lia.
    + split; [done|]. intros (f' & l' & _ & Hl & _). done.
    + split; [done|]. intros (f' & l' & Hf & _). done.
    + split; [done|]. intros (f' & l' & Hf & _). done.
  - intros firstMapping. apply bySourceStart_head.
  - intros lastMapping Hl. apply bySourceStartDesc_head in Hl as [Hin Hmax].
    pose proof (stableSort_perm bySourceStart (mappings (map_ m))) as Hp.
    fold ascending in Hp. split.
    + by rewrite <- Hp.
    + intros x Hx. apply Hmax. by rewrite Hp.
  - intros options locals embedded Hcap Hfind.
    unfold formatEmbedded. rewrite Hcap. cbn [negb].
    rewrite bind_run. unfold getMapsByVirtualFileName at 1. cbv beta. rewrite Hfind.
    rewrite bind_run, bind_run, Hrun, Hv. rewrite bind_run.
    destruct (fallbackRange _ _ _ _ _) as [r|].
    + rewrite bind_run.
      destruct (tryFormat ctx options (virtualFileDocument m) (IsRange r) None w')
        as [[[es|]|err|] w'']; reflexivity.
    + reflexivity.
Qed.

Lemma C6_fallback_range_witness :
  ∃ vr m' w',
    virtualCodeRangeOf Example_request.ctx Example_request.whole Example_request.doc 0
      (Example_request.mapOf [Example_request.m1; Example_request.m2])
      Example_request.world
    = (Returns (vr, m'), w')
    ∧ vr = Some {| start := TextDoc.positionAt Example_request.virtualDoc 0;
                   end_ := TextDoc.positionAt Example_request.virtualDoc 10 |}.
Proof.
  assert (H1 : maps Example_request.world !! 0
               = Some (Example_request.script,
                       Example_request.mapOf [Example_request.m1; Example_request.m2]))
    by reflexivity.
  assert (H2 : toGeneratedRange Example_request.ctx
                 (Example_request.mapOf [Example_request.m1; Example_request.m2])
                 Example_request.whole = None)
    by (vm_compute; reflexivity).
  destruct (C6_fallback_range Example_request.ctx Example_request.whole
              Example_request.doc 0 Example_request.script
              (Example_request.mapOf [Example_request.m1; Example_request.m2])
              Example_request.world H1 H2)
    as (vr & m' & w' & Hrun & Hiff & _).
  exists vr, m', w'. split; [exact Hrun|].
  apply Hiff. exists Example_request.m1, Example_request.m2.
  split; [reflexivity|]. split; [reflexivity|].
  split; [vm_compute; lia|]. split; [vm_compute; lia|]. reflexivity.
Defined.

(** The fallback is not reserved to requests for the whole document: a range
    that leaves out the first and the last character of the document fails
    direct mapping, encloses the single mapping, and is formatted over the
    generated range of that mapping. *)
Lemma C6_fallback_range_counterexample :
  toGeneratedRange Example_partial.ctx Example_partial.mapObject Example_partial.partial
    = None
  ∧ Example_partial.partial ≠ Example_partial.whole
  ∧ (virtualCodeRangeOf Example_partial.ctx Example_partial.partial Example_partial.doc 0
       Example_partial.mapObject Example_partial.world).1
    = Returns (Some {| start := {| line := 0; character := 0 |};
                       end_ := {| line := 0; character := 3 |} |},
               Example_partial.mapObject).
Proof. split; [|split]; vm_compute; [reflexivity | discriminate | reflexivity]. Qed.

(** ** The array of mappings after a fallback *)

(** C10. There is a range request whose range fails direct mapping and whose
    extremity lookup leaves the array of mappings of the region sorted in
    place, in descending order of source start.  The request pushes edits
    into the overlay and restores the sources before it returns, yet the map
    object of the registry keeps the reordered array.  A reflow pass over
    the reordered array inserts the first newline before the block with the
    largest source start and the final newline after the block with the
    smallest one, where the original order does the opposite; the text the
    request itself accumulates shows it.  When no plugin answers, the array
    is left reordered whatever the registry does on an update, since no
    update takes place. *)
Theorem C10_mappings_left_reordered :
  let before := [Example_request.m1; Example_request.m2] in
  let after := [Example_request.m2; Example_request.m1] in
  toGeneratedRange Example_request.ctx (Example_request.mapOf before) Example_request.whole
    = None
  ∧ Example_outcome.outcome.1 = Returns Example_outcome.expected
  ∧ sourceFiles Example_outcome.outcome.2 = sourceFiles Example_request.world
  ∧ maps Example_request.world = [(Example_request.script, Example_request.mapOf before)]
  ∧ maps Example_outcome.outcome.2 = [(Example_request.script, Example_request.mapOf after)]
  ∧ after = stableSort bySourceStartDesc (stableSort bySourceStart before)
  ∧ StronglySorted (fun a b => (sourceRange b).1 ≤ (sourceRange a).1) after
  ∧ patchInterpolationIndent Example_request.doc {| mappings := before |} ""
      Example_request.newlines
    = [{| range := Example_reorder.firstBlock;
          newText := Js.nl +:+ Example_request.block "x" |};
       {| range := Example_reorder.secondBlock;
          newText := Example_request.block "y" +:+ Js.nl |}]
  ∧ patchInterpolationIndent Example_request.doc {| mappings := after |} ""
      Example_request.newlines
    = [{| range := Example_reorder.secondBlock;
          newText := Js.nl +:+ Example_request.block "y" |};
       {| range := Example_reorder.firstBlock;
          newText := Example_request.block "x" +:+ Js.nl |}]
  ∧ ∀ regenerate,
      register (Example_reorder.quiet regenerate) 3 "a.vue" Example_request.options
        None None Example_request.world
      = (Returns None,
         {| sourceFiles := sourceFiles Example_request.world;
            maps := [(Example_request.script, Example_request.mapOf after)];
            console := [];
            levelQueries := [0; 1; 2] |}).
Proof.
  intros before after.
  split; [vm_compute; reflexivity|].
  split; [vm_compute; reflexivity|].
  split; [vm_compute; reflexivity|].
  split; [reflexivity|].
  split; [vm_compute; reflexivity|].
  split; [reflexivity|].
  split; [apply (extremities_descending before)|].
  split; [vm_compute; reflexivity|].
  split; [vm_compute; reflexivity|].
  intros regenerate. vm_compute. reflexivity.
Qed.

(** ** The reflow of a file with several mapping sets *)

(** C5, evaluated where it fails. The virtual file [shared.ts] holds a
    mapping set against [a.vue] and one against [b.vue].  On a range request
    for [a.vue] the provider answers with no edit and the mapping set
    against [a.vue] calls for no reflow; the request nevertheless returns an
    edit, produced by the reflow from the mapping set against [b.vue], whose
    offsets are read in the text of [a.vue].  Without that mapping set the
    request returns nothing. *)
Theorem C5_reflow_uses_foreign_mapping_set :
  uri (sourceFileDocument Example_shared.mapB) ≠ uri Example_shared.docA
  ∧ patchInterpolationIndent Example_shared.docA (map_ Example_shared.mapA) ""
      (FormattingFlag true) = []
  ∧ (register Example_shared.ctx 3 "a.vue" Example_shared.options None None
       (Example_shared.worldWith
          [(Example_shared.shared, Example_shared.mapA);
           (Example_shared.shared, Example_shared.mapB)])).1
    = Returns
        (Some [{| range := {| start := {| line := 0; character := 0 |};
                              end_ := {| line := 3; character := 4 |} |};
                  newText := Example_shared.patched |}])
  ∧ (register Example_shared.ctx 3 "a.vue" Example_shared.options None None
       (Example_shared.worldWith [(Example_shared.shared, Example_shared.mapA)])).1
    = Returns None.
Proof.
  split; [vm_compute; discriminate|].
  split; [vm_compute; reflexivity|].
  split; vm_compute; reflexivity.
Qed.

(* ================================================================== *)
(** * Further properties of the code *)
(* ================================================================== *)

(** ** Requests without an embedding tree *)

(** Without a document the operation returns nothing and touches nothing.
    For a document that has no source in the registry, the operation is the
    dispatch on the document itself, over the on-type position or over the
    requested range (the whole document by default); the result is the one of
    the dispatch, no level is asked for and nothing but the console changes. *)
Theorem register_without_tree
    (ctx : LanguageServicePluginContext) (fuel : nat) (uri_ : string)
    (options : FormattingOptions) (requested : option Range)
    (onTypeParams : option OnTypeParams) (w : World) :
  (getTextDocument ctx uri_ = None →
   register ctx fuel uri_ options requested onTypeParams w = (Returns None, w))
  ∧ (∀ document0,
       getTextDocument ctx uri_ = Some document0 →
       sourceFiles w !! uriToFileName ctx (uri document0) = None →
       register ctx fuel uri_ options requested onTypeParams w
       = tryFormat ctx options document0
           (match onTypeParams with
            | Some params => IsPosition (position params)
            | None =>
                IsRange
                  (default (Range_create (TextDoc.positionAt document0 0)
                              (TextDoc.positionAt document0
                                 (String.length (TextDoc.getText document0))))
                           requested)
            end)
           (ch <$> onTypeParams) w
       ∧ ∃ result log,
           register ctx fuel uri_ options requested onTypeParams w
           = (Returns result, logged w log)).
Proof.
  split.
  - intros Hdoc. unfold register. by rewrite Hdoc.
  - intros document0 Hdoc Hsrc.
    assert (E : register ctx fuel uri_ options requested onTypeParams w
                = tryFormat ctx options document0
                    (match onTypeParams with
                     | Some params => IsPosition (position params)
                     | None =>
                         IsRange
                           (default (Range_create (TextDoc.positionAt document0 0)
                                       (TextDoc.positionAt document0
                                          (String.length (TextDoc.getText document0))))
                                    requested)
                     end)
                    (ch <$> onTypeParams) w).
    { unfold register. rewrite Hdoc. cbv zeta. rewrite bind_run.
      change (getSourceByUri ctx (uri document0) w)
        with (Returns (sourceFiles w !! uriToFileName ctx (uri document0)), w).
      rewrite Hsrc. by destruct onTypeParams. }
    split; [exact E|]. rewrite E. apply tryFormat_returns.
Qed.

Lemma register_without_tree_witness :
  register Example_dispatch.ctx 0 "file:///a.ts" Example_dispatch.options None None
    emptyWorld
  = tryFormat Example_dispatch.ctx Example_dispatch.options Example_dispatch.doc
      (IsRange
         (default (Range_create (TextDoc.positionAt Example_dispatch.doc 0)
                     (TextDoc.positionAt Example_dispatch.doc
                        (String.length (TextDoc.getText Example_dispatch.doc))))
                  None))
      (ch <$> None) emptyWorld.
Proof.
  assert (H1 : getTextDocument Example_dispatch.ctx "file:///a.ts"
               = Some Example_dispatch.doc) by reflexivity.
  assert (H2 : sourceFiles emptyWorld
                 !! uriToFileName Example_dispatch.ctx (uri Example_dispatch.doc) = None)
    by reflexivity.
  pose proof (register_without_tree Example_dispatch.ctx 0 "file:///a.ts"
                Example_dispatch.options None None emptyWorld) as [_ H].
  destruct (H Example_dispatch.doc H1 H2) as [E _]. exact E.
Defined.

(** ** The two kinds of dispatch *)

Lemma callPlugin_onlyFormat options plugin document r :
  callPlugin options (onlyFormat plugin) document (IsRange r) None
  = callPlugin options plugin document (IsRange r) None.
Proof. reflexivity. Qed.

Lemma callPlugin_onlyFormatOnType options plugin document p c :
  callPlugin options (onlyFormatOnType plugin) document (IsPosition p) (Some c)
  = callPlugin options plugin document (IsPosition p) (Some c).
Proof. reflexivity. Qed.

Lemma tryFormatFrom_ext options document target c (f : LanguageServicePlugin → LanguageServicePlugin) :
  (∀ plugin, callPlugin options (f plugin) document target c
             = callPlugin options plugin document target c) →
  ∀ ps w, tryFormatFrom options (f <$> ps) document target c w
          = tryFormatFrom options ps document target c w.
Proof.
  intros Hf. induction ps as [|p ps IH]; intros w; [done|].
  rewrite fmap_cons. cbn [tryFormatFrom]. rewrite !bind_run, Hf.
  destruct (callPlugin options p document target c) as [[es|]|err]; cbn [ret]; [done|apply IH|].
  rewrite !bind_run. cbn [warn ret]. apply IH.
Qed.

Lemma tryFormatFrom_silent options document target c :
  (∀ plugin, callPlugin options plugin document target c = Normal None) →
  ∀ ps w, tryFormatFrom options ps document target c w = (Returns None, w).
Proof.
  intros Hf. induction ps as [|p ps IH]; intros w; [done|].
  cbn [tryFormatFrom]. rewrite bind_run, Hf. cbn [ret]. apply IH.
Qed.

(** A range dispatch calls [format] only and an on-type dispatch calls
    [formatOnType] only: the outcome, console included, is the same when the
    other method of every plugin is taken away.  A dispatch whose character
    and target do not agree (a character with a range, or a position without
    a character) calls no plugin at all and yields nothing. *)
Theorem dispatch_keeps_kinds_apart
    (options : FormattingOptions) (document : TextDocument)
    (ps : list LanguageServicePlugin) (w : World) :
  (∀ r, tryFormatFrom options (onlyFormat <$> ps) document (IsRange r) None w
        = tryFormatFrom options ps document (IsRange r) None w)
  ∧ (∀ p c, tryFormatFrom options (onlyFormatOnType <$> ps) document (IsPosition p) (Some c) w
            = tryFormatFrom options ps document (IsPosition p) (Some c) w)
  ∧ (∀ r c, tryFormatFrom options ps document (IsRange r) (Some c) w = (Returns None, w))
  ∧ (∀ p, tryFormatFrom options ps document (IsPosition p) None w = (Returns None, w)).
Proof.
  split; [|split; [|split]].
  - intros r. apply tryFormatFrom_ext. intros plugin. apply callPlugin_onlyFormat.
  - intros p c. apply tryFormatFrom_ext. intros plugin. apply callPlugin_onlyFormatOnType.
  - intros r c. by apply tryFormatFrom_silent.
  - intros p. by apply tryFormatFrom_silent.
Qed.

(** ** Regions that a level passes over *)

Lemma find_none_all {A} (P : A → bool) (l : list A) :
  (∀ x, x ∈ l → P x = false) → List.find P l = None.
Proof.
  induction l as [|x l IH]; intros H; [done|]. simpl.
  rewrite (H x) by left. apply IH. intros y Hy. apply H. by right.
Qed.

(** A region without a truthy formatting capability, or whose maps are all
    against other documents than the working one, is passed over: the batch,
    the files to reflow and the whole world stay as they are; no plugin is
    called and no array is sorted. *)
Theorem formatEmbedded_passes_over
    (ctx : LanguageServicePluginContext) (options : FormattingOptions)
    (range_ : Range) (onTypeParams : option OnTypeParams)
    (document : TextDocument) (locals : LevelLocals) (embedded : VirtualFile) (w : World) :
  truthy (documentFormatting (capabilities embedded)) = false
  ∨ (∀ file m, (file, m) ∈ maps w → fileName file = fileName embedded →
               uri (sourceFileDocument m) ≠ uri document) →
  formatEmbedded ctx options range_ onTypeParams document locals embedded w
  = (Returns locals, w).
Proof.
  intros H. unfold formatEmbedded.
  destruct (truthy (documentFormatting (capabilities embedded))) eqn:Hcap; cbn [negb].
  2:{ reflexivity. }
  destruct H as [H|H]; [discriminate|].
  rewrite bind_run. unfold getMapsByVirtualFileName at 1. cbv beta.
  rewrite find_none_all; [reflexivity|].
  intros [i [file m]] Hin. cbn [snd].
  apply list_elem_of_filter in Hin as [Hname Hin]. cbn [fst snd] in Hname.
  apply elem_of_lookup_imap in Hin as (j & e & E & Hl). inversion E; subst.
  apply bool_decide_eq_false. apply (H file m); [|done].
  apply list_elem_of_lookup. eauto.
Qed.

Lemma formatEmbedded_passes_over_witness :
  formatEmbedded Example_shared.ctx Example_shared.options Example_request.whole None
    Example_request.doc {| edits := []; toPatchIndentUris := [] |} Example_shared.shared
    (Example_shared.worldWith [(Example_shared.shared, Example_shared.mapB)])
  = (Returns {| edits := []; toPatchIndentUris := [] |},
     Example_shared.worldWith [(Example_shared.shared, Example_shared.mapB)]).
Proof.
  apply formatEmbedded_passes_over. right.
  intros file m Hin _. apply list_elem_of_singleton in Hin. inversion Hin; subst.
  vm_compute. discriminate.
Defined.

(** ** On-type requests *)

(** A level of an on-type request marks no file for the indentation reflow
    and writes nothing but the console: the arrays of mappings keep their
    order and the sources their snapshots. *)
Theorem on_type_level_marks_no_reflow
    (ctx : LanguageServicePluginContext) (options : FormattingOptions)
    (range_ : Range) (params : OnTypeParams) (document : TextDocument)
    (files : list VirtualFile) (w : World) :
  ∃ lv log,
    forOf files (formatEmbedded ctx options range_ (Some params) document)
      {| edits := []; toPatchIndentUris := [] |} w
    = (Returns lv, logged w log)
    ∧ toPatchIndentUris lv = [].
Proof.
  assert (Hturn : ∀ locals embedded w1,
            ∃ locals' log,
              formatEmbedded ctx options range_ (Some params) document locals embedded w1
              = (Returns locals', logged w1 log)
              ∧ toPatchIndentUris locals' = toPatchIndentUris locals).
  { intros locals embedded w1. unfold formatEmbedded.
    destruct (negb (truthy (documentFormatting (capabilities embedded)))).
    { exists locals, []. by rewrite logged_nil. }
    rewrite bind_run. unfold getMapsByVirtualFileName at 1. cbv beta.
    destruct (List.find _ _) as [[ref [file m]]|].
    2:{ exists locals, []. by rewrite logged_nil. }
    destruct (toGeneratedPosition ctx m (position params)) as [p|].
    - rewrite !bind_run.
      destruct (tryFormat_returns ctx options (virtualFileDocument m) (IsPosition p)
                  (Some (ch params)) w1) as (r & log & ->).
      cbn [ret]. destruct r as [es|]; eexists _, log;
        (split; [reflexivity|]); cbn [toPatchIndentUris]; by rewrite app_nil_r.
    - rewrite bind_run. cbn [ret]. eexists _, []. rewrite logged_nil.
      split; [reflexivity|]. cbn [toPatchIndentUris]. by rewrite app_nil_r. }
  assert (G : ∀ locals w1,
            ∃ lv log,
              forOf files (formatEmbedded ctx options range_ (Some params) document) locals w1
              = (Returns lv, logged w1 log)
              ∧ toPatchIndentUris lv = toPatchIndentUris locals).
  { induction files as [|f fs IH]; intros locals w1.
    - exists locals, []. by rewrite logged_nil.
    - cbn [forOf]. rewrite bind_run.
      destruct (Hturn locals f w1) as (l1 & log1 & -> & H1).
      destruct (IH l1 (logged w1 log1)) as (lv & log2 & -> & H2).
      exists lv, (log1 ++ log2). rewrite logged_app. split; [done|congruence]. }
  destruct (G {| edits := []; toPatchIndentUris := [] |} w) as (lv & log & E & H).
  by exists lv, log.
Qed.

(** ** The array of mappings across a range turn *)

(** The range to format in a virtual file.  When the requested range maps
    directly, it is the mapped range and the world is left as it is.  When it
    does not, the array of mappings of the map object is rearranged in place
    and nothing else is written: the array afterwards holds the same mappings,
    in descending order of source start, and the other map objects, the
    documents of the map, the sources and the console are unchanged. *)
Theorem extremity_lookup_rearranges_in_place
    (ctx : LanguageServicePluginContext) (range_ : Range) (document : TextDocument)
    (ref : nat) (file : VirtualFile) (m : SourceMapWithDocuments) (w : World) :
  maps w !! ref = Some (file, m) →
  match toGeneratedRange ctx m range_ with
  | Some r => virtualCodeRangeOf ctx range_ document ref m w = (Returns (Some r, m), w)
  | None =>
      ∃ vr m' w',
        virtualCodeRangeOf ctx range_ document ref m w = (Returns (vr, m'), w')
        ∧ maps w' = <[ref := (file, m')]> (maps w)
        ∧ sourceFileDocument m' = sourceFileDocument m
        ∧ virtualFileDocument m' = virtualFileDocument m
        ∧ mappings (map_ m') ≡ₚ mappings (map_ m)
        ∧ StronglySorted (fun a b => (sourceRange b).1 ≤ (sourceRange a).1)
            (mappings (map_ m'))
        ∧ sourceFiles w' = sourceFiles w ∧ console w' = console w
        ∧ levelQueries w' = levelQueries w
  end.
Proof.
  intros Hm. destruct (toGeneratedRange ctx m range_) as [r|] eqn:Hdirect.
  - unfold virtualCodeRangeOf. by rewrite Hdirect.
  - destruct (virtualCodeRangeOf_fallback ctx range_ document ref file m w Hm Hdirect)
      as (m' & w' & Hrun & Hv & Hs & Hmaps & Hw & Hsrc & Hcon).
    eexists _, m', w'. split; [exact Hrun|].
    split; [done|]. split; [done|]. split; [done|].
    split; [by rewrite Hmaps, !stableSort_perm|].
    split; [rewrite Hmaps; apply extremities_descending|].
    split; [done|]. split; [done|].
    destruct (virtualCodeRangeOf_returns ctx range_ document ref m w)
      as (vr2 & m2 & w2 & Hrun2 & _ & Hq).
    rewrite Hrun in Hrun2. by inversion Hrun2; subst.
Qed.

Lemma extremity_lookup_rearranges_in_place_witness :
  match toGeneratedRange Example_request.ctx
          (Example_request.mapOf [Example_request.m1; Example_request.m2])
          Example_request.whole with
  | Some r =>
      virtualCodeRangeOf Example_request.ctx Example_request.whole Example_request.doc 0
        (Example_request.mapOf [Example_request.m1; Example_request.m2])
        Example_request.world
      = (Returns (Some r, Example_request.mapOf [Example_request.m1; Example_request.m2]),
         Example_request.world)
  | None =>
      ∃ vr m' w',
        virtualCodeRangeOf Example_request.ctx Example_request.whole Example_request.doc 0
          (Example_request.mapOf [Example_request.m1; Example_request.m2])
          Example_request.world
        = (Returns (vr, m'), w')
        ∧ maps w' = <[0 := (Example_request.script, m')]> (maps Example_request.world)
        ∧ sourceFileDocument m'
          = sourceFileDocument (Example_request.mapOf [Example_request.m1; Example_request.m2])
        ∧ virtualFileDocument m'
          = virtualFileDocument (Example_request.mapOf [Example_request.m1; Example_request.m2])
        ∧ mappings (map_ m')
          ≡ₚ mappings (map_ (Example_request.mapOf [Example_request.m1; Example_request.m2]))
        ∧ StronglySorted (fun a b => (sourceRange b).1 ≤ (sourceRange a).1)
            (mappings (map_ m'))
        ∧ sourceFiles w' = sourceFiles Example_request.world
        ∧ console w' = console Example_request.world
        ∧ levelQueries w' = levelQueries Example_request.world
  end.
Proof.
  apply (extremity_lookup_rearranges_in_place Example_request.ctx Example_request.whole
           Example_request.doc 0 Example_request.script).
  reflexivity.
Defined.

(** ** The levels as a partition of the tree *)

Lemma allRegions_unfold f : allRegions f = f :: flat_map allRegions (embeddedFiles f).
Proof. by destruct f. Qed.

Lemma flat_map_app_perm {A B} (a b : A → list B) (cs : list A) :
  flat_map (fun c => a c ++ b c) cs ≡ₚ flat_map a cs ++ flat_map b cs.
Proof.
  induction cs as [|c cs IH]; simpl; [done|].
  rewrite IH. rewrite <- !app_assoc. f_equiv.
  rewrite !app_assoc. f_equiv. apply Permutation_app_comm.
Qed.

Lemma flat_map_perm_ext {A B} (a b : A → list B) (cs : list A) :
  (∀ c, c ∈ cs → a c ≡ₚ b c) → flat_map a cs ≡ₚ flat_map b cs.
Proof.
  induction cs as [|c cs IH]; intros H; simpl; [done|].
  rewrite (H c) by left. f_equiv. apply IH. intros c' Hc'. apply H. by right.
Qed.

Lemma concat_flat_map_swap {A B L} (g : L → A → list B) (cs : list A) (ls : list L) :
  concat (map (fun l => flat_map (g l) cs) ls)
  ≡ₚ flat_map (fun c => concat (map (fun l => g l c) ls)) cs.
Proof.
  induction ls as [|l ls IH]; simpl.
  - induction cs as [|c cs IHc]; simpl; [done|]. exact IHc.
  - rewrite IH. symmetry. apply flat_map_app_perm.
Qed.

Lemma depth_child f c : c ∈ embeddedFiles f → S (depth c) ≤ depth f.
Proof.
  intros Hc. rewrite (depth_unfold f). apply foldr_max_le. eauto.
Qed.

Lemma depth_0_leaf f : depth f = 0 → embeddedFiles f = [].
Proof.
  intros H. destruct (embeddedFiles f) as [|c cs] eqn:E; [done|].
  assert (Hc : c ∈ embeddedFiles f) by (rewrite E; left).
  apply depth_child in Hc. lia.
Qed.

Lemma levels_cover n : ∀ f,
  depth f ≤ n →
  concat (map (fun l => regionsAtDepth l f) (seq 0 (S n))) ≡ₚ allRegions f.
Proof.
  induction n as [|n IH]; intros f Hd.
  - rewrite allRegions_unfold. simpl. rewrite depth_0_leaf by lia. done.
  - rewrite allRegions_unfold.
    change (seq 0 (S (S n))) with (0 :: seq 1 (S n)).
    rewrite <- seq_shift. cbn [map concat]. rewrite map_map.
    cbn [regionsAtDepth app]. constructor.
    rewrite (concat_flat_map_swap regionsAtDepth (embeddedFiles f) (seq 0 (S n))).
    apply flat_map_perm_ext. intros c Hc. apply IH.
    apply depth_child in Hc. lia.
Qed.

(** Over the levels [0] to [depth], the level query hands out every region of
    the tree exactly once; each level gathers the embedded files of the
    level before it, file by file. *)
Theorem levels_partition_the_tree (rootFile : VirtualFile) :
  concat (map (getEmbeddedFilesByLevel rootFile) (seq 0 (S (depth rootFile))))
    ≡ₚ allRegions rootFile
  ∧ ∀ l, getEmbeddedFilesByLevel rootFile (S l)
         = flat_map embeddedFiles (getEmbeddedFilesByLevel rootFile l).
Proof.
  split.
  - rewrite <- (levels_cover (depth rootFile) rootFile (Nat.le_refl _)).
    rewrite (map_ext (getEmbeddedFilesByLevel rootFile)
               (fun l => regionsAtDepth l rootFile)
               (fun l => getEmbeddedFilesByLevel_regionsAtDepth rootFile l)).
    done.
  - intros l. rewrite !getEmbeddedFilesByLevel_regionsAtDepth.
    rewrite <- !levelList_regionsAtDepth. cbn [levelList].
    apply nextLevelOf_flat_map.
Qed.

(** ** The base indent of a position *)

Lemma trimStart_length s : String.length (Js.trimStart s) ≤ String.length s.
Proof.
  induction s as [|c r IH]; simpl; [done|].
  destruct (Js.isWhiteSpace c); simpl; lia.
Qed.

Lemma substring_prefix s k :
  k ≤ String.length s → Js.substring s 0 k = String.substring 0 k s.
Proof.
  intros H. unfold Js.substring.
  rewrite Nat.min_0_l, (Nat.min_l k) by done.
  by rewrite Nat.min_0_l, Nat.max_0_l, Nat.sub_0_r.
Qed.

(** The leading white space of a string, as [getBaseIndent] cuts it out. *)
Lemma leading_white_space s :
  let k := String.length s - String.length (Js.trimStart s) in
  String.substring 0 k s +:+ Js.trimStart s = s
  ∧ Forall (fun c => Js.isWhiteSpace c = true)
      (list_ascii_of_string (String.substring 0 k s)).
Proof.
  induction s as [|c r IH]; [by split; [|constructor]|].
  cbn [Js.trimStart]. destruct (Js.isWhiteSpace c) eqn:Hc.
  - pose proof (trimStart_length r).
    replace (String.length (String c r) - String.length (Js.trimStart r))
      with (S (String.length r - String.length (Js.trimStart r))) by (simpl; lia).
    cbn [String.substring list_ascii_of_string]. destruct IH as [IH1 IH2]. split.
    + change (String c (String.substring 0 (String.length r - String.length (Js.trimStart r)) r
                         +:+ Js.trimStart r) = String c r).
      by rewrite IH1.
    + by constructor.
  - rewrite Nat.sub_diag. split; [reflexivity | constructor].
Qed.

(** The base indent of a position is made of white space only, and it is the
    whole leading white space of the text that runs from the start of the
    line to the position: what follows it there does not start with white
    space. *)
Theorem getBaseIndent_is_the_leading_white_space (document : TextDocument) (pos : nat) :
  let startPos := TextDoc.positionAt document pos in
  let startLineText :=
    TextDoc.getTextIn document
      {| start := {| line := line startPos; character := 0 |}; end_ := startPos |} in
  Forall (fun c => Js.isWhiteSpace c = true)
    (list_ascii_of_string (getBaseIndent document pos))
  ∧ getBaseIndent document pos +:+ Js.trimStart startLineText = startLineText
  ∧ match Js.trimStart startLineText with
    | String c _ => Js.isWhiteSpace c = false
    | EmptyString => True
    end.
Proof.
  intros startPos startLineText. unfold getBaseIndent.
  fold startPos. fold startLineText.
  rewrite substring_prefix by lia.
  destruct (leading_white_space startLineText) as [H1 H2].
  split; [exact H2|]. split; [exact H1|].
  clear. induction startLineText as [|c r IH]; [done|].
  cbn [Js.trimStart]. by destruct (Js.isWhiteSpace c) eqn:Hc.
Qed.

(** ** Line offsets and the text before a position *)

Lemma searchLow_le l n : TextDoc.searchLow l n ≤ length l.
Proof. induction l as [|o l IH]; simpl; [done|]. destruct (o <=? n); simpl; lia. Qed.

Lemma searchLow_before l n : ∀ k, k < TextDoc.searchLow l n → nth k l 0 ≤ n.
Proof.
  induction l as [|o l IH]; intros k Hk; simpl in Hk; [lia|].
  destruct (o <=? n) eqn:E; [|lia]. apply Nat.leb_le in E.
  destruct k as [|k]; simpl; [done|]. apply IH. lia.
Qed.

Lemma searchLow_at l n :
  TextDoc.searchLow l n < length l → n < nth (TextDoc.searchLow l n) l 0.
Proof.
  induction l as [|o l IH]; simpl; [lia|].
  destruct (o <=? n) eqn:E.
  - intros H. simpl. apply IH. lia.
  - intros _. simpl. by apply Nat.leb_gt in E.
Qed.

Lemma lineBreaks_sorted n : ∀ s i,
  String.length s ≤ n → StronglySorted lt (TextDoc.lineBreaks i s).
Proof.
  induction n as [|n IH]; intros s i Hn.
  - destruct s; simpl in *; [constructor | lia].
  - destruct s as [|c r]; [constructor|]. simpl in Hn.
    assert (Hcons : ∀ j t, i < j → String.length t ≤ n →
              StronglySorted lt (j :: TextDoc.lineBreaks j t)).
    { intros j t Hj Ht. constructor; [by apply IH|].
      eapply Forall_impl; [apply (lineBreaks_bounds _ t j (Nat.le_refl _))|].
      intros o [? _]. done. }
    cbn [TextDoc.lineBreaks].
    destruct (bool_decide (c = Js.CR)).
    + destruct r as [|c' r'].
      * repeat constructor.
      * simpl in Hn. destruct (bool_decide (c' = Js.LF)).
        -- apply Hcons; lia.
        -- apply Hcons; simpl; lia.
    + destruct (bool_decide (c = Js.LF)).
      * apply Hcons; lia.
      * apply IH. lia.
Qed.

(** Every line feed of the text ends a line. *)
Lemma lineBreaks_after_LF n : ∀ s i j,
  String.length s ≤ n →
  String.get j s = Some Js.LF →
  (i + j + 1) ∈ TextDoc.lineBreaks i s.
Proof.
  induction n as [|n IH]; intros s i j Hn Hj.
  - destruct s; simpl in *; [by destruct j | lia].
  - destruct s as [|c r]; [by destruct j|]. simpl in Hn.
    cbn [TextDoc.lineBreaks].
    case_bool_decide as Hcr.
    + subst c. destruct j as [|j]; [simpl in Hj; inversion Hj|].
      simpl in Hj. destruct r as [|c' r']; [by destruct j|].
      simpl in Hn. case_bool_decide as Hlf.
      * destruct j as [|j].
        -- replace (i + 1 + 1) with (i + 2) by lia. left.
        -- simpl in Hj. right.
           replace (i + S (S j) + 1) with (i + 2 + j + 1) by lia.
           apply IH; [lia|done].
      * right. replace (i + S j + 1) with (i + 1 + j + 1) by lia.
        apply IH; [simpl; lia|done].
    + case_bool_decide as Hlf.
      * destruct j as [|j].
        -- replace (i + 0 + 1) with (i + 1) by lia. left.
        -- simpl in Hj. right. replace (i + S j + 1) with (i + 1 + j + 1) by lia.
           apply IH; [lia|done].
      * destruct j as [|j]; [simpl in Hj; congruence|].
        simpl in Hj. replace (i + S j + 1) with (i + 1 + j + 1) by lia.
        apply IH; [lia|done].
Qed.

Lemma sorted_nth_mono (l : list nat) : ∀ a b,
  StronglySorted lt l → a ≤ b → b < length l → nth a l 0 ≤ nth b l 0.
Proof.
  induction l as [|x l IH]; intros a b Hs Hab Hb; simpl in Hb; [lia|].
  apply StronglySorted_inv in Hs as [Hs Hx].
  destruct a as [|a], b as [|b]; simpl; [done| |lia|].
  - rewrite Forall_forall in Hx.
    assert (x < nth b l 0); [|lia].
    apply Hx, list_elem_of_In, nth_In. lia.
  - apply IH; [done|lia|lia].
Qed.

Lemma countChar_substring_0 c : ∀ s a n,
  (∀ j, a ≤ j < a + n → String.get j s ≠ Some c) →
  countChar c (String.substring a n s) = 0.
Proof.
  induction s as [|x r IH]; intros a n H.
  - by destruct a, n.
  - destruct a as [|a].
    + destruct n as [|n]; [done|]. cbn [String.substring countChar].
      rewrite bool_decide_false.
      * rewrite IH; [done|]. intros j Hj. apply (H (S j)). lia.
      * intros ->. apply (H 0); [lia|done].
    + cbn [String.substring]. apply IH. intros j Hj. apply (H (S j)). lia.
Qed.

(** The text from the start of the line of a position to the position, as
    [getBaseIndent] reads it, holds no line feed. *)
Lemma startLineText_no_LF (d : TextDocument) (pos : nat) :
  countChar Js.LF
    (TextDoc.getTextIn d
       {| start := {| line := line (TextDoc.positionAt d pos); character := 0 |};
          end_ := TextDoc.positionAt d pos |}) = 0.
Proof.
  pose proof (lineBreaks_bounds _ (content d) 0 (Nat.le_refl _)) as Hb.
  pose proof (lineBreaks_sorted _ (content d) 0 (Nat.le_refl _)) as Hsorted.
  unfold TextDoc.getTextIn, TextDoc.positionAt, TextDoc.offsetAt, TextDoc.getLineOffsets.
  cbn [start end_ line character].
  set (len := String.length (content d)) in *.
  set (p := Nat.min pos len).
  set (L := 0 :: TextDoc.lineBreaks 0 (content d)).
  assert (HL : StronglySorted lt L).
  { constructor; [done|]. eapply Forall_impl; [exact Hb|]. intros o [? _]. done. }
  set (low := TextDoc.searchLow L p).
  assert (Hlow1 : 1 ≤ low) by (unfold low, L; simpl; lia).
  assert (Hlow2 : low ≤ length L) by apply searchLow_le.
  set (lo := nth (low - 1) L 0).
  assert (Hlo : lo ≤ p) by (apply searchLow_before; unfold low in *; lia).
  assert (Hnext : low < length L → p < nth low L 0) by apply searchLow_at.
  assert (Hp : p ≤ len) by (unfold p; lia).
  destruct (length L <=? low - 1) eqn:E1; [apply Nat.leb_le in E1; lia|].
  replace (low - 1 + 1) with low by lia.
  assert (Hstart : Nat.max (Nat.min (lo + 0)
                              (if low <? length L then nth low L 0 else len)) lo = lo)
    by lia.
  assert (Hend : Nat.max (Nat.min (lo + (p - lo))
                            (if low <? length L then nth low L 0 else len)) lo = p).
  { destruct (low <? length L) eqn:E2.
    - apply Nat.ltb_lt in E2. specialize (Hnext E2). lia.
    - lia. }
  rewrite Hstart, Hend. unfold Js.substring. fold len.
  rewrite (Nat.min_l lo len), (Nat.min_l p len) by lia.
  rewrite (Nat.min_l lo p), (Nat.max_r lo p) by lia.
  apply countChar_substring_0. intros j Hj Hget.
  pose proof (lineBreaks_after_LF _ (content d) 0 j (Nat.le_refl _) Hget) as Hin.
  simpl in Hin.
  assert (HinL : In (j + 1) L) by (right; by apply list_elem_of_In).
  apply (In_nth _ _ 0) in HinL as (k & Hk & Hnth).
  destruct (decide (k < low)) as [Hlt|Hge].
  - pose proof (sorted_nth_mono L k (low - 1) HL ltac:(lia) ltac:(lia)). fold lo in H. lia.
  - assert (Hlt : low < length L) by lia.
    pose proof (sorted_nth_mono L low k HL ltac:(lia) Hk).
    specialize (Hnext Hlt). lia.
Qed.

Lemma getBaseIndent_no_LF (document : TextDocument) (pos : nat) :
  countChar Js.LF (getBaseIndent document pos) = 0.
Proof.
  pose proof (startLineText_no_LF document pos) as H.
  unfold getBaseIndent.
  set (t := TextDoc.getTextIn document _) in *.
  rewrite substring_prefix by lia.
  destruct (leading_white_space t) as [E _].
  rewrite <- E, countChar_app in H. lia.
Qed.

(** ** Lines kept by the reflow *)

Lemma join_split s c : Js.join (Js.split s c) (String c "") = s.
Proof.
  unfold Js.join. induction s as [|a r IH]; [done|].
  cbn [Js.split]. case_bool_decide as Hc.
  - subst a. pose proof (split_length r c) as Hlen.
    destruct (Js.split r c) as [|h t] eqn:E; [simpl in Hlen; lia|].
    change (String.concat (String c "") ("" :: h :: t))
      with (String c (String.concat (String c "") (h :: t))).
    by rewrite IH.
  - pose proof (split_length r c) as Hlen.
    destruct (Js.split r c) as [|h t] eqn:E; [simpl in Hlen; lia|].
    rewrite <- IH. destruct t; reflexivity.
Qed.

Lemma split_no_separator s c : Forall (fun l => countChar c l = 0) (Js.split s c).
Proof.
  induction s as [|a r IH]; [by repeat constructor|].
  cbn [Js.split]. case_bool_decide as Hc.
  - by constructor.
  - destruct (Js.split r c) as [|h t].
    + repeat constructor. simpl. by rewrite bool_decide_false.
    + apply Forall_cons in IH as [Hh Ht]. constructor; [|done].
      simpl. by rewrite bool_decide_false.
Qed.

Lemma countChar_join c (lines : list string) :
  Forall (fun l => countChar c l = 0) lines →
  countChar c (Js.join lines (String c "")) = length lines - 1.
Proof.
  unfold Js.join. induction 1 as [|l lines Hl Hlines IH]; [done|].
  destruct lines as [|l' lines].
  - simpl. lia.
  - change (String.concat (String c "") (l :: l' :: lines))
      with (l +:+ String c "" +:+ String.concat (String c "") (l' :: lines)).
    rewrite !countChar_app, IH, Hl. simpl. rewrite bool_decide_true by done. lia.
Qed.

Lemma withNewlines_bounds map_ data i oldText :
  countChar Js.LF (withNewlines map_ data i oldText) ≤ countChar Js.LF oldText + 2
  ∧ (insertFirstNewline data = false → insertFinalNewline data = false →
     withNewlines map_ data i oldText = oldText).
Proof.
  unfold withNewlines. split.
  - repeat match goal with |- context [if ?b then _ else _] => destruct b end;
      rewrite ?countChar_app; simpl; lia.
  - intros -> ->. reflexivity.
Qed.

Lemma reflowText_lines map_ initialIndent data firstLineIndent i oldText :
  countChar Js.LF firstLineIndent = 0 →
  countChar Js.LF initialIndent = 0 →
  countChar Js.LF (reflowText map_ initialIndent data firstLineIndent i oldText)
  = countChar Js.LF (withNewlines map_ data i oldText).
Proof.
  intros Hbase Hinit. unfold reflowText.
  set (lines := Js.split (withNewlines map_ data i oldText) Js.LF).
  set (inner := indentInterior (firstLineIndent +:+ initialIndent) lines).
  change Js.nl with (String Js.LF "").
  rewrite countChar_join.
  - rewrite indentLast_length. unfold inner. rewrite indentInterior_length.
    unfold lines. rewrite split_length. lia.
  - apply Forall_lookup. intros k x Hx.
    rewrite indentLast_lookup in Hx. unfold inner in Hx.
    rewrite indentInterior_lookup in Hx.
    destruct (lines !! k) as [l|] eqn:Hl; [|done]. simpl in Hx. inversion Hx; subst x.
    assert (Hzero : countChar Js.LF l = 0).
    { pose proof (split_no_separator (withNewlines map_ data i oldText) Js.LF) as Hall.
      rewrite Forall_lookup in Hall. by apply (Hall k). }
    unfold interiorLine.
    repeat case_bool_decide; rewrite ?countChar_app; lia.
Qed.

(** The reflow keeps the lines of a mapping: when the nested indent holds no
    line feed, the text of the pushed edit has as many line feeds as the text
    after the optional newline insertions, that is as many as the original
    text when no newline flag is set, and at most two more otherwise. *)
Theorem reflow_keeps_the_lines
    (document : TextDocument) (map_ : SourceMap) (initialIndent : string)
    (data : DocumentFormatting) (i : nat) (mapping : Mapping) (e : TextEdit) :
  countChar Js.LF initialIndent = 0 →
  patchMapping document map_ initialIndent data i mapping = Some e →
  let oldText :=
    Js.substring (TextDoc.getText document) (sourceRange mapping).1 (sourceRange mapping).2 in
  countChar Js.LF (newText e) = countChar Js.LF (withNewlines map_ data i oldText)
  ∧ countChar Js.LF oldText ≤ countChar Js.LF (newText e)
  ∧ countChar Js.LF (newText e) ≤ countChar Js.LF oldText + 2
  ∧ (insertFirstNewline data = false → insertFinalNewline data = false →
     countChar Js.LF (newText e) = countChar Js.LF oldText).
Proof.
  intros Hinit Hpush oldText. unfold patchMapping in Hpush. fold oldText in Hpush.
  destruct (bool_decide (Js.indexOf oldText Js.nl = (-1)%Z)); [done|].
  destruct (bool_decide (_ ≠ oldText)); [|done].
  inversion Hpush; subst e. cbn [newText].
  rewrite reflowText_lines by (done || apply getBaseIndent_no_LF).
  pose proof (withNewlines_count map_ data i oldText).
  destruct (withNewlines_bounds map_ data i oldText) as [Hup Hsame].
  split; [done|]. split; [done|]. split; [done|].
  intros H1 H2. by rewrite Hsame.
Qed.

Lemma reflow_keeps_the_lines_witness :
  countChar Js.LF Example_reflow.produced = countChar Js.LF Example_reflow.body.
Proof.
  assert (H1 : countChar Js.LF "  " = 0) by reflexivity.
  assert (H2 : patchMapping Example_reflow.outer Example_reflow.sourceMap "  "
                 (FormattingFlag true) 0 Example_reflow.mapping
               = Some {| range := {| start := {| line := 0; character := 5 |};
                                     end_ := {| line := 2; character := 1 |} |};
                         newText := Example_reflow.produced |})
    by (vm_compute; reflexivity).
  destruct (reflow_keeps_the_lines Example_reflow.outer Example_reflow.sourceMap "  "
              (FormattingFlag true) 0 Example_reflow.mapping _ H1 H2) as (_ & _ & _ & H).
  exact (H eq_refl eq_refl).
Defined.

(** ** Regions embedded at the start of a line *)

Lemma omap_none_all {A B} (f : A → option B) (l : list A) :
  (∀ x, x ∈ l → f x = None) → omap f l = [].
Proof.
  induction l as [|x l IH]; intros H; [done|].
  cbn [omap list_omap]. rewrite (H x) by left. apply IH. intros y Hy. apply H. by right.
Qed.

Lemma indent_by_nothing (lines : list string) :
  indentLast "" (indentInterior "" lines) = lines.
Proof.
  apply list_eq. intros k.
  rewrite indentLast_lookup, indentInterior_lookup.
  destruct (lines !! k) as [l|]; [|done]. simpl. f_equal.
  unfold interiorLine. by repeat case_bool_decide.
Qed.

(** With no nested indent and no newline flag, the reflow has nothing to do
    for mappings that start on a line without leading white space: the pass
    returns no edit. *)
Theorem reflow_without_indent_changes_nothing
    (document : TextDocument) (map_ : SourceMap) (data : DocumentFormatting) :
  insertFirstNewline data = false →
  insertFinalNewline data = false →
  (∀ m, m ∈ mappings map_ → getBaseIndent document (sourceRange m).1 = "") →
  patchInterpolationIndent document map_ "" data = [].
Proof.
  intros Hfirst Hfinal Hbase. rewrite patchInterpolationIndent_turns.
  apply omap_none_all. intros [i m] Hin. cbn [fst snd].
  apply elem_of_lookup_imap in Hin as (j & m' & E & Hl). inversion E; subst j m'.
  unfold patchMapping. rewrite Hbase by (apply list_elem_of_lookup; eauto).
  destruct (bool_decide (Js.indexOf _ Js.nl = (-1)%Z)); [done|].
  unfold reflowText.
  rewrite (proj2 (withNewlines_bounds map_ data i _) Hfirst Hfinal).
  change ("" +:+ "") with "". rewrite indent_by_nothing.
  change Js.nl with (String Js.LF ""). rewrite join_split.
  by rewrite bool_decide_false by (intros H; by apply H).
Qed.

Lemma reflow_without_indent_changes_nothing_witness :
  patchInterpolationIndent Example_request.doc
    {| mappings := [Example_request.m1; Example_request.m2] |} "" (FormattingFlag true)
  = [].
Proof.
  apply reflow_without_indent_changes_nothing; [reflexivity | reflexivity |].
  intros m Hm. cbn [mappings] in Hm.
  apply elem_of_cons in Hm as [->|Hm]; [vm_compute; reflexivity|].
  apply list_elem_of_singleton in Hm as ->. vm_compute. reflexivity.
Defined.

(** ** The edits of the reflow and the mappings *)

Lemma patchMapping_pushes document map_ initialIndent data i mapping e :
  patchMapping document map_ initialIndent data i mapping = Some e →
  range e = {| start := TextDoc.positionAt document (sourceRange mapping).1;
               end_ := TextDoc.positionAt document (sourceRange mapping).2 |}
  ∧ 0 < countChar Js.LF
          (Js.substring (TextDoc.getText document)
             (sourceRange mapping).1 (sourceRange mapping).2)
  ∧ newText e ≠ Js.substring (TextDoc.getText document)
                  (sourceRange mapping).1 (sourceRange mapping).2.
Proof.
  unfold patchMapping. case_bool_decide as Hnl; [done|].
  case_bool_decide as Hnew; [|done].
  intros E. inversion E; subst e. cbn [range newText].
  split; [done|]. split; [by apply indexOf_countChar | done].
Qed.

Lemma omap_imap_sublist {A B C} (f : nat → A → option B) (g : A → C) (h : B → C) :
  (∀ i a b, f i a = Some b → h b = g a) →
  ∀ (l : list A) (j : nat → nat),
    h <$> omap (fun ia => f ia.1 ia.2) (imap (fun i a => (j i, a)) l)
    `sublist_of` g <$> l.
Proof.
  intros Hf. induction l as [|a l IH]; intros j; [constructor|].
  rewrite imap_cons. cbn [omap list_omap fst snd].
  specialize (IH (j ∘ S)).
  change (imap ((fun i a => (j i, a)) ∘ S) l) with (imap (fun i a => ((j ∘ S) i, a)) l).
  destruct (f (j 0) a) as [b|] eqn:E.
  - rewrite !fmap_cons, (Hf _ _ _ E). by constructor.
  - rewrite fmap_cons. by constructor.
Qed.

(** The reflow edits nothing but mapped regions: the ranges of the edits it
    returns are, in the order of the mappings, ranges that mappings of the
    map cover in the document; each edit replaces the text of a mapping that
    spans several lines, and by a different text. *)
Theorem reflow_edits_follow_the_mappings
    (document : TextDocument) (map_ : SourceMap) (initialIndent : string)
    (data : DocumentFormatting) :
  let covered := fun m : Mapping =>
    {| start := TextDoc.positionAt document (sourceRange m).1;
       end_ := TextDoc.positionAt document (sourceRange m).2 |} in
  let oldTextOf := fun m : Mapping =>
    Js.substring (TextDoc.getText document) (sourceRange m).1 (sourceRange m).2 in
  range <$> patchInterpolationIndent document map_ initialIndent data
    `sublist_of` covered <$> mappings map_
  ∧ ∀ e, e ∈ patchInterpolationIndent document map_ initialIndent data →
      ∃ i m, mappings map_ !! i = Some m
             ∧ range e = covered m
             ∧ 0 < countChar Js.LF (oldTextOf m)
             ∧ newText e ≠ oldTextOf m.
Proof.
  intros covered oldTextOf. rewrite patchInterpolationIndent_turns. split.
  - apply (omap_imap_sublist (patchMapping document map_ initialIndent data)
             covered range).
    intros i m e E. by apply patchMapping_pushes in E as (? & _).
  - intros e He. apply list_elem_of_omap in He as ([i m] & Hin & E).
    apply elem_of_lookup_imap in Hin as (j & m' & Eq & Hl). inversion Eq; subst j m'.
    cbn [fst snd] in E. apply patchMapping_pushes in E as (? & ? & ?).
    by exists i, m.
Qed.

(** ** What the operation can throw, and the working document *)

Lemma ends_ret {A} (Q : A → Prop) P (a : A) : Q a → ends Q P (ret a).
Proof. intros H w. exact H. Qed.

Lemma ends_bind {A B} (Q' : A → Prop) (Q : B → Prop) P (m : M A) (k : A → M B) :
  ends Q' P m → (∀ a, Q' a → ends Q P (k a)) → ends Q P (bind m k).
Proof.
  intros Hm Hk w. specialize (Hm w). rewrite bind_run.
  destruct (m w) as [[a|err|] w']; simpl in *; [|done|done].
  apply (Hk a Hm w').
Qed.

Lemma ends_forOf {A L} (I : L → Prop) P (xs : list A) (body : L → A → M L) :
  (∀ acc x, I acc → ends I P (body acc x)) →
  ∀ acc, I acc → ends I P (forOf xs body acc).
Proof.
  intros Hbody. induction xs as [|x xs IH]; intros acc HI.
  - by apply ends_ret.
  - cbn [forOf]. eapply ends_bind; [by apply Hbody|]. intros acc' HI'. by apply IH.
Qed.

(** A call that always returns ends as one pleases when it throws. *)
Lemma ends_returns {A} P (m : M A) :
  (∀ w, ∃ a w', m w = (Returns a, w')) → ends (fun _ => True) P m.
Proof. intros H w. by destruct (H w) as (a & w' & ->). Qed.

Lemma applyEdits_throws d batch err :
  TextEdits.applyEdits d batch = Throw err → err = "Overlapping edit".
Proof.
  unfold TextEdits.applyEdits.
  generalize (stableSort TextEdits.compareStart (TextEdits.getWellformedEdit <$> batch)).
  generalize 0 (@nil string).
  intros o spans l. revert o spans.
  induction l as [|e l IH]; intros o spans; cbn [TextEdits.applySorted]; [done|].
  destruct (_ <? o); [by intros [= <-]|]. apply IH.
Qed.

Section Working.
Variable ctx : LanguageServicePluginContext.
Variable options : FormattingOptions.
Variable range_ : Range.
Variable onTypeParams : option OnTypeParams.
Variable document0 : TextDocument.

Local Abbreviation thrown :=
  (fun err : string =>
     err = "Overlapping edit" ∨ baseIndentOf ctx options = Throw err).

Lemma ends_applyBatch locals batch :
  workingInv document0 locals →
  ends (workingInv document0) thrown (applyBatch ctx locals batch).
Proof using Type.
  intros (Hu & Hl & Hv) w. unfold applyBatch. rewrite bind_run. unfold liftCompletion.
  destruct (TextEdits.applyEdits (document locals) batch) as [newText|err] eqn:E.
  - unfold workingInv, TextDoc.create. cbn. split; [done|]. split; [done|].
    destruct (edited locals); [lia | rewrite Hv; lia].
  - cbn. left. by apply applyEdits_throws in E.
Qed.

Lemma ends_reflowLevel cfg uris locals :
  workingInv document0 locals →
  ends (workingInv document0) thrown (reflowLevel ctx options cfg uris locals).
Proof using Type.
  intros HI0. unfold reflowLevel. eapply (ends_bind (fun _ => True)).
  { intros w. unfold liftCompletion.
    destruct (baseIndentOf ctx options) as [baseIndent|err] eqn:E; [done|].
    cbn. by right. }
  intros baseIndent _. revert locals HI0. apply ends_forOf. intros acc u HI.
  eapply (ends_bind (fun _ => True)); [by intros w|].
  intros found _. revert acc HI. apply ends_forOf. intros acc e HI.
  unfold reflowMap. destruct (0 <? length _); [by apply ends_applyBatch | by apply ends_ret].
Qed.

Lemma ends_formatLevel document files lv :
  ends (fun _ => True) thrown
    (forOf files (formatEmbedded ctx options range_ onTypeParams document) lv).
Proof using Type.
  apply (ends_forOf (fun _ => True)); [|done]. intros acc x _. apply ends_returns. intros w.
  destruct (formatEmbedded_returns ctx options range_ onTypeParams document acc x w)
    as (l' & w' & -> & _). eauto.
Qed.

Lemma ends_levelLoop cfg rootFile : ∀ fuel level locals,
  workingInv document0 locals →
  ends (workingInv document0) thrown
    (levelLoop ctx options range_ onTypeParams fuel cfg rootFile level locals).
Proof using Type.
  induction fuel as [|fuel IH]; intros level locals HI; [by intros w|].
  cbn [levelLoop]. eapply (ends_bind (fun _ => True)); [by intros w|].
  intros files _. case_bool_decide; [by apply ends_ret|].
  eapply ends_bind; [apply ends_formatLevel|]. intros lv _.
  eapply (ends_bind (workingInv document0)).
  { destruct (0 <? length (edits lv)); [by apply ends_applyBatch | by apply ends_ret]. }
  intros locals1 HI1.
  eapply (ends_bind (workingInv document0)).
  { destruct (1 <? level + 1); [by apply ends_reflowLevel | by apply ends_ret]. }
  intros locals2 HI2. by apply IH.
Qed.
End Working.

Lemma workingInv_start document0 :
  workingInv document0 {| document := document0; edited := false |}.
Proof. by repeat split. Qed.

(** A provider that answers with two edits of one range makes the request
    throw. *)
Example overlapping_batch_is_thrown :
  (register Example_overlap.ctx 3 "a.vue" Example_request.options None None
     Example_request.world).1
  = Throws "Overlapping edit".
Proof. vm_compute. reflexivity. Qed.

(** Options with a negative tab size make the request throw once a level
    above the first is reached. *)
Example invalid_tab_size_is_thrown :
  (register Example_request.ctx 3 "a.vue"
     {| tabSize := Js.Integer (-1); insertSpaces := true |} None None
     Example_request.world).1
  = Throws Js.RangeError.
Proof. vm_compute. reflexivity. Qed.


(** When the level loop of a request on a document returns, the working
    document has the URI and the language of the original one; with [edited]
    unset it is the original document itself, and with [edited] set its
    version is a later one. *)
Theorem level_loop_keeps_the_working_document
    (ctx : LanguageServicePluginContext) (options : FormattingOptions)
    (range_ : Range) (onTypeParams : option OnTypeParams) (fuel : nat)
    (cfg : gmap string bool) (rootFile : VirtualFile) (document0 : TextDocument)
    (w : World) :
  match (levelLoop ctx options range_ onTypeParams fuel cfg rootFile 0
           {| document := document0; edited := false |} w).1 with
  | Returns final =>
      uri (document final) = uri document0
      ∧ languageId (document final) = languageId document0
      ∧ (edited final = false → document final = document0)
      ∧ (edited final = true → version document0 < version (document final))
  | _ => True
  end.
Proof.
  pose proof (ends_levelLoop ctx options range_ onTypeParams document0 cfg rootFile
                fuel 0 _ (workingInv_start document0) w) as H.
  destruct (levelLoop _ _ _ _ _ _ _ _ _ w).1 as [final| |]; [|done|done].
  destruct H as (Hu & Hl & Hv). split; [done|]. split; [done|].
  split; intros E; by rewrite E in Hv.
Qed.

(** ** The returned edit applied to the original document *)

Lemma substring_nothing s : ∀ n, String.substring n 0 s = "".
Proof. induction s as [|c s IH]; intros [|n]; simpl; auto. Qed.

Lemma applyEdits_replace_all d t :
  TextEdits.applyEdits d
    [{| range := {| start := {| line := 0; character := 0 |};
                    end_ := TextDoc.positionAt d (String.length (content d)) |};
        newText := t |}]
  = Normal t.
Proof.
  unfold TextEdits.applyEdits.
  cbn [fmap list_fmap stableSort insertSorted].
  unfold TextEdits.getWellformedEdit, TextEdits.getWellformedRange.
  cbn [range start end_ line character newText].
  set (e := TextDoc.positionAt d (String.length (content d))).
  assert (E1 : (line e <? 0) = false) by (apply Nat.ltb_ge; lia).
  assert (E2 : (character e <? 0) = false) by (apply Nat.ltb_ge; lia).
  rewrite E1, E2, andb_false_r. subst e.
  cbn [orb TextEdits.applySorted range start end_ newText].
  rewrite (proj2 (positionAt_0 d)), offsetAt_end.
  cbn [Nat.ltb Nat.leb].
  unfold Js.substr. rewrite Nat.sub_diag, substring_nothing.
  destruct t as [|c t]; [reflexivity|].
  cbn [String.length Nat.ltb Nat.leb app Js.join String.concat].
  assert (Hnil : ∀ s : string, s +:+ "" = s) by (intros s; induction s as [|a s IH]; [done|];
        change (String a (s +:+ "") = String a s); by rewrite IH).
  by rewrite !Hnil.
Qed.

(** The edit a request returns rebuilds the accumulated text: when the level
    loop returns with the document [final], applying the returned list of
    edits to the original document gives the text of [final]; and when
    nothing is returned, the text of [final] is the original text. *)
Theorem returned_edit_rebuilds_the_text
    (ctx : LanguageServicePluginContext) (fuel : nat) (uri_ : string)
    (options : FormattingOptions) (requested : option Range)
    (onTypeParams : option OnTypeParams) (w : World)
    (document0 : TextDocument) (source : Source) :
  getTextDocument ctx uri_ = Some document0 →
  sourceFiles w !! uriToFileName ctx (uri document0) = Some source →
  match levelLoop ctx options
          (default (Range_create (TextDoc.positionAt document0 0)
                      (TextDoc.positionAt document0
                         (String.length (TextDoc.getText document0)))) requested)
          onTypeParams fuel (default {[ "html" := true ]} (getConfiguration ctx))
          (root source) 0 {| document := document0; edited := false |} w with
  | (Returns final, _) =>
      match (register ctx fuel uri_ options requested onTypeParams w).1 with
      | Returns (Some textEdits) =>
          TextEdits.applyEdits document0 textEdits = Normal (content (document final))
      | Returns None => content (document final) = content document0
      | _ => False
      end
  | _ => True
  end.
Proof.
  intros Hdoc Hsrc.
  pose proof (register_tree ctx fuel uri_ options requested onTypeParams w
                document0 source Hdoc Hsrc) as H.
  destruct (levelLoop _ _ _ _ _ _ _ _ _ w) as [[final|err|] w1]; [|done|done].
  destruct H as (w' & -> & _). cbn [fst].
  case_bool_decide as E; [done|]. apply applyEdits_replace_all.
Qed.

Lemma returned_edit_rebuilds_the_text_witness :
  match levelLoop Example_request.ctx Example_request.options
          (default (Range_create (TextDoc.positionAt Example_request.doc 0)
                      (TextDoc.positionAt Example_request.doc
                         (String.length (TextDoc.getText Example_request.doc)))) None)
          None 3 (default {[ "html" := true ]} (getConfiguration Example_request.ctx))
          (root {| snapshot := Example_request.text; root := Example_request.tree |}) 0
          {| document := Example_request.doc; edited := false |}
          Example_request.world with
  | (Returns final, _) =>
      match (register Example_request.ctx 3 "a.vue" Example_request.options None None
               Example_request.world).1 with
      | Returns (Some textEdits) =>
          TextEdits.applyEdits Example_request.doc textEdits
          = Normal (content (document final))
      | Returns None => content (document final) = content Example_request.doc
      | _ => False
      end
  | _ => True
  end.
Proof.
  assert (H1 : getTextDocument Example_request.ctx "a.vue" = Some Example_request.doc)
    by reflexivity.
  assert (H2 : sourceFiles Example_request.world
                 !! uriToFileName Example_request.ctx (uri Example_request.doc)
               = Some {| snapshot := Example_request.text; root := Example_request.tree |})
    by (vm_compute; reflexivity).
  exact (returned_edit_rebuilds_the_text Example_request.ctx 3 "a.vue"
           Example_request.options None None Example_request.world
           Example_request.doc
           {| snapshot := Example_request.text; root := Example_request.tree |}
           H1 H2).
Defined.

(** ** The newline flags *)

Lemma split_snoc s c : Js.split (s +:+ String c "") c = Js.split s c ++ [""].
Proof.
  induction s as [|a r IH].
  - change ("" +:+ String c "") with (String c ""). cbn [Js.split].
    by rewrite bool_decide_true.
  - change (String a r +:+ String c "") with (String a (r +:+ String c "")).
    cbn [Js.split]. rewrite IH. case_bool_decide; [done|].
    pose proof (split_length r c) as Hlen.
    by destruct (Js.split r c) as [|h t]; [simpl in Hlen; lia|].
Qed.

Lemma startsWith_nl s : Js.startsWith s Js.nl = true → ∃ r, s = String Js.LF r.
Proof.
  unfold Js.startsWith, Js.nl. destruct s as [|a r]; [done|].
  cbn [String.prefix].
  destruct (Ascii.ascii_dec Js.LF a) as [<-|]; [eauto | done].
Qed.

Lemma last_character s :
  1 ≤ String.length s →
  ∃ r c, s = r +:+ String c "" ∧ String.substring (String.length s - 1) 1 s = String c "".
Proof.
  induction s as [|a r IH]; [simpl; lia|]. intros _.
  destruct r as [|b r'].
  - by exists "", a.
  - destruct IH as (r0 & c & E & Hsub); [simpl; lia|].
    exists (String a r0), c. rewrite E at 1. split; [done|].
    replace (String.length (String a (String b r')) - 1)
      with (S (String.length (String b r') - 1)) by (simpl; lia).
    exact Hsub.
Qed.

Lemma endsWith_nl s : Js.endsWith s Js.nl = true → ∃ r, s = r +:+ Js.nl.
Proof.
  unfold Js.endsWith, Js.nl. cbn [String.length].
  destruct (1 <=? String.length s) eqn:L; [|done]. apply Nat.leb_le in L.
  destruct (last_character s L) as (r & c & E & ->).
  case_bool_decide as Ec; [|done]. intros _. exists r. by rewrite <- Ec.
Qed.

Lemma string_app_assoc (a b c : string) : (a +:+ b) +:+ c = a +:+ (b +:+ c).
Proof.
  induction a as [|x a IH]; [done|].
  change (String x ((a +:+ b) +:+ c) = String x (a +:+ (b +:+ c))). by rewrite IH.
Qed.

Lemma join_cons_cons l l' ls sep :
  Js.join (l :: l' :: ls) sep = l +:+ sep +:+ Js.join (l' :: ls) sep.
Proof. reflexivity. Qed.

Lemma join_snoc ls l sep :
  ls ≠ [] → Js.join (ls ++ [l]) sep = Js.join ls sep +:+ sep +:+ l.
Proof.
  induction ls as [|x ls IH]; [done|]. intros _.
  destruct ls as [|y ls].
  - reflexivity.
  - change ((x :: y :: ls) ++ [l]) with (x :: y :: (ls ++ [l])).
    rewrite !join_cons_cons.
    change (y :: ls ++ [l]) with ((y :: ls) ++ [l]). rewrite IH by done.
    by rewrite !string_app_assoc.
Qed.

Section Newlines.
Variable document : TextDocument.
Variable map_ : SourceMap.
Variable initialIndent : string.
Variable data : DocumentFormatting.
Variable firstLineIndent : string.
Variable i : nat.

(** The first line of a text of several lines is left as it is. *)
Lemma reflowText_first_line oldText r :
  withNewlines map_ data i oldText = String Js.LF r →
  Js.startsWith (reflowText map_ initialIndent data firstLineIndent i oldText) Js.nl = true.
Proof.
  intros E. unfold reflowText. rewrite E. cbn [Js.split]. rewrite bool_decide_true by done.
  set (lines := "" :: Js.split r Js.LF).
  set (out := indentLast firstLineIndent
                (indentInterior (firstLineIndent +:+ initialIndent) lines)).
  assert (Hlen : 2 ≤ length lines).
  { unfold lines. cbn [length]. rewrite split_length. lia. }
  assert (Hout : length out = length lines).
  { unfold out. by rewrite indentLast_length, indentInterior_length. }
  assert (H0 : out !! 0 = Some "").
  { unfold out. rewrite indentLast_lookup, indentInterior_lookup, indentInterior_length.
    change (lines !! 0) with (Some ""). cbn [fmap option_fmap option_map].
    unfold interiorLine. rewrite bool_decide_false by (intros H; decompose [and] H; lia).
    fold lines. by rewrite bool_decide_false by lia. }
  clearbody out lines.
  destruct out as [|x [|y out']]; [simpl in Hout; lia | simpl in Hout; lia |].
  inversion H0; subst x. rewrite join_cons_cons.
  change (Js.startsWith (String Js.LF (Js.join (y :: out') Js.nl)) (String Js.LF "") = true).
  unfold Js.startsWith. cbn [String.prefix].
  destruct (Ascii.ascii_dec Js.LF Js.LF); [|done].
  by destruct (Js.join (y :: out') Js.nl).
Qed.

(** The last line of a text that ends with a line break is the base indent. *)
Lemma reflowText_last_line oldText r :
  withNewlines map_ data i oldText = r +:+ Js.nl →
  ∃ body,
    reflowText map_ initialIndent data firstLineIndent i oldText
    = body +:+ Js.nl +:+ firstLineIndent.
Proof.
  intros E. unfold reflowText. rewrite E. unfold Js.nl at 1. rewrite split_snoc.
  set (pre := Js.split r Js.LF).
  assert (Hpre : 1 ≤ length pre) by (unfold pre; rewrite split_length; lia).
  set (inner := indentInterior (firstLineIndent +:+ initialIndent) (pre ++ [""])).
  assert (Hin : length inner = length pre + 1).
  { unfold inner. rewrite indentInterior_length, length_app. simpl. lia. }
  assert (Hlk : ∀ k, inner !! k
                     = interiorLine (firstLineIndent +:+ initialIndent) 1
                         (length pre + 1 - 2) k <$> (pre ++ [""]) !! k).
  { intros k. unfold inner. rewrite indentInterior_lookup, length_app.
    by cbn [length]. }
  assert (Hnil : ∀ s : string, s +:+ "" = s)
    by (intros s; induction s as [|a s IH]; [done|];
        change (String a (s +:+ "") = String a s); by rewrite IH).
  assert (Hlast : indentLast firstLineIndent inner
                  = take (length pre) inner ++ [firstLineIndent]).
  { apply list_eq. intros k. rewrite indentLast_lookup, Hin.
    destruct (decide (k < length pre)) as [Hk|Hk].
    - rewrite lookup_app_l by (rewrite length_take; lia).
      rewrite lookup_take_lt by done.
      destruct (inner !! k) as [l|]; [|done]. simpl.
      by rewrite bool_decide_false by lia.
    - rewrite lookup_app_r by (rewrite length_take; lia).
      rewrite length_take, Hin.
      replace (length pre `min` (length pre + 1)) with (length pre) by lia.
      rewrite Hlk, lookup_app_r by lia.
      destruct (k - length pre) as [|j] eqn:Ej.
      + cbn. unfold interiorLine.
        rewrite bool_decide_true by lia.
        rewrite bool_decide_false by (intros H; decompose [and] H; congruence).
        by rewrite Hnil.
      + by destruct j. }
  rewrite Hlast. rewrite join_snoc.
  - eauto.
  - intros Hempty. apply (f_equal length) in Hempty. rewrite length_take in Hempty.
    simpl in Hempty. lia.
Qed.
End Newlines.

(** The newline flags show in the edit the reflow pushes: with the first
    flag set, the new text of the first mapping starts with a line break;
    with the final flag set, the new text of the last mapping ends with a
    line break followed by the base indent of the mapping. *)
Theorem newline_flags_shape_the_edit
    (document : TextDocument) (map_ : SourceMap) (initialIndent : string)
    (data : DocumentFormatting) (i : nat) (mapping : Mapping) (e : TextEdit) :
  patchMapping document map_ initialIndent data i mapping = Some e →
  (insertFirstNewline data = true → i = 0 → Js.startsWith (newText e) Js.nl = true)
  ∧ (insertFinalNewline data = true → i = length (mappings map_) - 1 →
     ∃ body, newText e = body +:+ Js.nl +:+ getBaseIndent document (sourceRange mapping).1).
Proof.
  unfold patchMapping.
  set (oldText := Js.substring _ _ _).
  destruct (bool_decide (Js.indexOf oldText Js.nl = (-1)%Z)); [done|].
  destruct (bool_decide (_ ≠ oldText)); [|done].
  intros E. inversion E; subst e. cbn [newText]. split.
  - intros Hflag ->.
    assert (∃ r, withNewlines map_ data 0 oldText = String Js.LF r) as [r Hr].
    { unfold withNewlines. rewrite Hflag. rewrite (bool_decide_true (0 = 0)) by done.
      cbn [andb].
      destruct (Js.startsWith oldText Js.nl) eqn:Hs.
      - apply startsWith_nl in Hs as [r ->]. cbn [negb].
        destruct (_ && _ && _); eauto.
      - cbn [negb]. destruct (_ && _ && _); eauto. }
    by eapply reflowText_first_line.
  - intros Hflag ->.
    assert (∃ r, withNewlines map_ data (length (mappings map_) - 1) oldText
                 = r +:+ Js.nl) as [r Hr].
    { unfold withNewlines. rewrite Hflag. rewrite (bool_decide_true (_ = _ - 1)) by done.
      cbn [andb].
      destruct (Js.endsWith _ Js.nl) eqn:Hs.
      - by apply endsWith_nl in Hs.
      - cbn [negb]. eauto. }
    by eapply reflowText_last_line.
Qed.

Lemma newline_flags_shape_the_edit_witness :
  ∃ e, patchMapping Example_request.doc {| mappings := [Example_request.m1] |} ""
         Example_request.newlines 0 Example_request.m1 = Some e
       ∧ Js.startsWith (newText e) Js.nl = true
       ∧ ∃ body, newText e = body +:+ Js.nl +:+ getBaseIndent Example_request.doc 3.
Proof.
  eexists. split; [vm_compute; reflexivity|].
  match goal with
  | |- Js.startsWith (newText ?e) _ = _ ∧ _ =>
      assert (H : patchMapping Example_request.doc {| mappings := [Example_request.m1] |} ""
                    Example_request.newlines 0 Example_request.m1 = Some e)
        by (vm_compute; reflexivity);
      destruct (newline_flags_shape_the_edit _ _ _ _ _ _ _ H) as [H1 H2]
  end.
  split; [exact (H1 eq_refl eq_refl) | exact (H2 eq_refl eq_refl)].
Defined.

(** ** Providers that yield no result *)

Section Declined.
Variable ctx : LanguageServicePluginContext.
Variable options : FormattingOptions.
Variable range_ : Range.
Variable onTypeParams : option OnTypeParams.
Hypothesis declined : ∀ plugin d target c,
  plugin ∈ plugins ctx → noResult options d target c plugin.

Lemma tryFormat_declined d target c w :
  ∃ log, tryFormat ctx options d target c w = (Returns None, logged w log).
Proof using declined.
  unfold tryFormat.
  destruct (tryFormatFrom_spec options d target c (plugins ctx) w)
    as [(pre & q & post & es & Hps & _ & Hq & _)|[_ ->]]; [|eauto].
  pose proof (declined q d target c) as Hno. unfold noResult in Hno. rewrite Hq in Hno.
  destruct Hno. rewrite Hps. apply elem_of_app. right. left.
Qed.

Lemma formatEmbedded_declined document locals embedded w :
  edits locals = [] → toPatchIndentUris locals = [] →
  ∃ locals' w',
    formatEmbedded ctx options range_ onTypeParams document locals embedded w
    = (Returns locals', w')
    ∧ edits locals' = [] ∧ toPatchIndentUris locals' = []
    ∧ sameSources w w'.
Proof using declined.
  intros He Hp. unfold formatEmbedded.
  destruct (negb (truthy (documentFormatting (capabilities embedded)))).
  { exists locals, w. by repeat split. }
  rewrite bind_run. unfold getMapsByVirtualFileName at 1. cbv beta.
  destruct (List.find _ _) as [[ref [file m]]|].
  2:{ exists locals, w. by repeat split. }
  destruct onTypeParams as [params|].
  - destruct (toGeneratedPosition ctx m (position params)) as [p|].
    + rewrite !bind_run.
      destruct (tryFormat_declined (virtualFileDocument m) (IsPosition p)
                  (Some (ch params)) w) as (log & ->).
      unfold ret. eexists _, _. split; [reflexivity|]. simpl. rewrite He, Hp.
      split; [done|]. split; [done|]. apply sameSources_logged.
    + rewrite bind_run. unfold ret. eexists _, _. split; [reflexivity|]. simpl.
      rewrite He, Hp. split; [done|]. split; [done|]. apply sameSources_refl.
  - rewrite !bind_run.
    destruct (virtualCodeRangeOf_returns ctx range_ document ref m w)
      as (vr & m' & w1 & -> & H1).
    rewrite bind_run.
    destruct vr as [r|].
    + destruct (tryFormat_declined (virtualFileDocument m') (IsRange r) None w1)
        as (log & ->).
      unfold ret. eexists _, _. split; [reflexivity|]. simpl. rewrite He, Hp.
      split; [done|]. split; [done|].
      eapply sameSources_trans; [exact H1 | apply sameSources_logged].
    + unfold ret. eexists _, _. split; [reflexivity|]. simpl. rewrite He, Hp.
      by repeat split; try apply H1.
Qed.

Lemma forOf_declined document files : ∀ locals w,
  edits locals = [] → toPatchIndentUris locals = [] →
  ∃ locals' w',
    forOf files (formatEmbedded ctx options range_ onTypeParams document) locals w
    = (Returns locals', w')
    ∧ edits locals' = [] ∧ toPatchIndentUris locals' = []
    ∧ sameSources w w'.
Proof using declined.
  induction files as [|f files IH]; intros locals w He Hp.
  - exists locals, w. split; [reflexivity|]. by repeat split.
  - cbn [forOf]. rewrite bind_run.
    destruct (formatEmbedded_declined document locals f w He Hp)
      as (l1 & w1 & -> & He1 & Hp1 & Hs1).
    destruct (IH l1 w1 He1 Hp1) as (l2 & w2 & -> & He2 & Hp2 & Hs2).
    exists l2, w2. split; [reflexivity|]. split; [done|]. split; [done|].
    by eapply sameSources_trans.
Qed.

Lemma levelLoop_declined cfg rootFile :
  depth rootFile = 0 ∨ (∃ baseIndent, baseIndentOf ctx options = Normal baseIndent) →
  ∀ fuel level locals w,
  level ≤ depth rootFile + 1 →
  depth rootFile + 2 - level ≤ fuel →
  ∃ w', levelLoop ctx options range_ onTypeParams fuel cfg rootFile level locals w
        = (Returns locals, w')
        ∧ sourceFiles w' = sourceFiles w.
Proof using declined.
  intros Hindent.
  induction fuel as [|fuel IH]; intros level locals w Hlevel Hfuel; [lia|].
  cbn [levelLoop]. rewrite bind_run. unfold queryLevel at 1. cbv beta.
  rewrite getEmbeddedFilesByLevel_regionsAtDepth.
  set (w1 := {| sourceFiles := sourceFiles w; maps := maps w; console := console w;
                levelQueries := levelQueries w ++ [level] |}).
  case_bool_decide as Hempty.
  - exists w1. by split.
  - assert (level ≤ depth rootFile).
    { apply Nat.nlt_ge. intros Hlt. apply Hempty.
      apply regionsAtDepth_empty in Hlt. by rewrite Hlt. }
    rewrite bind_run.
    destruct (forOf_declined (document locals) (regionsAtDepth level rootFile)
                {| edits := []; toPatchIndentUris := [] |} w1 eq_refl eq_refl)
      as (lv & w2 & -> & He & Hp & Hs2 & _).
    rewrite He, Hp. change (0 <? length (@nil TextEdit)) with false. cbv iota.
    rewrite bind_run. change (ret locals w2) with (Returns locals, w2). cbv iota beta.
    rewrite bind_run.
    assert (Hreflow : (if 1 <? level + 1
                       then reflowLevel ctx options cfg [] locals
                       else ret locals) w2 = (Returns locals, w2)).
    { destruct (1 <? level + 1) eqn:Hlv; [|done]. apply Nat.ltb_lt in Hlv.
      destruct Hindent as [Hflat|[baseIndent HbaseIndent]]; [lia|].
      unfold reflowLevel. by rewrite HbaseIndent. }
    rewrite Hreflow.
    destruct (IH (level + 1) locals w2 ltac:(lia) ltac:(lia)) as (w' & -> & Hs).
    exists w'. split; [reflexivity|]. by rewrite Hs, Hs2.
Qed.

Lemma levelLoop_declined_throws cfg rootFile err :
  1 ≤ depth rootFile →
  baseIndentOf ctx options = Throw err →
  ∀ fuel level locals w,
  level ≤ 1 →
  2 - level ≤ fuel →
  ∃ w', levelLoop ctx options range_ onTypeParams fuel cfg rootFile level locals w
        = (Throws err, w')
        ∧ sourceFiles w' = sourceFiles w.
Proof using declined.
  intros Hdepth Hthrow.
  induction fuel as [|fuel IH]; intros level locals w Hlevel Hfuel; [lia|].
  cbn [levelLoop]. rewrite bind_run. unfold queryLevel at 1. cbv beta.
  rewrite getEmbeddedFilesByLevel_regionsAtDepth.
  set (w1 := {| sourceFiles := sourceFiles w; maps := maps w; console := console w;
                levelQueries := levelQueries w ++ [level] |}).
  case_bool_decide as Hempty.
  { apply length_zero_iff_nil, regionsAtDepth_empty in Hempty. lia. }
  rewrite bind_run.
  destruct (forOf_declined (document locals) (regionsAtDepth level rootFile)
              {| edits := []; toPatchIndentUris := [] |} w1 eq_refl eq_refl)
    as (lv & w2 & -> & He & Hp & Hs2 & _).
  rewrite He, Hp. change (0 <? length (@nil TextEdit)) with false. cbv iota.
  rewrite bind_run. change (ret locals w2) with (Returns locals, w2). cbv iota beta.
  rewrite bind_run.
  destruct (decide (level = 0)) as [->|Hne].
  - change (1 <? 0 + 1) with false. cbv iota.
    change (ret locals w2) with (Returns locals, w2). cbv iota beta.
    destruct (IH (0 + 1) locals w2 ltac:(lia) ltac:(lia)) as (w' & -> & Hs).
    exists w'. split; [reflexivity|]. by rewrite Hs, Hs2.
  - assert (level = 1) as -> by lia.
    change (1 <? 1 + 1) with true. cbv iota.
    unfold reflowLevel. rewrite bind_run, Hthrow. cbn [liftCompletion].
    exists w2. by split.
Qed.
End Declined.

(** When every provider declines or throws, whatever it is asked, a request
    with enough turns for the depth of the tree gathers no edit and leaves
    the sources as they were.  It returns nothing at all, with or without an
    embedding tree; the one exception is a tree with embedded files together
    with options whose base indent cannot be built: the second level then
    throws the error of [repeat]. *)
Theorem declining_providers_give_nothing
    (ctx : LanguageServicePluginContext) (fuel : nat) (uri_ : string)
    (options : FormattingOptions) (requested : option Range)
    (onTypeParams : option OnTypeParams) (w : World) :
  (∀ plugin d target c, plugin ∈ plugins ctx → noResult options d target c plugin) →
  (∀ d source,
     getTextDocument ctx uri_ = Some d →
     sourceFiles w !! uriToFileName ctx (uri d) = Some source →
     depth (root source) + 2 ≤ fuel) →
  (register ctx fuel uri_ options requested onTypeParams w).1
  = match getTextDocument ctx uri_
            ≫= (fun d => sourceFiles w !! uriToFileName ctx (uri d)) with
    | None => Returns None
    | Some source =>
        match baseIndentOf ctx options with
        | Normal _ => Returns None
        | Throw err =>
            if bool_decide (depth (root source) = 0) then Returns None else Throws err
        end
    end
  ∧ sourceFiles (register ctx fuel uri_ options requested onTypeParams w).2
    = sourceFiles w.
Proof.
  intros Hdeclined Hfuel.
  destruct (getTextDocument ctx uri_) as [document0|] eqn:Hdoc.
  2:{ unfold register. by rewrite Hdoc. }
  cbn [mbind option_bind].
  destruct (sourceFiles w !! uriToFileName ctx (uri document0)) as [source|] eqn:Hsrc.
  - pose proof (register_tree ctx fuel uri_ options requested onTypeParams w
                  document0 source Hdoc Hsrc) as H.
    specialize (Hfuel _ _ eq_refl Hsrc).
    assert (Hquiet : depth (root source) = 0
                     ∨ (∃ baseIndent, baseIndentOf ctx options = Normal baseIndent) →
                     (register ctx fuel uri_ options requested onTypeParams w).1
                     = Returns None
                     ∧ sourceFiles (register ctx fuel uri_ options requested
                                      onTypeParams w).2 = sourceFiles w).
    { intros Hindent.
      destruct (levelLoop_declined ctx options
                  (default (Range_create (TextDoc.positionAt document0 0)
                              (TextDoc.positionAt document0
                                 (String.length (TextDoc.getText document0)))) requested)
                  onTypeParams Hdeclined
                  (default {[ "html" := true ]} (getConfiguration ctx))
                  (root source) Hindent fuel 0
                  {| document := document0; edited := false |} w
                  ltac:(lia) ltac:(lia))
        as (w1 & E & _).
      rewrite E in H. destruct H as (w' & -> & Hs & _). cbn [fst snd document].
      by rewrite bool_decide_true. }
    destruct (baseIndentOf ctx options) as [baseIndent|err] eqn:Hindent.
    { apply Hquiet. right. by exists baseIndent. }
    case_bool_decide as Hdepth; [apply Hquiet; by left|].
    destruct (levelLoop_declined_throws ctx options
                (default (Range_create (TextDoc.positionAt document0 0)
                            (TextDoc.positionAt document0
                               (String.length (TextDoc.getText document0)))) requested)
                onTypeParams Hdeclined
                (default {[ "html" := true ]} (getConfiguration ctx))
                (root source) err ltac:(lia) Hindent fuel 0
                {| document := document0; edited := false |} w
                ltac:(lia) ltac:(lia))
      as (w1 & E & Hs).
    rewrite E in H. by rewrite H.
  - unfold register. rewrite Hdoc. cbv zeta. rewrite bind_run.
    change (getSourceByUri ctx (uri document0) w)
      with (Returns (sourceFiles w !! uriToFileName ctx (uri document0)), w).
    rewrite Hsrc.
    destruct onTypeParams as [params|];
      match goal with
      | |- context [tryFormat ctx options document0 ?t ?c w] =>
          destruct (tryFormat_declined ctx options Hdeclined document0 t c w) as (log & ->)
      end; by split.
Qed.

Lemma declining_providers_give_nothing_witness :
  (register Example_declined.ctx 3 "a.vue" Example_request.options None None
     Example_request.world).1 = Returns None
  ∧ sourceFiles (register Example_declined.ctx 3 "a.vue" Example_request.options None None
                   Example_request.world).2
    = sourceFiles Example_request.world.
Proof.
  apply (declining_providers_give_nothing Example_declined.ctx 3 "a.vue"
           Example_request.options None None Example_request.world).
  - intros plugin d target c Hin. apply list_elem_of_singleton in Hin as ->.
    unfold noResult, callPlugin. destruct c, target; try done.
    all: by match goal with |- context [if ?b then _ else _] => destruct b end.
  - intros d source H1 H2. inversion H1; subst d. vm_compute in H2.
    inversion H2; subst source. vm_compute. lia.
Defined.

(** ** The overlay during a request *)

Lemma wpPartial_forOf {A L} (xs : list A) (body : L → A → M L) (I : L → World → Prop) :
  (∀ acc x w, I acc w → wpPartial (body acc x) w I) →
  ∀ acc w, I acc w → wpPartial (forOf xs body acc) w I.
Proof.
  intros Hbody. induction xs as [|x xs IH]; intros acc w HI; [done|].
  cbn [forOf]. apply wpPartial_bind. specialize (Hbody acc x w HI).
  unfold wpPartial in Hbody |- *. destruct (body acc x w) as [[acc'|err|] w']; [|done|done].
  by apply IH.
Qed.

Lemma wpPartial_mono {A} (m : M A) w (Q Q' : A → World → Prop) :
  wpPartial m w Q → (∀ a w', Q a w' → Q' a w') → wpPartial m w Q'.
Proof. unfold wpPartial. destruct (m w) as [[a|err|] w']; auto. Qed.

Section Overlay.
Variable ctx : LanguageServicePluginContext.
Variable options : FormattingOptions.
Variable range_ : Range.
Variable onTypeParams : option OnTypeParams.
Variable document0 : TextDocument.
Variable w0 : World.

Local Abbreviation Synced := (overlayInv ctx document0 w0).

Lemma overlay_applyBatch locals batch w :
  Synced locals w → wpPartial (applyBatch ctx locals batch) w Synced.
Proof using Type.
  intros [Hu Hs]. unfold applyBatch, wpPartial. rewrite bind_run. unfold liftCompletion.
  destruct (TextEdits.applyEdits (document locals) batch) as [newText|err]; [|done].
  unfold bind, updateSource, ret, overlayInv.
  cbn [uri TextDoc.create document edited sourceFiles]. split; [done|].
  rewrite Hu, Hs. destruct (edited locals); [by rewrite alter_withSnapshot_twice | done].
Qed.

Lemma overlay_reflowLevel cfg uris locals w :
  Synced locals w → wpPartial (reflowLevel ctx options cfg uris locals) w Synced.
Proof using Type.
  intros HI. unfold reflowLevel. apply wpPartial_bind. unfold wpPartial at 1.
  destruct (baseIndent_runs ctx options w) as [(baseIndent & _ & ->)|[_ ->]]; [|done].
  revert locals w HI. apply wpPartial_forOf.
  intros acc u w H. apply wpPartial_bind. unfold wpPartial at 1.
  cbn [getMapsByVirtualFileUri getMapsByVirtualFileName].
  match goal with |- context [forOf ?l _ acc] => generalize l end.
  intros found. revert acc w H. apply wpPartial_forOf.
  intros acc e w H. unfold reflowMap.
  destruct (0 <? length _); [by apply overlay_applyBatch | done].
Qed.

Lemma overlay_levelLoop cfg rootFile : ∀ fuel level locals w,
  Synced locals w →
  wpPartial (levelLoop ctx options range_ onTypeParams fuel cfg rootFile level locals) w
    Synced.
Proof using Type.
  induction fuel as [|fuel IH]; intros level locals w HI; [done|].
  cbn [levelLoop]. apply wpPartial_bind. unfold wpPartial at 1, queryLevel.
  set (w1 := {| sourceFiles := sourceFiles w; maps := maps w; console := console w;
                levelQueries := levelQueries w ++ [level] |}).
  assert (HI1 : Synced locals w1) by exact HI.
  case_bool_decide as Hempty; [done|].
  apply wpPartial_bind.
  eapply wp_wpPartial; [apply wp_formatLevel|].
  intros lv w2 [Hs2 _]. cbn beta.
  assert (HI2 : Synced locals w2).
  { destruct HI1 as [Hu Hs]. split; [done|]. by rewrite Hs2. }
  apply wpPartial_bind.
  assert (H3 : wpPartial (if 0 <? length (edits lv)
                          then applyBatch ctx locals (edits lv) else ret locals) w2 Synced).
  { destruct (0 <? length (edits lv)); [by apply overlay_applyBatch | done]. }
  eapply wpPartial_mono; [exact H3|]. intros locals3 w3 HI3. cbn beta.
  apply wpPartial_bind.
  assert (H4 : wpPartial (if 1 <? level + 1
                          then reflowLevel ctx options cfg (toPatchIndentUris lv) locals3
                          else ret locals3) w3 Synced).
  { destruct (1 <? level + 1); [by apply overlay_reflowLevel | done]. }
  eapply wpPartial_mono; [exact H4|]. intros locals4 w4 HI4. cbn beta.
  by apply IH.
Qed.
End Overlay.

(** The overlay follows the working document: when the level loop returns,
    the sources are those it started with if [edited] is unset, and otherwise
    those with the text of the working document as the snapshot stored for
    the file of the document. *)
Theorem overlay_follows_the_working_document
    (ctx : LanguageServicePluginContext) (options : FormattingOptions)
    (range_ : Range) (onTypeParams : option OnTypeParams) (fuel : nat)
    (cfg : gmap string bool) (rootFile : VirtualFile) (document0 : TextDocument)
    (w : World) :
  match levelLoop ctx options range_ onTypeParams fuel cfg rootFile 0
          {| document := document0; edited := false |} w with
  | (Returns final, w') =>
      sourceFiles w'
      = if edited final
        then alter (withSnapshot (TextDoc.getText (document final)))
               (uriToFileName ctx (uri document0)) (sourceFiles w)
        else sourceFiles w
  | _ => True
  end.
Proof.
  pose proof (overlay_levelLoop ctx options range_ onTypeParams document0 w cfg rootFile
                fuel 0 {| document := document0; edited := false |} w
                (conj eq_refl eq_refl)) as H.
  unfold wpPartial in H.
  destruct (levelLoop _ _ _ _ _ _ _ _ _ w) as [[final|err|] w']; [|done|done].
  by destruct H as [_ H].
Qed.
